(** * PINA: differential operators over labelled tensors and R3 refinement

    A shallow embedding of [pina/operator.py] and of
    [pina/callback/refinement/r3_refinement.py].

    Tensors are modelled with two axes, the batch axis (one row per point)
    and the label axis (one column per label): this is the shape on which the
    operators and the refinement callback work.  The differentiable-tensor
    engine is modelled in exact arithmetic: an entry of a tensor that takes
    part in differentiation is the node of the graph that computes it, from
    the leaf entries of the input tensor, from trainable parameters and from
    numbers that the graph does not track.  The numbers of the refinement
    callback are floating-point numbers. *)

From Stdlib Require Import ZArith List String Lia Bool SpecFloat.
From stdpp Require Import base option list strings gmap.

Set Default Proof Using "Type".

(* ===================================================================== *)
(** * Part I: definitions                                                  *)
(* ===================================================================== *)

(** ** Exceptions *)

(** The Python exception classes met in the two modules. *)
Inductive exc_class : Type :=
  | TypeError | RuntimeError | ValueError | IndexError | KeyError
  | AttributeError.

(** An exception is either raised by a [raise] statement of the module under
    study, with its message ([Validation]), or comes out of a callee: the
    tensor engine, the labelled-tensor container, a Python builtin
    ([LowLevel]). *)
Inductive exn : Type :=
  | Validation (c : exc_class) (msg : string)
  | LowLevel (c : exc_class) (msg : string).

Inductive result (A : Type) : Type :=
  | Ok (a : A)
  | Err (e : exn).
Arguments Ok {A} a.
Arguments Err {A} e.

Global Instance result_ret : MRet result := fun A a => Ok a.
Global Instance result_bind : MBind result := fun A B f m =>
  match m with
  | Ok a => f a
  | Err e => Err e
  end.

(** [[f(x) for x in l]] in the error monad: stops at the first exception. *)
Fixpoint result_mapM {A B} (f : A -> result B) (l : list A) : result (list B) :=
  match l with
  | [] => Ok []
  | x :: l' =>
      match f x with
      | Ok y =>
          match result_mapM f l' with
          | Ok ys => Ok (y :: ys)
          | Err e => Err e
          end
      | Err e => Err e
      end
  end.

(** A computation that may call the reverse-mode primitive: its outcome and
    the number of calls of [torch.autograd.grad] made until it returned or
    raised. *)
Record Traced (A : Type) : Type := mkTraced {
  calls : nat;
  outcome : result A
}.
Arguments mkTraced {A} calls outcome.
Arguments calls {A} t.
Arguments outcome {A} t.

Definition pure_step {A} (r : result A) : Traced A := mkTraced 0 r.

Global Instance traced_ret : MRet Traced := fun A a => mkTraced 0 (Ok a).
Global Instance traced_bind : MBind Traced := fun A B f m =>
  match outcome m with
  | Ok a => mkTraced (calls m + calls (f a)) (outcome (f a))
  | Err e => mkTraced (calls m) (Err e)
  end.

Fixpoint traced_mapM {A B} (f : A -> Traced B) (l : list A) : Traced (list B) :=
  match l with
  | [] => mret []
  | x :: l' => y ← f x; ys ← traced_mapM f l'; mret (y :: ys)
  end.

(** ** The computation graph *)

(** A tensor entry as the engine records it.  [Var n j] is the entry of the
    input in row [n] and column [j]: the input is the leaf tensor with
    respect to which the operators differentiate, and it requires grad.
    [Par z] is a trainable parameter of value [z]: a leaf that requires
    grad and is not the input.  [Cst z] is a number that the graph does not
    track: a literal, or an entry of a tensor that does not require grad. *)
Inductive expr : Type :=
  | Cst (z : Z)
  | Par (z : Z)
  | Var (n j : nat)
  | Add (a b : expr)
  | Mul (a b : expr).

Global Instance expr_inhabited : Inhabited expr := populate (Cst 0).

Fixpoint eval (env : nat -> nat -> Z) (e : expr) : Z :=
  match e with
  | Cst z => z
  | Par z => z
  | Var n j => env n j
  | Add a b => (eval env a + eval env b)%Z
  | Mul a b => (eval env a * eval env b)%Z
  end.

(** The partial derivative with respect to the input entry [(n, j)]. *)
Fixpoint diff (n j : nat) (e : expr) : expr :=
  match e with
  | Cst _ => Cst 0
  | Par _ => Cst 0
  | Var n' j' => if Nat.eqb n n' && Nat.eqb j j' then Cst 1 else Cst 0
  | Add a b => Add (diff n j a) (diff n j b)
  | Mul a b => Add (Mul (diff n j a) b) (Mul a (diff n j b))
  end.

(** The entry requires grad: it is computed from a leaf that does. *)
Fixpoint tracked (e : expr) : bool :=
  match e with
  | Cst _ => false
  | Par _ => true
  | Var _ _ => true
  | Add a b => tracked a || tracked b
  | Mul a b => tracked a || tracked b
  end.

(** The graph of the entry reaches the input. *)
Fixpoint has_input (e : expr) : bool :=
  match e with
  | Cst _ => false
  | Par _ => false
  | Var _ _ => true
  | Add a b => has_input a || has_input b
  | Mul a b => has_input a || has_input b
  end.

(** Reverse mode through one entry: what the node [e], reached with the
    upstream gradient [g], passes on to the input entry [(n, j)].  A sum
    passes [g] to both operands; a product [a * b] passes [g * b] to [a]
    and [g * a] to [b]; the leaf [(n, j)] receives what reaches it.  With
    [create_graph=True] the products are recorded, so that the result is
    again a node of the graph. *)
Fixpoint backward (n j : nat) (g e : expr) : expr :=
  match e with
  | Cst _ => Cst 0
  | Par _ => Cst 0
  | Var n' j' => if Nat.eqb n n' && Nat.eqb j j' then g else Cst 0
  | Add a b => Add (backward n j g a) (backward n j g b)
  | Mul a b => Add (backward n j (Mul g b) a) (backward n j (Mul g a) b)
  end.

(** ** Tensors *)

(** A tensor of shape [(length rows, width)].  [hidden] is what the graph
    of the tensor reaches beside its own entries: the entries of the tensors
    that it was cut from or computed from, which a differentiation of the
    tensor goes through with a zero upstream gradient. *)
Record Tensor (A : Type) : Type := mkTensor {
  width : nat;
  rows : list (list A);
  hidden : list A
}.
Arguments mkTensor {A} width rows hidden.
Arguments width {A} t.
Arguments rows {A} t.
Arguments hidden {A} t.

Definition shape0 {A} (t : Tensor A) : nat := length (rows t).

(** Every row has [width] entries. *)
Definition rectangular {A} (t : Tensor A) : Prop :=
  Forall (fun r => length r = width t) (rows t).

Definition same_shape {A B} (a : Tensor A) (b : Tensor B) : bool :=
  Nat.eqb (width a) (width b)
  && bool_decide (map length (rows a) = map length (rows b)).

(** All that the graph of a tensor reaches: its entries, then the hidden
    ones. *)
Definition nodes {A} (t : Tensor A) : list A := concat (rows t) ++ hidden t.

(** [t.requires_grad] *)
Definition requires_grad (t : Tensor expr) : bool := existsb tracked (nodes t).

(** The input is among the leaves of the graph of [t]. *)
Definition uses_input (t : Tensor expr) : bool := existsb has_input (nodes t).

(** [torch.ones_like]: a new tensor, which does not require grad. *)
Definition ones_like (t : Tensor expr) : Tensor expr :=
  mkTensor (width t) (map (map (fun _ => Cst 1)) (rows t)) [].

(** The entry [(n, j)] of the vector-Jacobian product: what the entries of
    [outputs], each reached with its upstream gradient, and the hidden
    nodes, reached with zero, pass on to the input entry [(n, j)]. *)
Definition vjp (n j : nat) (outputs grad_outputs : Tensor expr) : expr :=
  foldr Add (Cst 0)
    (zip_with (backward n j)
       (concat (rows grad_outputs)) (concat (rows outputs))
     ++ map (backward n j (Cst 0)) (hidden outputs)).

(** The tensor of the vector-Jacobian products, of the shape of [inputs].
    It is computed from the upstream gradients, whose graph it reaches. *)
Definition gradient (outputs inputs grad_outputs : Tensor expr) : Tensor expr :=
  mkTensor (width inputs)
    (map (fun n =>
            map (fun j => vjp n j outputs grad_outputs) (seq 0 (width inputs)))
       (seq 0 (shape0 inputs)))
    (nodes grad_outputs).

(** [torch.autograd.grad(outputs, inputs, grad_outputs, create_graph=True,
    retain_graph=True, allow_unused=True)[0]].  The engine refuses outputs
    that do not require grad.  When they do and their graph does not reach
    [inputs], the gradient is [None] ([allow_unused=True]); otherwise it is
    a tensor of the shape of [inputs], in which an entry that the outputs do
    not depend on gets zero.  One call of the primitive is recorded, whether
    it returns or raises. *)
Definition torch_autograd_grad (outputs inputs grad_outputs : Tensor expr)
  : Traced (option (Tensor expr)) :=
  mkTraced 1
    (if negb (same_shape outputs grad_outputs) then
       Err (LowLevel RuntimeError "Mismatch in shape of grad_outputs")
     else if negb (requires_grad outputs) then
       Err (LowLevel RuntimeError
              "element 0 of tensors does not require grad and does not have a grad_fn")
     else if uses_input outputs then
       Ok (Some (gradient outputs inputs grad_outputs))
     else Ok None).

(** [g[..., idx]] on what the primitive returned: [None] has no items. *)
Definition not_subscriptable {A} : result A :=
  Err (LowLevel TypeError "'NoneType' object is not subscriptable").

(** [l.index(x)] of a Python list. *)
Fixpoint list_index (l : list string) (x : string) : option nat :=
  match l with
  | [] => None
  | y :: l' => if decide (y = x) then Some 0 else S <$> list_index l' x
  end.

Definition py_index (l : list string) (x : string) : result nat :=
  match list_index l x with
  | Some i => Ok i
  | None => Err (LowLevel ValueError "label is not in list")
  end.

(** [t[..., idx]]: the columns of [t] at the positions [idx], in that
    order.  The result is cut from [t]: its graph is that of [t]. *)
Definition index_select {A} (t : Tensor A) (idx : list nat) : result (Tensor A) :=
  if forallb (fun i => Nat.ltb i (width t)) idx then
    match mapM (fun r : list A => mapM (fun i => r !! i) idx) (rows t) with
    | Some rs => Ok (mkTensor (length idx) rs (hidden t ++ concat (rows t)))
    | None => Err (LowLevel IndexError "index out of range")
    end
  else Err (LowLevel IndexError "index out of range").

(** [torch.cat([a, b], dim=-1)] *)
Definition hcat2 {A} (a b : Tensor A) : result (Tensor A) :=
  if Nat.eqb (shape0 a) (shape0 b) then
    Ok (mkTensor (width a + width b) (zip_with app (rows a) (rows b))
          (hidden a ++ hidden b))
  else Err (LowLevel RuntimeError "Sizes of tensors must match except in dimension 1").

Fixpoint hcat_from {A} (acc : Tensor A) (ts : list (Tensor A)) : result (Tensor A) :=
  match ts with
  | [] => Ok acc
  | t :: ts' => acc' ← hcat2 acc t; hcat_from acc' ts'
  end.

(** [torch.cat(ts, dim=-1)] *)
Definition torch_cat {A} (ts : list (Tensor A)) : result (Tensor A) :=
  match ts with
  | [] => Err (LowLevel RuntimeError "torch.cat(): expected a non-empty list of Tensors")
  | t :: ts' => hcat_from t ts'
  end.

(** [torch.sum(t, dim=-1, keepdim=True)] *)
Definition torch_sum_keepdim (t : Tensor expr) : Tensor expr :=
  mkTensor 1 (map (fun r => [foldr Add (Cst 0) r]) (rows t)) (hidden t).

(** [torch.empty(n, k)]: the entries are unspecified; zero stands for them. *)
Definition torch_empty (n k : nat) : Tensor expr :=
  mkTensor k (replicate n (replicate k (Cst 0))) [].

(** [torch.zeros_like]: a new tensor, which does not require grad. *)
Definition zeros_like (t : Tensor expr) : Tensor expr :=
  mkTensor (width t) (map (map (fun _ => Cst 0)) (rows t)) [].

(** Entry-wise sum of two tensors of the same shape. *)
Definition tensor_add (a b : Tensor expr) : result (Tensor expr) :=
  if same_shape a b then
    Ok (mkTensor (width a) (zip_with (zip_with Add) (rows a) (rows b))
          (hidden a ++ hidden b))
  else Err (LowLevel RuntimeError "The size of tensor a must match the size of tensor b").

(** ** Labelled tensors *)

Record LabelTensor (A : Type) : Type := mkLabelTensor {
  tensor : Tensor A;
  labels : list string
}.
Arguments mkLabelTensor {A} tensor labels.
Arguments tensor {A} l.
Arguments labels {A} l.

(** The invariants of the data model: unique labels, one per column, on a
    rectangular array. *)
Definition well_formed {A} (t : LabelTensor A) : Prop :=
  NoDup (labels t) /\ length (labels t) = width (tensor t)
  /\ rectangular (tensor t).

(** Modelled from the spec: the constructor of the labelled-tensor container
    ([pina/label_tensor.py] is not among the sources).  The labels are an
    ordered sequence of unique strings and their count equals the size of the
    last axis; a constructor call that would break either is refused. *)
Definition LabelTensor_init {A} (x : Tensor A) (lbls : list string)
  : result (LabelTensor A) :=
  if bool_decide (NoDup lbls) then
    if Nat.eqb (length lbls) (width x) then Ok (mkLabelTensor x lbls)
    else Err (LowLevel ValueError "Number of labels does not match the tensor shape")
  else Err (LowLevel ValueError "Labels must be unique").

(** Modelled from the spec: column extraction by label of the
    labelled-tensor container.  The columns come in the order of the request,
    each found by its label; a label that the tensor does not have is an
    error of the container. *)
Definition extract {A} (t : LabelTensor A) (ls : list string)
  : result (LabelTensor A) :=
  idx ← result_mapM (py_index (labels t)) ls;
  x ← index_select (tensor t) idx;
  Ok (mkLabelTensor x ls).

Fixpoint sum_from (acc : Tensor expr) (ts : list (LabelTensor expr))
  : result (Tensor expr) :=
  match ts with
  | [] => Ok acc
  | t :: ts' => acc' ← tensor_add acc (tensor t); sum_from acc' ts'
  end.

(** Modelled from the spec: the label-preserving summation of a list of
    labelled tensors of the same shape.  A single tensor is returned as it
    is; several are accumulated, in order, onto a tensor of zeros, and the
    sum keeps the labels of the first one. *)
Definition summation (ts : list (LabelTensor expr)) : result (LabelTensor expr) :=
  match ts with
  | [] => Err (LowLevel ValueError "The tensors list must not be empty")
  | [t] => Ok t
  | t :: _ =>
      data ← sum_from (zeros_like (tensor t)) ts;
      LabelTensor_init data (labels t)
  end.

(** ** [pina/operator.py] *)

(** What a caller may pass where a labelled tensor is expected: a labelled
    tensor, or an object of another type (a plain tensor). *)
Inductive tensor_arg : Type :=
  | IsLabelTensor (t : LabelTensor expr)
  | PlainTensor (t : Tensor expr).

(** What a caller may pass as [components], [d] or [velocity_field]:
    [None], a string, or a list of strings. *)
Inductive label_arg : Type :=
  | ArgNone
  | ArgStr (s : string)
  | ArgList (l : list string).

(** [a or dflt]: [None], the empty string and the empty list are falsy. *)
Definition py_or (a : label_arg) (dflt : list string) : string + list string :=
  match a with
  | ArgNone => inr dflt
  | ArgStr s => if decide (s = "") then inr dflt else inl s
  | ArgList l => match l with [] => inr dflt | _ :: _ => inr l end
  end.

(** [v if isinstance(v, list) else [v]] *)
Definition as_list (v : string + list string) : list string :=
  match v with
  | inl s => [s]
  | inr l => l
  end.

(** [all(x in lbls for x in l)] *)
Definition all_in (l lbls : list string) : bool :=
  forallb (fun x => bool_decide (x ∈ lbls)) l.

(** [l[i]] of a Python list. *)
Definition py_getitem (l : list string) (i : nat) : result string :=
  match l !! i with
  | Some x => Ok x
  | None => Err (LowLevel IndexError "list index out of range")
  end.

(** The f-string [f"d{c}d{i}"]. *)
Definition dlabel (c i : string) : string := "d" +:+ c +:+ "d" +:+ i.

(** The f-string [f"dd{c}"]. *)
Definition ddlabel (c : string) : string := "dd" +:+ c.

(** The f-string [f"adv_{c}"]. *)
Definition advlabel (c : string) : string := "adv_" +:+ c.

Definition _check_values (output_ input_ : tensor_arg) (components d : label_arg)
  : result (list string * list string) :=
  match input_ with
  | PlainTensor _ => Err (Validation TypeError "Input must be a LabelTensor.")
  | IsLabelTensor inp =>
      match output_ with
      | PlainTensor _ => Err (Validation TypeError "Output must be a LabelTensor.")
      | IsLabelTensor out =>
          let d := py_or d (labels inp) in
          let components := py_or components (labels out) in
          let d := as_list d in
          let components := as_list components in
          if negb (all_in d (labels inp)) then
            Err (Validation RuntimeError "Derivative labels missing from input tensor.")
          else if negb (all_in components (labels out)) then
            Err (Validation RuntimeError "Component label missing from output tensor.")
          else Ok (components, d)
      end
  end.

Definition _scalar_grad (output_ input_ : LabelTensor expr) (d : list string)
  : Traced (Tensor expr) :=
  grad_out ← torch_autograd_grad (tensor output_) (tensor input_)
               (ones_like (tensor output_));
  idx ← pure_step (result_mapM (py_index (labels input_)) d);
  pure_step (match grad_out with
             | Some g => index_select g idx
             | None => not_subscriptable
             end).

Definition fast_grad (output_ input_ : LabelTensor expr) (components d : list string)
  : Traced (LabelTensor expr) :=
  if Nat.eqb (width (tensor output_)) 1 then
    g ← _scalar_grad output_ input_ d;
    lbls ← pure_step (result_mapM
                        (fun i => l0 ← py_getitem (labels output_) 0;
                                  Ok (dlabel l0 i)) d);
    pure_step (LabelTensor_init g lbls)
  else
    gs ← traced_mapM
           (fun c => oc ← pure_step (extract output_ [c]);
                     _scalar_grad oc input_ d) components;
    grads ← pure_step (torch_cat gs);
    pure_step (LabelTensor_init grads
                 (flat_map (fun c => map (fun i => dlabel c i) d) components)).

Definition _scalar_laplacian (output_ input_ : LabelTensor expr) (d : list string)
  : Traced (Tensor expr) :=
  first_grad ← fast_grad output_ input_ (labels output_) d;
  second_grad ← fast_grad first_grad input_ (labels first_grad) d;
  let labels_to_extract :=
    map (fun '(c, d_) => dlabel c d_) (zip (labels first_grad) d) in
  diag ← pure_step (extract second_grad labels_to_extract);
  mret (torch_sum_keepdim (tensor diag)).

Definition fast_div (output_ input_ : LabelTensor expr) (components d : list string)
  : Traced (LabelTensor expr) :=
  grad_out ← fast_grad output_ input_ components d;
  tensors_to_sum ← pure_step (result_mapM
                                (fun '(c, d_) => extract grad_out [dlabel c d_])
                                (zip components d));
  pure_step (summation tensors_to_sum).

Definition invalid_method : exn :=
  Validation ValueError
    "Invalid method. Available methods are ``std`` and ``divgrad``.".

Definition fast_laplacian (output_ input_ : LabelTensor expr)
    (components d : list string) (method : string) : Traced (LabelTensor expr) :=
  if Nat.eqb (width (tensor output_)) 1 then
    x ← _scalar_laplacian output_ input_ d;
    pure_step (LabelTensor_init x (map ddlabel components))
  else
    let lbls := map ddlabel components in
    let result0 := torch_empty (shape0 (tensor input_)) (length components) in
    result1 ←
      (if String.eqb method "std" then
         ls ← traced_mapM
                (fun c => oc ← pure_step (extract output_ [c]);
                          _scalar_laplacian oc input_ d) components;
         pure_step (torch_cat ls)
       else if String.eqb method "divgrad" then
         grads ← fast_grad output_ input_ components d;
         ds ← traced_mapM
                (fun c => r ← fast_div grads input_
                                (map (fun i => dlabel c i) d) d;
                          mret (tensor r)) components;
         pure_step (torch_cat ds)
       else pure_step (Err invalid_method));
    pure_step (LabelTensor_init result1 lbls).

(** [take size l :: take size (drop size l) :: ...], [count] blocks. *)
Fixpoint chunks {A} (count size : nat) (l : list A) : list (list A) :=
  match count with
  | O => []
  | S count' => take size l :: chunks count' size (drop size l)
  end.

(** [t.reshape(n, k, m)]: the entries in row-major order, regrouped. *)
Definition reshape3 (t : Tensor expr) (n k m : nat)
  : result (list (list (list expr))) :=
  let flat := concat (rows t) in
  if Nat.eqb (length flat) (n * k * m) then
    Ok (map (chunks k m) (chunks n (k * m) flat))
  else Err (LowLevel RuntimeError "shape is invalid for input size").

(** [b.transpose(-1, -2)] of a block of [k] rows of [m] entries. *)
Definition transpose_block (m : nat) (b : list (list expr)) : list (list expr) :=
  map (fun j => map (fun r : list expr => r !!! j) b) (seq 0 m).

(** [(tmp * velocity)] on one point: [tmp] has shape [(m, k)] and the
    unsqueezed velocity [(v, 1)]; the first axis broadcasts when one of the
    two sizes is 1. *)
Definition broadcast_mul (tmp : list (list expr)) (vel : list expr)
  : result (list (list expr)) :=
  if Nat.eqb (length tmp) (length vel) then
    Ok (zip_with (fun r v => map (fun e => Mul e v) r) tmp vel)
  else
    match vel, tmp with
    | [v], _ => Ok (map (fun r => map (fun e => Mul e v) r) tmp)
    | _, [r] => Ok (map (fun v => map (fun e => Mul e v) r) vel)
    | _, _ => Err (LowLevel RuntimeError
                     "The size of tensor a must match the size of tensor b")
    end.

(** [.sum(dim=0)] of a block whose rows have [k] entries. *)
Definition sum_rows (k : nat) (b : list (list expr)) : list expr :=
  foldl (zip_with Add) (replicate k (Cst 0)) b.

Definition fast_advection (output_ input_ : LabelTensor expr)
    (velocity_field components d : list string) : Traced (LabelTensor expr) :=
  velocity ← pure_step (extract output_ velocity_field);
  grads ← fast_grad output_ input_ components d;
  tmp ← pure_step (reshape3 (tensor grads) (shape0 (tensor output_))
                     (length components) (length d));
  let tmp := map (transpose_block (length d)) tmp in
  prod ← pure_step
           (if Nat.eqb (length tmp) (shape0 (tensor velocity)) then
              result_mapM (fun '(b, v) => broadcast_mul b v)
                (zip tmp (rows (tensor velocity)))
            else Err (LowLevel RuntimeError
                        "The size of tensor a must match the size of tensor b"));
  let adv := mkTensor (length components)
               (map (sum_rows (length components)) prod)
               (nodes (tensor grads) ++ nodes (tensor velocity)) in
  pure_step (LabelTensor_init adv (map advlabel components)).

(** An object that is not a labelled tensor has none of its attributes. *)
Definition not_a_label_tensor {A} : Traced A :=
  pure_step (Err (LowLevel AttributeError "'Tensor' object has no attribute 'labels'")).

Definition grad (output_ input_ : tensor_arg) (components d : label_arg)
  : Traced (LabelTensor expr) :=
  cd ← pure_step (_check_values output_ input_ components d);
  match output_, input_ with
  | IsLabelTensor out, IsLabelTensor inp => fast_grad out inp cd.1 cd.2
  | _, _ => not_a_label_tensor
  end.

Definition div_length_mismatch : exn :=
  Validation ValueError
    "Divergence requires components and d to be of the same length.".

Definition div (output_ input_ : tensor_arg) (components d : label_arg)
  : Traced (LabelTensor expr) :=
  cd ← pure_step (_check_values output_ input_ components d);
  if negb (Nat.eqb (length cd.1) (length cd.2)) then
    pure_step (Err div_length_mismatch)
  else
    match output_, input_ with
    | IsLabelTensor out, IsLabelTensor inp => fast_div out inp cd.1 cd.2
    | _, _ => not_a_label_tensor
    end.

(** [method] is a parameter of [laplacian]; the call of [fast_laplacian] in
    its body passes [output_], [input_], [components] and [d] only, so that
    [fast_laplacian] runs with its own default, ["std"]. *)
Definition laplacian (output_ input_ : tensor_arg) (components d : label_arg)
    (method : string) : Traced (LabelTensor expr) :=
  cd ← pure_step (_check_values output_ input_ components d);
  match output_, input_ with
  | IsLabelTensor out, IsLabelTensor inp => fast_laplacian out inp cd.1 cd.2 "std"
  | _, _ => not_a_label_tensor
  end.

Definition velocity_missing : exn :=
  Validation RuntimeError "Velocity labels missing from output tensor.".

Definition velocity_mismatch : exn :=
  Validation RuntimeError
    "Velocity dimensionality does not match input dimensionality.".

(** [velocity_field] is a string or a list of strings; [None] is not
    iterable. *)
Definition velocity_list (velocity_field : label_arg) : result (list string) :=
  match velocity_field with
  | ArgStr s => Ok [s]
  | ArgList l => Ok l
  | ArgNone => Err (LowLevel TypeError "'NoneType' object is not iterable")
  end.

Definition advection (output_ input_ : tensor_arg)
    (velocity_field components d : label_arg) : Traced (LabelTensor expr) :=
  cd ← pure_step (_check_values output_ input_ components d);
  match output_, input_ with
  | IsLabelTensor out, IsLabelTensor inp =>
      velocity_field ← pure_step (velocity_list velocity_field);
      if negb (all_in velocity_field (labels out)) then
        pure_step (Err velocity_missing)
      else if negb (Nat.eqb (length velocity_field) (length cd.2)) then
        pure_step (Err velocity_mismatch)
      else fast_advection out inp velocity_field cd.1 cd.2
  | _, _ => not_a_label_tensor
  end.

(** ** A worked input: u = x^2 + y^2 and v = x * y on two points *)

Definition ex_input : LabelTensor expr :=
  mkLabelTensor (mkTensor 2 [[Var 0 0; Var 0 1]; [Var 1 0; Var 1 1]] [])
    ["x"; "y"].

Definition ex_u (n : nat) : expr :=
  Add (Mul (Var n 0) (Var n 0)) (Mul (Var n 1) (Var n 1)).

Definition ex_v (n : nat) : expr := Mul (Var n 0) (Var n 1).

Definition ex_output : LabelTensor expr :=
  mkLabelTensor (mkTensor 2 [[ex_u 0; ex_v 0]; [ex_u 1; ex_v 1]] []) ["u"; "v"].

Definition ex_scalar : LabelTensor expr :=
  mkLabelTensor (mkTensor 1 [[ex_u 0]; [ex_u 1]] []) ["u"].

(** The same tensors under labels whose derived labels collide:
    [d<u>d<xdy>] and [d<udx>d<y>] are both [dudxdy]. *)
Definition ex_colliding_input : LabelTensor expr :=
  mkLabelTensor (tensor ex_input) ["xdy"; "y"].

Definition ex_colliding_output : LabelTensor expr :=
  mkLabelTensor (tensor ex_output) ["u"; "udx"].

(** An output that is linear in the input, u = 2 x + 3 y: its gradient does
    not depend on the input. *)
Definition ex_linear : LabelTensor expr :=
  mkLabelTensor
    (mkTensor 1
       [[Add (Mul (Cst 2) (Var 0 0)) (Mul (Cst 3) (Var 0 1))];
        [Add (Mul (Cst 2) (Var 1 0)) (Mul (Cst 3) (Var 1 1))]] [])
    ["u"].

(** An output that does not depend on the input and does not require
    grad. *)
Definition ex_constant : LabelTensor expr :=
  mkLabelTensor (mkTensor 2 [[Cst 3; Cst 4]; [Cst 3; Cst 4]] []) ["u"; "v"].

(** The values of the input entries: the points (1, 2) and (3, 5). *)
Definition ex_env (n j : nat) : Z :=
  match n, j with
  | O, O => 1%Z
  | O, S O => 2%Z
  | S O, O => 3%Z
  | S O, S O => 5%Z
  | _, _ => 0%Z
  end.

(** The numeric value of a result. *)
Definition values (env : nat -> nat -> Z) (t : LabelTensor expr) : list (list Z) :=
  map (map (eval env)) (rows (tensor t)).


(** ** [pina/callback/refinement/r3_refinement.py] *)

(** *** Floating-point numbers *)

(** Points and residuals are tensors of floating-point numbers.  What the
    callback asks of the arithmetic of the engine: zero, the comparison
    [a > b], and the mean of the entries of a tensor, rounded as the engine
    rounds it. *)
Class FloatOps (F : Type) : Type := mkFloatOps {
  f_zero : F;
  f_gt : F -> F -> bool;
  f_mean : list F -> F
}.

(** Single precision, the default of the engine: IEEE 754 binary32 with
    rounding to nearest, ties to even. *)
Definition float32 : Type := spec_float.

Definition f32_of_Z (z : Z) : float32 := binary_normalize 24 128 z 0 false.

Definition f32_add (a b : float32) : float32 := SFadd 24 128 a b.

Definition f32_sub (a b : float32) : float32 := SFsub 24 128 a b.

Definition f32_div (a b : float32) : float32 := SFdiv 24 128 a b.

(** The sum of the entries, accumulated in single precision in the order of
    the entries. *)
Definition f32_sum (l : list float32) : float32 :=
  foldl f32_add (S754_zero false) l.

(** The mean: the sum divided by the number of entries.  The mean of no
    entry at all is [0 / 0], not a number, which compares false with
    everything. *)
Definition f32_mean (l : list float32) : float32 :=
  f32_div (f32_sum l) (f32_of_Z (Z.of_nat (length l))).

Global Instance float32_ops : FloatOps float32 :=
  {| f_zero := S754_zero false;
     f_gt := fun a b => SFltb b a;
     f_mean := f32_mean |}.

(** *** The callback *)

(** What a loss returns: a tensor of the shape of its arguments, or, when it
    reduces, a single number. *)
Inductive loss_output (F : Type) : Type :=
  | Elementwise (t : Tensor F)
  | Reduced (q : F).
Arguments Elementwise {F} t.
Arguments Reduced {F} q.

(** A loss object: its [reduction] attribute and its call. *)
Record LossFn (F : Type) : Type := mkLossFn {
  reduction : string;
  forward : Tensor F -> Tensor F -> result (loss_output F)
}.
Arguments mkLossFn {F} reduction forward.
Arguments reduction {F} l.
Arguments forward {F} l a b.

(** A Python class: its method resolution order, by name and starting with
    the class itself, and what calling it with the keyword [reduction]
    gives. *)
Record PyClass (F : Type) : Type := mkPyClass {
  mro : list string;
  construct : string -> result (LossFn F)
}.
Arguments mkPyClass {F} mro construct.
Arguments mro {F} p.
Arguments construct {F} p red.

(** What a caller may pass as [residual_loss]. *)
Inductive py_object (F : Type) : Type :=
  | ClassObj (c : PyClass F)
  | InstanceObj (f : LossFn F)
  | OtherObj.
Arguments ClassObj {F} c.
Arguments InstanceObj {F} f.
Arguments OtherObj {F}.

(** What a caller may pass as [condition_to_update]. *)
Inductive cond_arg : Type :=
  | CondNone
  | CondStr (s : string)
  | CondList (l : list string)
  | CondOther.

Record Condition (E : Type) : Type := mkCondition {
  equation : E;
  domain : string
}.
Arguments mkCondition {E} equation domain.
Arguments equation {E} c.
Arguments domain {E} c.

(** A domain draws points with [sample(n, mode)]; [G] is the state of the
    random generator, which a draw advances. *)
Record Domain (F G : Type) : Type := mkDomain {
  domain_sample : Z -> string -> G -> result (LabelTensor F) * G
}.
Arguments mkDomain {F G} domain_sample.
Arguments domain_sample {F G} d n mode g.

Record Problem (E F G : Type) : Type := mkProblem {
  conditions : gmap string (Condition E);
  domains : gmap string (Domain F G)
}.
Arguments mkProblem {E F G} conditions domains.
Arguments conditions {E F G} p.
Arguments domains {E F G} p.

Record Solver (E F G : Type) : Type := mkSolver {
  problem : Problem E F G;
  compute_residual : LabelTensor F -> E -> result (Tensor F)
}.
Arguments mkSolver {E F G} problem compute_residual.
Arguments problem {E F G} s.
Arguments compute_residual {E F G} s points eq.

Record R3Refinement (F : Type) : Type := mkR3Refinement {
  sample_every : Z;
  condition_to_update : option (list string);
  loss_fn : LossFn F;
  initial_population_size : gmap string nat
}.
Arguments mkR3Refinement {F} sample_every condition_to_update loss_fn
  initial_population_size.
Arguments sample_every {F} r.
Arguments condition_to_update {F} r.
Arguments loss_fn {F} r.
Arguments initial_population_size {F} r.

(** [m[k]] of a Python dict. *)
Definition py_lookup {V} (m : gmap string V) (k : string) : result V :=
  match m !! k with
  | Some v => Ok v
  | None => Err (LowLevel KeyError k)
  end.

(** [issubclass(c, bases)] for a tuple of class names. *)
Definition issubclass {F} (c : PyClass F) (bases : list string) : bool :=
  existsb (fun b => bool_decide (b ∈ mro c)) bases.

(** Modelled from the spec: [check_consistency(obj, bases, subclass=True)]
    of [pina/utils.py], which is not among the sources.  The residual loss
    must be a recognized elementwise-loss abstraction: a class that derives
    from one of [bases]; anything else is refused. *)
Definition check_consistency {F} (obj : py_object F) (bases : list string)
  : result unit :=
  match obj with
  | ClassObj c =>
      if issubclass c bases then Ok tt
      else Err (LowLevel ValueError "residual_loss must be a subclass of the loss interfaces")
  | InstanceObj _ | OtherObj =>
      Err (LowLevel ValueError "residual_loss must be a class")
  end.

(** Modelled from the spec: the constructor of [RefinementInterface], which
    is not among the sources.  The condition selection is a string, a list
    or tuple of strings, or omitted; anything else is a configuration error
    at construction. *)
Definition RefinementInterface_init (sample_every : Z) (condition_to_update : cond_arg)
  : result (Z * option (list string)) :=
  match condition_to_update with
  | CondNone => Ok (sample_every, None)
  | CondStr s => Ok (sample_every, Some [s])
  | CondList l => Ok (sample_every, Some l)
  | CondOther =>
      Err (LowLevel ValueError "condition_to_update must be a string or an iterable of strings")
  end.

(** [R3Refinement.__init__] *)
Definition R3Refinement_init {F} (sample_every : Z) (residual_loss : py_object F)
    (condition_to_update : cond_arg) : result (R3Refinement F) :=
  base ← RefinementInterface_init sample_every condition_to_update;
  _ ← check_consistency residual_loss ["LossInterface"; "_Loss"];
  match residual_loss with
  | ClassObj c =>
      fn ← construct c "none";
      Ok (mkR3Refinement base.1 base.2 fn ∅)
  | InstanceObj _ | OtherObj =>
      Err (LowLevel TypeError "object is not callable with reduction")
  end.

(** [torch.zeros_like] on a tensor of numbers. *)
Definition float_zeros_like {F} `{FloatOps F} (t : Tensor F) : Tensor F :=
  mkTensor (width t) (map (map (fun _ => f_zero)) (rows t)) [].

(** [out.mean(dim=tuple(range(1, target.ndim)))] for a target with two axes:
    the mean of every row; a reduced output has no axis 1. *)
Definition mean_over_fields {F} `{FloatOps F} (out : loss_output F)
  : result (list F) :=
  match out with
  | Elementwise t => Ok (map f_mean (rows t))
  | Reduced _ =>
      Err (LowLevel IndexError "Dimension out of range (expected to be in range of [-1, 0], but got 1)")
  end.

(** [rows[mask]]: the rows at which the mask is true, in order. *)
Fixpoint select_rows {A} (rs : list A) (mask : list bool) : list A :=
  match rs, mask with
  | r :: rs', b :: mask' =>
      if b then r :: select_rows rs' mask' else select_rows rs' mask'
  | _, _ => []
  end.

(** Modelled from the spec: indexing a labelled tensor by a boolean mask
    over its points.  The mask has one entry per point; the selected points
    keep the labels. *)
Definition getitem_mask {A} (t : LabelTensor A) (mask : list bool)
  : result (LabelTensor A) :=
  if Nat.eqb (length mask) (shape0 (tensor t)) then
    Ok (mkLabelTensor
          (mkTensor (width (tensor t)) (select_rows (rows (tensor t)) mask)
             (hidden (tensor t) ++ concat (rows (tensor t))))
          (labels t))
  else Err (LowLevel IndexError "The shape of the mask does not match the shape of the indexed tensor").

(** Modelled from the spec: the assignment [t.labels = lbls] of the
    labelled-tensor container, which sets the labels under the invariants of
    the constructor. *)
Definition set_labels {A} (t : LabelTensor A) (lbls : list string)
  : result (LabelTensor A) :=
  LabelTensor_init (tensor t) lbls.

Definition vcat2 {A} (a b : LabelTensor A) : result (LabelTensor A) :=
  if bool_decide (labels a = labels b) && Nat.eqb (width (tensor a)) (width (tensor b))
  then Ok (mkLabelTensor
             (mkTensor (width (tensor a)) (rows (tensor a) ++ rows (tensor b))
                (hidden (tensor a) ++ hidden (tensor b)))
             (labels a))
  else Err (LowLevel RuntimeError "tensors must have the same shape and labels").

Fixpoint vcat_from {A} (acc : LabelTensor A) (ts : list (LabelTensor A))
  : result (LabelTensor A) :=
  match ts with
  | [] => Ok acc
  | t :: ts' => acc' ← vcat2 acc t; vcat_from acc' ts'
  end.

(** Modelled from the spec: [LabelTensor.cat(ts)], the concatenation of
    compatible labelled tensors along the axis of the points.  Compatible
    tensors have the same labels; the points follow each other in the order
    of the list. *)
Definition LabelTensor_cat {A} (ts : list (LabelTensor A)) : result (LabelTensor A) :=
  match ts with
  | [] => Err (LowLevel ValueError "expected a non-empty list of tensors")
  | t :: ts' => vcat_from t ts'
  end.

(** The per-point residuals of [sample]: lines 67 to 73. *)
Definition point_residuals {E F G} `{FloatOps F} (self : R3Refinement F)
    (current_points : LabelTensor F) (condition_name : string)
    (solver : Solver E F G) : result (list F) :=
  condition ← py_lookup (conditions (problem solver)) condition_name;
  target ← compute_residual solver current_points (equation condition);
  out ← forward (loss_fn self) target (float_zeros_like target);
  mean_over_fields out.

(** [mask = (residuals > residuals.mean()).flatten()] *)
Definition retain_mask {F} `{FloatOps F} (residuals : list F) : list bool :=
  map (fun r => f_gt r (f_mean residuals)) residuals.

(** [R3Refinement.sample] *)
Definition sample {E F G} `{FloatOps F} (self : R3Refinement F)
    (current_points : LabelTensor F) (condition_name : string)
    (solver : Solver E F G) (g : G)
  : result (LabelTensor F) * G :=
  let prepared :=
    residuals ← point_residuals self current_points condition_name solver;
    let lbls := labels current_points in
    condition ← py_lookup (conditions (problem solver)) condition_name;
    let domain_name := domain condition in
    dom ← py_lookup (domains (problem solver)) domain_name;
    num_old_points ← py_lookup (initial_population_size self) condition_name;
    Ok (lbls, dom, num_old_points, retain_mask residuals) in
  match prepared with
  | Err e => (Err e, g)
  | Ok (lbls, dom, num_old_points, mask) =>
      if existsb id mask then
        match (pts ← getitem_mask current_points mask; set_labels pts lbls) with
        | Err e => (Err e, g)
        | Ok pts =>
            let retain_pts := shape0 (tensor pts) in
            match domain_sample dom
                    (Z.of_nat num_old_points - Z.of_nat retain_pts)%Z "random" g with
            | (Err e, g') => (Err e, g')
            | (Ok samples, g') => (LabelTensor_cat [pts; samples], g')
            end
        end
      else domain_sample dom (Z.of_nat num_old_points) "random" g
  end.

(** ** A worked refinement, in single precision *)

(** [torch.nn.L1Loss]: derives from [_Loss]; its instances reduce as their
    [reduction] attribute says. *)
Definition L1_forward (red : string) (a b : Tensor float32)
  : result (loss_output float32) :=
  let diffs := zip_with (zip_with (fun x y => SFabs (f32_sub x y)))
                 (rows a) (rows b) in
  if String.eqb red "none" then Ok (Elementwise (mkTensor (width a) diffs []))
  else if String.eqb red "mean" then Ok (Reduced (f32_mean (concat diffs)))
  else if String.eqb red "sum" then Ok (Reduced (f32_sum (concat diffs)))
  else Err (LowLevel ValueError "not a valid value for reduction").

Definition L1Loss : PyClass float32 :=
  mkPyClass ["L1Loss"; "_Loss"; "Module"; "object"]
    (fun red => Ok (mkLossFn red (L1_forward red))).

(** A user-defined loss class that derives from [_Loss] and whose instances
    return the mean of the absolute errors whatever [reduction] says. *)
Definition AlwaysMeanLoss : PyClass float32 :=
  mkPyClass ["AlwaysMeanLoss"; "_Loss"; "Module"; "object"]
    (fun red => Ok (mkLossFn red (L1_forward "mean"))).

(** A class outside the loss hierarchy. *)
Definition NotALoss : PyClass float32 :=
  mkPyClass ["NotALoss"; "object"]
    (fun red => Ok (mkLossFn red (L1_forward red))).

(** A domain whose draws are the points (g, 0), (g + 1, 0), ... *)
Definition ex_domain : Domain float32 nat :=
  mkDomain (fun n _ g =>
    (Ok (mkLabelTensor
           (mkTensor 2 (map (fun i => [f32_of_Z (Z.of_nat (g + i)); f32_of_Z 0])
                          (seq 0 (Z.to_nat n))) [])
           ["x"; "y"]),
     (g + Z.to_nat n)%nat)).

(** A solver whose residual at the point (x, y) is x - 2. *)
Definition ex_solver : Solver unit float32 nat :=
  mkSolver
    (mkProblem {[ "D" := mkCondition tt "omega" ]} {[ "omega" := ex_domain ]})
    (fun pts _ =>
       Ok (mkTensor 1
             (map (fun p => [f32_sub (hd (f32_of_Z 0) p) (f32_of_Z 2)])
                (rows (tensor pts))) [])).

(** The points (0, 1), (7, 1), (2, 1), (9, 3) and (3, 0). *)
Definition ex_points : LabelTensor float32 :=
  mkLabelTensor
    (mkTensor 2
       (map (map f32_of_Z) [[0; 1]; [7; 1]; [2; 1]; [9; 3]; [3; 0]]%Z) [])
    ["x"; "y"].

Definition ex_callback : R3Refinement float32 :=
  mkR3Refinement 5 None (mkLossFn "none" (L1_forward "none")) {[ "D" := 5%nat ]}.

(** Three points whose residuals are 1 + 2^-23, 1 + 2^-23 and 1: the first
    coordinate of the first two is 1 - 2^-23, the number before 1 but one.
    The sum of the residuals is 3 + 2^-22; a third of it lies between
    1 and 1 + 2^-23, nearer to the latter. *)
Definition ex_close_points : LabelTensor float32 :=
  mkLabelTensor
    (mkTensor 2
       [[S754_finite false 16777214 (-24); f32_of_Z 0];
        [S754_finite false 16777214 (-24); f32_of_Z 0];
        [f32_of_Z 1; f32_of_Z 0]] [])
    ["x"; "y"].

(** The callback with the recorded size 3. *)
Definition ex_close_callback : R3Refinement float32 :=
  mkR3Refinement 5 None (mkLossFn "none" (L1_forward "none")) {[ "D" := 3%nat ]}.

(** ** Vocabulary of the statements *)

(** The result is not an exception raised by the module itself. *)
Definition low_level {A} (r : result A) : Prop :=
  match r with
  | Err (Validation _ _) => False
  | _ => True
  end.

(** The run raised [e] and the reverse-mode primitive was never called. *)
Definition raises_before_differentiation {A} (run : Traced A) (e : exn) : Prop :=
  outcome run = Err e /\ calls run = 0.

(** The labels that an argument asks for: a falsy argument asks for none. *)
Definition requested (a : label_arg) : list string :=
  match a with
  | ArgNone => []
  | ArgStr s => if decide (s = "") then [] else [s]
  | ArgList l => l
  end.

(** The four checked operators on the same arguments. *)
Definition checked_operators (output_ input_ : tensor_arg)
    (velocity_field components d : label_arg) (method : string)
  : list (Traced (LabelTensor expr)) :=
  [ grad output_ input_ components d;
    div output_ input_ components d;
    laplacian output_ input_ components d method;
    advection output_ input_ velocity_field components d ].

(** The graph of the output reaches the input: the engine can differentiate
    the output with respect to the input. *)
Definition differentiable (out : LabelTensor expr) : Prop :=
  uses_input (tensor out) = true.

(** The graph of the gradient of the output reaches the input: the engine
    can differentiate the output twice.  Where the gradient does not depend
    on the input, as for an output that is linear in it, the engine cannot. *)
Definition twice_differentiable (out inp : LabelTensor expr) : Prop :=
  uses_input (gradient (tensor out) (tensor inp) (ones_like (tensor out))) = true.

(** The tensor with [n] rows whose row [i] is [f i], and the hidden nodes
    [h]. *)
Definition tab {A} (h : list A) (n w : nat) (f : nat -> list A) : Tensor A :=
  mkTensor w (map f (seq 0 n)) h.

(** The labelled tensor with one column per item: the column of [it] has
    the label [key it] and the entry [val i it] in row [i]. *)
Definition ktensor {I} (h : list expr) (n : nat) (items : list I)
    (key : I -> string) (val : nat -> I -> expr) : LabelTensor expr :=
  mkLabelTensor (tab h n (length items) (fun i => map (val i) items))
    (map key items).

(** The entries of the tensor of the items, row after row. *)
Definition kents {I} (n : nat) (items : list I) (val : nat -> I -> expr)
  : list expr :=
  concat (map (fun i => map (val i) items) (seq 0 n)).

(** The hidden nodes of the columns that [fast_grad] differentiates: those
    of the output itself when it has one column, and otherwise those of a
    column cut from it. *)
Definition src_hidden {I} (h : list expr) (n : nat) (items : list I)
    (val : nat -> I -> expr) : list expr :=
  if Nat.eqb (length items) 1 then h else h ++ kents n items val.

(** The hidden nodes of the columns cut from the gradient of [t]. *)
Definition gnodes (t inp : Tensor expr) : list expr :=
  hidden (gradient t inp (ones_like t))
  ++ concat (rows (gradient t inp (ones_like t))).

(** The hidden nodes of the tensor that [fast_grad] returns for the columns
    of the items [sub]. *)
Definition grad_hidden {I} (hs : list expr) (n : nat) (val : nat -> I -> expr)
    (inp : LabelTensor expr) (sub : list I) : list expr :=
  flat_map (fun s => gnodes (tab hs n 1 (fun j => [val j s])) (tensor inp)) sub.

(** The position of the label [x] in [t]. *)
Definition column_of {A} (t : LabelTensor A) (x : string) : nat :=
  default 0 (list_index (labels t) x).

(** The entry of [t] in row [i] and in the column of the label [x]. *)
Definition entry (t : LabelTensor expr) (i : nat) (x : string) : expr :=
  (rows (tensor t) !!! i) !!! column_of t x.

(** The derivative of the column of [s] of a tensor with [n'] rows with
    respect to the variable [y], in row [i] of the result. *)
Definition dcol {I} (h : list expr) (n' : nat) (val : nat -> I -> expr)
    (inp : LabelTensor expr) (i : nat) (s : I) (y : string) : expr :=
  vjp i (column_of inp y) (tab h n' 1 (fun j => [val j s]))
    (ones_like (tab h n' 1 (fun j => [val j s]))).

(** The second derivative of the column of [s] with respect to [x], twice,
    in row [i] of the result: the derivative with respect to [x] of the
    column that holds the derivative of [s] with respect to [x].  [h] and
    [h'] are the hidden nodes of the two columns. *)
Definition hess {I} (h h' : list expr) (n' : nat) (val : nat -> I -> expr)
    (inp : LabelTensor expr) (i : nat) (s : I) (x : string) : expr :=
  dcol h' (shape0 (tensor inp))
    (fun j (p : I * string) => dcol h n' val inp j p.1 p.2) inp i (s, x) x.

(** The hidden nodes of the columns of the gradient of the column [s0] that
    [_scalar_laplacian] differentiates. *)
Definition lap_hidden {I} (h : list expr) (n' : nat) (val : nat -> I -> expr)
    (inp : LabelTensor expr) (s0 : I) (ds : list string) : list expr :=
  src_hidden (grad_hidden h n' val inp [s0]) (shape0 (tensor inp))
    (list_prod [s0] ds) (fun i p => dcol h n' val inp i p.1 p.2).

(** The hidden nodes of the tensor that a run returns. *)
Definition hidden_of (r : result (Tensor expr)) : list expr :=
  match r with
  | Ok t => hidden t
  | Err _ => []
  end.

(** The labels that [fast_grad] gives to the gradient of the components
    [comps] with respect to [ds]. *)
Definition first_order_labels (comps ds : list string) : list string :=
  flat_map (fun c => map (fun v => dlabel c v) ds) comps.

(** The labels of the gradient of the gradient of the component [c]. *)
Definition second_order_labels (c : string) (ds : list string) : list string :=
  first_order_labels (map (fun v => dlabel c v) ds) ds.

(** The entry that [summation] computes from the entries [v q] of the
    one-column tensors of the items [qs]: the single entry as it is, or the
    entries accumulated, in order, onto zero. *)
Definition div_sum {Q} (v : Q -> expr) (qs : list Q) : expr :=
  match qs with
  | [q] => v q
  | _ => foldl (fun acc q => Add acc (v q)) (Cst 0) qs
  end.

(** The points of [rs] whose residual is strictly greater than the mean of
    the residuals, as the engine computes it, in their order. *)
Definition above_mean {A F} `{FloatOps F} (rs : list A) (residuals : list F)
  : list A :=
  map fst (List.filter (fun pr => f_gt pr.2 (f_mean residuals))
             (zip rs residuals)).

(** What the loss object returns on this target is reduced, not
    elementwise. *)
Definition reduces_on {F} `{FloatOps F} (f : LossFn F) (target : Tensor F) : Prop :=
  exists q, forward f target (float_zeros_like target) = Ok (Reduced q).

(** The sum of the integers [f x] for [x] in [l]. *)
Definition Zsum {A} (f : A -> Z) (l : list A) : Z :=
  foldr (fun x acc => (f x + acc)%Z) 0%Z l.

(** The value of the derivative, with respect to the input entry in row
    [i] and in the column of [x], of the column [c] of [out], summed over
    the rows of [out] as the upstream gradient of ones does. *)
Definition jac (env : nat -> nat -> Z) (out inp : LabelTensor expr)
    (i : nat) (c x : string) : Z :=
  Zsum (fun j => eval env (diff i (column_of inp x) (entry out j c)))
    (seq 0 (shape0 (tensor out))).

(** The value of the second derivative of the column [c] of [out] with
    respect to the variable [x], twice: the derivative, with respect to the
    input entry [(i, x)], of the column that holds the derivatives with
    respect to the input entries [(j, x)]. *)
Definition hessian (env : nat -> nat -> Z) (out inp : LabelTensor expr)
    (i : nat) (c x : string) : Z :=
  Zsum (fun j =>
          Zsum (fun j' => eval env (diff i (column_of inp x)
                                      (diff j (column_of inp x) (entry out j' c))))
            (seq 0 (shape0 (tensor out))))
    (seq 0 (shape0 (tensor inp))).

(** The list that the validation works with: the requested labels, or all
    the labels when none is requested. *)
Definition or_all (req all : list string) : list string :=
  match req with
  | [] => all
  | _ :: _ => req
  end.

(* ===================================================================== *)
(** * Part II: properties                                                  *)
(* ===================================================================== *)

(** ** The two monads *)

Lemma outcome_bind {A B} (m : Traced A) (f : A -> Traced B) :
  outcome (m ≫= f) = outcome m ≫= (fun a => outcome (f a)).
Proof. unfold mbind, traced_bind, result_bind. by destruct (outcome m). Qed.

Lemma outcome_pure_step {A} (r : result A) : outcome (pure_step r) = r.
Proof. reflexivity. Qed.

Lemma outcome_mret {A} (a : A) : outcome (mret a : Traced A) = Ok a.
Proof. reflexivity. Qed.

Lemma bind_pure_err {A B} (r : result A) (f : A -> Traced B) e :
  r = Err e -> pure_step r ≫= f = mkTraced 0 (Err e).
Proof. intros ->. reflexivity. Qed.

Lemma bind_pure_ok {A B} (r : result A) (f : A -> Traced B) a :
  r = Ok a -> pure_step r ≫= f = f a.
Proof.
  intros ->. unfold mbind, traced_bind. simpl. by destruct (f a).
Qed.

Lemma result_mapM_ok {A B} (f : A -> result B) (g : A -> B) (l : list A) :
  (forall x, x ∈ l -> f x = Ok (g x)) -> result_mapM f l = Ok (map g l).
Proof.
  induction l as [|x l IH]; intros H; [done|]. simpl.
  rewrite H by apply list_elem_of_here.
  rewrite IH; [done|]. intros y Hy. apply H. by apply list_elem_of_further.
Qed.

Lemma traced_mapM_ok {A B} (f : A -> Traced B) (g : A -> B) (l : list A) :
  (forall x, x ∈ l -> outcome (f x) = Ok (g x)) ->
  outcome (traced_mapM f l) = Ok (map g l).
Proof.
  induction l as [|x l IH]; intros H; [done|]. simpl.
  rewrite outcome_bind, H by apply list_elem_of_here. simpl.
  rewrite outcome_bind, IH; [done|].
  intros y Hy. apply H. by apply list_elem_of_further.
Qed.

(** ** Exceptions of the engine stay exceptions of the engine *)

Lemma low_level_result_bind {A B} (m : result A) (f : A -> result B) :
  low_level m -> (forall a, low_level (f a)) -> low_level (m ≫= f).
Proof. destruct m as [a|e]; simpl; auto. Qed.

Lemma low_level_traced_bind {A B} (m : Traced A) (f : A -> Traced B) :
  low_level (outcome m) -> (forall a, low_level (outcome (f a))) ->
  low_level (outcome (m ≫= f)).
Proof. rewrite outcome_bind. apply low_level_result_bind. Qed.

Lemma low_level_result_mapM {A B} (f : A -> result B) (l : list A) :
  (forall x, low_level (f x)) -> low_level (result_mapM f l).
Proof.
  intros H. induction l as [|x l IH]; simpl; [done|].
  specialize (H x). destruct (f x) as [y|e]; [|done].
  by destruct (result_mapM f l).
Qed.

Lemma low_level_traced_mapM {A B} (f : A -> Traced B) (l : list A) :
  (forall x, low_level (outcome (f x))) -> low_level (outcome (traced_mapM f l)).
Proof.
  intros H. induction l as [|x l IH]; simpl; [done|].
  apply low_level_traced_bind; [apply H|]. intros y.
  apply low_level_traced_bind; [apply IH|]. by intros ys.
Qed.

Lemma low_level_py_index l x : low_level (py_index l x).
Proof. unfold py_index. by destruct (list_index l x). Qed.

Lemma low_level_py_getitem l i : low_level (py_getitem l i).
Proof. unfold py_getitem. by destruct (l !! i). Qed.

Lemma low_level_index_select {A} (t : Tensor A) idx : low_level (index_select t idx).
Proof.
  unfold index_select. destruct (forallb _ idx); [|done].
  by destruct (mapM _ (rows t)).
Qed.

Lemma low_level_hcat_from {A} (ts : list (Tensor A)) acc : low_level (hcat_from acc ts).
Proof.
  revert acc. induction ts as [|t ts IH]; intros acc; simpl; [done|].
  apply low_level_result_bind; [|apply IH].
  unfold hcat2. by destruct (Nat.eqb _ _).
Qed.

Lemma low_level_torch_cat {A} (ts : list (Tensor A)) : low_level (torch_cat ts).
Proof. destruct ts; simpl; [done|apply low_level_hcat_from]. Qed.

Lemma low_level_LabelTensor_init {A} (x : Tensor A) lbls :
  low_level (LabelTensor_init x lbls).
Proof.
  unfold LabelTensor_init. destruct (bool_decide _); [|done].
  by destruct (Nat.eqb _ _).
Qed.

Lemma low_level_extract {A} (t : LabelTensor A) ls : low_level (extract t ls).
Proof.
  unfold extract. apply low_level_result_bind.
  - apply low_level_result_mapM, low_level_py_index.
  - intros idx. apply low_level_result_bind; [apply low_level_index_select|done].
Qed.

Lemma low_level_sum_from ts acc : low_level (sum_from acc ts).
Proof.
  revert acc. induction ts as [|t ts IH]; intros acc; simpl; [done|].
  apply low_level_result_bind; [|apply IH].
  unfold tensor_add. by destruct (same_shape _ _).
Qed.

Lemma low_level_summation ts : low_level (summation ts).
Proof.
  destruct ts as [|t [|t' ts]]; simpl; try done.
  apply (low_level_result_bind
           (tensor_add (zeros_like (tensor t)) (tensor t) ≫= _)).
  - apply low_level_result_bind.
    + unfold tensor_add. by destruct (same_shape _ _).
    + intros a. apply low_level_result_bind; [|intros; apply low_level_sum_from].
      unfold tensor_add. by destruct (same_shape _ _).
  - intros a. apply low_level_LabelTensor_init.
Qed.

Lemma low_level_torch_autograd_grad o i g :
  low_level (outcome (torch_autograd_grad o i g)).
Proof.
  unfold torch_autograd_grad. simpl.
  destruct (same_shape _ _); [|done]. simpl.
  destruct (requires_grad _); [|done]. simpl.
  by destruct (uses_input _).
Qed.

Lemma low_level_scalar_grad o i d : low_level (outcome (_scalar_grad o i d)).
Proof.
  unfold _scalar_grad.
  apply low_level_traced_bind; [apply low_level_torch_autograd_grad|]. intros g.
  apply low_level_traced_bind.
  - apply low_level_result_mapM, low_level_py_index.
  - intros idx. destruct g; [apply low_level_index_select|done].
Qed.

Lemma low_level_fast_grad o i c d : low_level (outcome (fast_grad o i c d)).
Proof.
  unfold fast_grad. destruct (Nat.eqb _ 1).
  - apply low_level_traced_bind; [apply low_level_scalar_grad|]. intros g.
    apply low_level_traced_bind.
    + apply low_level_result_mapM. intros x.
      apply low_level_result_bind; [apply low_level_py_getitem|done].
    + intros lbls. apply low_level_LabelTensor_init.
  - apply low_level_traced_bind.
    + apply low_level_traced_mapM. intros x.
      apply low_level_traced_bind; [apply low_level_extract|].
      intros oc. apply low_level_scalar_grad.
    + intros gs. apply low_level_traced_bind; [apply low_level_torch_cat|].
      intros g. apply low_level_LabelTensor_init.
Qed.

Lemma low_level_fast_div o i c d : low_level (outcome (fast_div o i c d)).
Proof.
  unfold fast_div.
  apply low_level_traced_bind; [apply low_level_fast_grad|]. intros g.
  apply low_level_traced_bind.
  - apply low_level_result_mapM. intros [x y]. apply low_level_extract.
  - intros ts. apply low_level_summation.
Qed.

Lemma low_level_scalar_laplacian o i d :
  low_level (outcome (_scalar_laplacian o i d)).
Proof.
  unfold _scalar_laplacian.
  apply low_level_traced_bind; [apply low_level_fast_grad|]. intros g1.
  apply low_level_traced_bind; [apply low_level_fast_grad|]. intros g2.
  apply low_level_traced_bind; [apply low_level_extract|]. by intros.
Qed.

Lemma low_level_broadcast_mul b v : low_level (broadcast_mul b v).
Proof.
  unfold broadcast_mul. destruct (Nat.eqb _ _); [done|].
  destruct v as [|v0 [|v1 v]]; destruct b as [|b0 [|b1 b]]; done.
Qed.

Lemma low_level_fast_advection o i v c d :
  low_level (outcome (fast_advection o i v c d)).
Proof.
  unfold fast_advection.
  apply low_level_traced_bind; [apply low_level_extract|]. intros vel.
  apply low_level_traced_bind; [apply low_level_fast_grad|]. intros g.
  apply low_level_traced_bind.
  { unfold reshape3. simpl. by destruct (Nat.eqb _ _). }
  intros tmp. apply low_level_traced_bind.
  - simpl. destruct (Nat.eqb _ _); [|done].
    apply low_level_result_mapM. intros [b w]. apply low_level_broadcast_mul.
  - intros p. apply low_level_LabelTensor_init.
Qed.

(** ** The shared validation *)

Lemma all_in_refl (l : list string) : all_in l l = true.
Proof.
  unfold all_in. apply forallb_forall. intros x Hx.
  apply bool_decide_eq_true. by apply list_elem_of_In.
Qed.

Lemma all_in_false (l lbls : list string) x :
  x ∈ l -> x ∉ lbls -> all_in l lbls = false.
Proof.
  intros Hx Hn. unfold all_in. apply not_true_is_false. intros H.
  rewrite forallb_forall in H. apply list_elem_of_In, H in Hx.
  by apply bool_decide_eq_true in Hx.
Qed.

Lemma all_in_spec (l lbls : list string) :
  all_in l lbls = true <-> forall x, x ∈ l -> x ∈ lbls.
Proof.
  unfold all_in. rewrite forallb_forall. split.
  - intros H x Hx. apply list_elem_of_In, H in Hx.
    by apply bool_decide_eq_true in Hx.
  - intros H x Hx. apply bool_decide_eq_true, H. by apply list_elem_of_In.
Qed.

(** A label that is asked for is among the labels that are checked. *)
Lemma requested_checked (a : label_arg) (dflt : list string) x :
  x ∈ requested a -> x ∈ as_list (py_or a dflt).
Proof.
  destruct a as [|s|l]; simpl.
  - by intros ?%elem_of_nil.
  - destruct (decide (s = "")); simpl; [by intros ?%elem_of_nil|done].
  - destruct l; [by intros ?%elem_of_nil|done].
Qed.

(** What the shared validation answers is what every checked operator
    answers when it is an exception, and no differentiation was made. *)
Lemma checked_operators_check_first output_ input_ vf c d m e :
  _check_values output_ input_ c d = Err e ->
  Forall (fun run => raises_before_differentiation run e)
    (checked_operators output_ input_ vf c d m).
Proof.
  intros H. unfold checked_operators, grad, div, laplacian, advection.
  rewrite !(bind_pure_err _ _ e H).
  repeat constructor.
Qed.

Lemma check_values_ok o i c d comps ds :
  _check_values (IsLabelTensor o) (IsLabelTensor i) c d = Ok (comps, ds) ->
  comps = as_list (py_or c (labels o)) /\ ds = as_list (py_or d (labels i))
  /\ all_in comps (labels o) = true /\ all_in ds (labels i) = true.
Proof.
  unfold _check_values.
  destruct (all_in (as_list (py_or d (labels i))) (labels i)) eqn:Hd; [|done].
  destruct (all_in (as_list (py_or c (labels o))) (labels o)) eqn:Hc; [|done].
  simpl. intros [= <- <-]. done.
Qed.

(** ** Claims on the validation of the checked operators *)

(** C8. Every checked operator ([grad], [div], [laplacian], [advection])
    raises a [TypeError] when [input_] or [output_] is not a labelled
    tensor, and a [RuntimeError] when a requested derivative variable is
    not a label of the input or a requested component is not a label of the
    output; in each case the exception is raised before the reverse-mode
    primitive has been called at all. *)
Theorem checked_operators_validate_first
    (output_ input_ : tensor_arg) (vf c d : label_arg) (m : string) :
  let ops := checked_operators output_ input_ vf c d m in
  (forall t, input_ = PlainTensor t ->
     exists msg, Forall (fun run =>
       raises_before_differentiation run (Validation TypeError msg)) ops)
  /\ (forall t, output_ = PlainTensor t ->
     exists msg, Forall (fun run =>
       raises_before_differentiation run (Validation TypeError msg)) ops)
  /\ (forall o i x, output_ = IsLabelTensor o -> input_ = IsLabelTensor i ->
     x ∈ requested d -> x ∉ labels i ->
     exists msg, Forall (fun run =>
       raises_before_differentiation run (Validation RuntimeError msg)) ops)
  /\ (forall o i x, output_ = IsLabelTensor o -> input_ = IsLabelTensor i ->
     x ∈ requested c -> x ∉ labels o ->
     exists msg, Forall (fun run =>
       raises_before_differentiation run (Validation RuntimeError msg)) ops).
Proof.
  intros ops. repeat split.
  - intros t ->. eexists. by apply checked_operators_check_first.
  - intros t ->. destruct input_ as [i|ti]; eexists;
      by apply checked_operators_check_first.
  - intros o i x -> -> Hx Hn. eexists. apply checked_operators_check_first.
    unfold _check_values.
    by rewrite (all_in_false _ _ x (requested_checked d (labels i) x Hx) Hn).
  - intros o i x -> -> Hx Hn.
    destruct (all_in (as_list (py_or d (labels i))) (labels i)) eqn:Hd;
      eexists; apply checked_operators_check_first; unfold _check_values;
      rewrite Hd; simpl; [|done].
    by rewrite (all_in_false _ _ x (requested_checked c (labels o) x Hx) Hn).
Qed.

(** The four cases of C8 on the worked input: a plain tensor as input, a
    plain tensor as output, the derivative variable [z] and the component
    [w], which the tensors do not have. *)
Lemma checked_operators_validate_first_witness :
  (exists msg, Forall (fun run =>
     raises_before_differentiation run (Validation TypeError msg))
     (checked_operators (IsLabelTensor ex_output) (PlainTensor (tensor ex_input))
        (ArgStr "u") ArgNone ArgNone "std"))
  /\ (exists msg, Forall (fun run =>
     raises_before_differentiation run (Validation TypeError msg))
     (checked_operators (PlainTensor (tensor ex_output)) (IsLabelTensor ex_input)
        (ArgStr "u") ArgNone ArgNone "std"))
  /\ (exists msg, Forall (fun run =>
     raises_before_differentiation run (Validation RuntimeError msg))
     (checked_operators (IsLabelTensor ex_output) (IsLabelTensor ex_input)
        (ArgStr "u") ArgNone (ArgList ["x"; "z"]) "std"))
  /\ (exists msg, Forall (fun run =>
     raises_before_differentiation run (Validation RuntimeError msg))
     (checked_operators (IsLabelTensor ex_output) (IsLabelTensor ex_input)
        (ArgStr "u") (ArgStr "w") ArgNone "std")).
Proof.
  split; [|split; [|split]].
  - exact (proj1 (checked_operators_validate_first
             (IsLabelTensor ex_output) (PlainTensor (tensor ex_input))
             (ArgStr "u") ArgNone ArgNone "std") (tensor ex_input) eq_refl).
  - exact (proj1 (proj2 (checked_operators_validate_first
             (PlainTensor (tensor ex_output)) (IsLabelTensor ex_input)
             (ArgStr "u") ArgNone ArgNone "std")) (tensor ex_output) eq_refl).
  - refine (proj1 (proj2 (proj2 (checked_operators_validate_first
             (IsLabelTensor ex_output) (IsLabelTensor ex_input)
             (ArgStr "u") ArgNone (ArgList ["x"; "z"]) "std")))
             ex_output ex_input "z" eq_refl eq_refl _ _).
    + simpl. apply list_elem_of_further, list_elem_of_here.
    + simpl. intros H.
      repeat (apply elem_of_cons in H as [H|H]; [done|]). by apply elem_of_nil in H.
  - refine (proj2 (proj2 (proj2 (checked_operators_validate_first
             (IsLabelTensor ex_output) (IsLabelTensor ex_input)
             (ArgStr "u") (ArgStr "w") ArgNone "std")))
             ex_output ex_input "w" eq_refl eq_refl _ _).
    + simpl. apply list_elem_of_here.
    + simpl. intros H.
      repeat (apply elem_of_cons in H as [H|H]; [done|]). by apply elem_of_nil in H.
Defined.

(** ** Claims on the exceptions of the operators *)

(** C9. With valid labels, [div] raises its length-mismatch error exactly
    when the numbers of components and of derivative variables differ, and
    [advection] raises its own exactly when the numbers of velocity
    components and of derivative variables differ; the error is raised
    before any differentiation, and with equal lengths neither operator
    ends with it. *)
Theorem length_mismatch_errors
    (o i : LabelTensor expr) (c d : label_arg) (comps ds : list string) :
  _check_values (IsLabelTensor o) (IsLabelTensor i) c d = Ok (comps, ds) ->
  (length comps ≠ length ds ->
     raises_before_differentiation
       (div (IsLabelTensor o) (IsLabelTensor i) c d) div_length_mismatch)
  /\ (length comps = length ds ->
     outcome (div (IsLabelTensor o) (IsLabelTensor i) c d)
     ≠ Err div_length_mismatch)
  /\ (forall vf v, velocity_list vf = Ok v -> all_in v (labels o) = true ->
       (length v ≠ length ds ->
          raises_before_differentiation
            (advection (IsLabelTensor o) (IsLabelTensor i) vf c d)
            velocity_mismatch)
       /\ (length v = length ds ->
          outcome (advection (IsLabelTensor o) (IsLabelTensor i) vf c d)
          ≠ Err velocity_mismatch)).
Proof.
  intros Hcheck. split; [|split].
  - intros Hne. unfold div. rewrite (bind_pure_ok _ _ _ Hcheck). simpl.
    apply Nat.eqb_neq in Hne. rewrite Hne. by split.
  - intros Heq. unfold div. rewrite (bind_pure_ok _ _ _ Hcheck). simpl.
    rewrite Heq, Nat.eqb_refl. simpl.
    pose proof (low_level_fast_div o i comps ds) as Hl.
    intros Hbad. by rewrite Hbad in Hl.
  - intros vf v Hv Hin. unfold advection.
    rewrite (bind_pure_ok _ _ _ Hcheck), (bind_pure_ok _ _ _ Hv), Hin. simpl.
    split.
    + intros Hne. apply Nat.eqb_neq in Hne. rewrite Hne. by split.
    + intros Heq. rewrite Heq, Nat.eqb_refl. simpl.
      pose proof (low_level_fast_advection o i v comps ds) as Hl.
      intros Hbad. by rewrite Hbad in Hl.
Qed.

(** C9 on the worked input: one component against two variables, and two
    against two; one velocity component against two variables, and two
    against two. *)
Lemma length_mismatch_errors_witness :
  (raises_before_differentiation
     (div (IsLabelTensor ex_output) (IsLabelTensor ex_input) (ArgStr "u") ArgNone)
     div_length_mismatch
   /\ raises_before_differentiation
     (advection (IsLabelTensor ex_output) (IsLabelTensor ex_input)
        (ArgStr "u") (ArgStr "u") ArgNone)
     velocity_mismatch)
  /\ (outcome (div (IsLabelTensor ex_output) (IsLabelTensor ex_input) ArgNone ArgNone)
      ≠ Err div_length_mismatch
   /\ outcome (advection (IsLabelTensor ex_output) (IsLabelTensor ex_input)
                 (ArgList ["u"; "v"]) ArgNone ArgNone)
      ≠ Err velocity_mismatch).
Proof.
  pose proof (length_mismatch_errors ex_output ex_input (ArgStr "u") ArgNone
                ["u"] ["x"; "y"] eq_refl) as [Hdiv [_ Hadv]].
  pose proof (length_mismatch_errors ex_output ex_input ArgNone ArgNone
                ["u"; "v"] ["x"; "y"] eq_refl) as [_ [Hdiv' Hadv']].
  split; split.
  - apply Hdiv. simpl. lia.
  - apply (Hadv (ArgStr "u") ["u"] eq_refl eq_refl). simpl. lia.
  - by apply Hdiv'.
  - by apply (Hadv' (ArgList ["u"; "v"]) ["u"; "v"] eq_refl eq_refl).
Defined.

(** The fast Laplacian raises its own exception exactly on an output with
    more or fewer than one column together with an unknown method. *)
Lemma fast_laplacian_validation o i c d m e :
  outcome (fast_laplacian o i c d m) = Err e -> ~ low_level (Err e : result unit) ->
  Nat.eqb (width (tensor o)) 1 = false /\ String.eqb m "std" = false
  /\ String.eqb m "divgrad" = false /\ e = invalid_method.
Proof.
  unfold fast_laplacian. destruct (Nat.eqb (width (tensor o)) 1) eqn:Hw.
  - intros He Hn. exfalso. apply Hn.
    assert (low_level (outcome (x ← _scalar_laplacian o i d;
                        pure_step (LabelTensor_init x (map ddlabel c)))))
      as Hl.
    { apply low_level_traced_bind; [apply low_level_scalar_laplacian|].
      intros x. apply low_level_LabelTensor_init. }
    rewrite He in Hl. exact Hl.
  - simpl. destruct (String.eqb m "std") eqn:Hstd.
    + intros He Hn. exfalso. apply Hn.
      match type of He with outcome ?run = _ =>
        assert (low_level (outcome run)) as Hl end.
      { apply low_level_traced_bind.
        - apply low_level_traced_bind.
          + apply low_level_traced_mapM. intros x.
            apply low_level_traced_bind; [apply low_level_extract|].
            intros oc. apply low_level_scalar_laplacian.
          + intros ls. apply low_level_torch_cat.
        - intros r. apply low_level_LabelTensor_init. }
      rewrite He in Hl. exact Hl.
    + destruct (String.eqb m "divgrad") eqn:Hdg.
      * intros He Hn. exfalso. apply Hn.
        match type of He with outcome ?run = _ =>
          assert (low_level (outcome run)) as Hl end.
        { apply low_level_traced_bind.
          - apply low_level_traced_bind; [apply low_level_fast_grad|].
            intros g. apply low_level_traced_bind.
            + apply low_level_traced_mapM. intros x.
              apply low_level_traced_bind; [apply low_level_fast_div|].
              by intros r.
            + intros ls. apply low_level_torch_cat.
          - intros r. apply low_level_LabelTensor_init. }
        rewrite He in Hl. exact Hl.
      * intros [= <-] _. done.
Qed.

Lemma fast_laplacian_unknown_method o i c d m :
  Nat.eqb (width (tensor o)) 1 = false -> String.eqb m "std" = false ->
  String.eqb m "divgrad" = false ->
  fast_laplacian o i c d m = mkTraced 0 (Err invalid_method).
Proof. intros Hw Hs Hd. unfold fast_laplacian. by rewrite Hw, Hs, Hd. Qed.

(** C7, as the code has it. [fast_grad], [fast_div] and [fast_advection]
    never end with an exception raised by the operator module, whatever
    their arguments: a misuse gives a wrong tensor or an exception of the
    engine.  [fast_laplacian] ends with an exception of the module, its
    invalid-method [ValueError], exactly when the output does not have
    exactly one column and the method is neither ["std"] nor ["divgrad"];
    it is then raised before any differentiation. *)
Theorem fast_operators_validation
    (o i : LabelTensor expr) (v c d : list string) (m : string) :
  low_level (outcome (fast_grad o i c d))
  /\ low_level (outcome (fast_div o i c d))
  /\ low_level (outcome (fast_advection o i v c d))
  /\ (~ low_level (outcome (fast_laplacian o i c d m)) <->
      width (tensor o) ≠ 1 /\ m ≠ "std" /\ m ≠ "divgrad")
  /\ (~ low_level (outcome (fast_laplacian o i c d m)) ->
      raises_before_differentiation (fast_laplacian o i c d m) invalid_method).
Proof.
  split; [apply low_level_fast_grad|].
  split; [apply low_level_fast_div|].
  split; [apply low_level_fast_advection|].
  assert (~ low_level (outcome (fast_laplacian o i c d m)) ->
          Nat.eqb (width (tensor o)) 1 = false /\ String.eqb m "std" = false
          /\ String.eqb m "divgrad" = false) as Hdir.
  { intros Hn. destruct (outcome (fast_laplacian o i c d m)) as [t|e] eqn:He.
    - by destruct Hn.
    - destruct (fast_laplacian_validation o i c d m e He) as (?&?&?&?); [|done].
      intros Hl. apply Hn. by destruct e. }
  split; [split|].
  - intros Hn. destruct (Hdir Hn) as (Hw & Hs & Hd).
    apply Nat.eqb_neq in Hw. apply String.eqb_neq in Hs, Hd. done.
  - intros (Hw & Hs & Hd).
    apply Nat.eqb_neq in Hw. apply String.eqb_neq in Hs, Hd.
    rewrite (fast_laplacian_unknown_method o i c d m Hw Hs Hd). simpl. auto.
  - intros Hn. destruct (Hdir Hn) as (Hw & Hs & Hd).
    rewrite (fast_laplacian_unknown_method o i c d m Hw Hs Hd). by split.
Qed.

(** C7 on the worked input: the method ["explode"] on the two-column
    output. *)
Lemma fast_operators_validation_witness :
  raises_before_differentiation
    (fast_laplacian ex_output ex_input ["u"; "v"] ["x"; "y"] "explode")
    invalid_method.
Proof.
  apply (proj2 (proj2 (proj2 (proj2
           (fast_operators_validation ex_output ex_input [] ["u"; "v"]
              ["x"; "y"] "explode"))))).
  simpl. auto.
Defined.

(** C7 as stated fails: [fast_laplacian] on the two-column worked output
    with the method ["explode"] ends with the [ValueError] that the operator
    module raises itself. *)
Lemma fast_laplacian_raises_validation :
  outcome (fast_laplacian ex_output ex_input ["u"; "v"] ["x"; "y"] "explode")
  = Err (Validation ValueError
           "Invalid method. Available methods are ``std`` and ``divgrad``.")
  /\ ~ low_level
       (outcome (fast_laplacian ex_output ex_input ["u"; "v"] ["x"; "y"] "explode")).
Proof. split; [reflexivity|]. simpl. auto. Qed.

(** ** The empty request *)

Lemma outcome_bind_Ok {A B} (m : Traced A) (f : A -> Traced B) b :
  outcome (m ≫= f) = Ok b ->
  exists a, outcome m = Ok a /\ outcome (f a) = Ok b.
Proof.
  rewrite outcome_bind. destruct (outcome m) as [a|e]; [|done].
  intros H. by exists a.
Qed.

Lemma LabelTensor_init_inv {A} (x : Tensor A) lbls t :
  LabelTensor_init x lbls = Ok t ->
  labels t = lbls /\ tensor t = x /\ length lbls = width x.
Proof.
  unfold LabelTensor_init. destruct (bool_decide (NoDup lbls)); [|done].
  destruct (Nat.eqb (length lbls) (width x)) eqn:Hl; [|done].
  intros [= <-]. by apply Nat.eqb_eq in Hl.
Qed.

Lemma length_first_order_labels (comps ds : list string) :
  length (first_order_labels comps ds) = length comps * length ds.
Proof.
  unfold first_order_labels. induction comps as [|c comps IH]; [done|].
  cbn [flat_map length]. rewrite length_app, length_map, IH. lia.
Qed.

(** What [fast_grad] returns for all the components of a well-formed output
    has the labels [d<c>d<x>] of all these components. *)
Lemma fast_grad_all_labels (o i : LabelTensor expr) (d : list string) t :
  well_formed o -> outcome (fast_grad o i (labels o) d) = Ok t ->
  labels t = first_order_labels (labels o) d
  /\ width (tensor t) = length (labels o) * length d.
Proof.
  intros (_ & Hlen & _) Ht.
  assert (labels t = first_order_labels (labels o) d
          /\ length (labels t) = width (tensor t)) as [Hl Hw];
    [|split; [done|by rewrite <- Hw, Hl, length_first_order_labels]].
  unfold fast_grad in Ht. destruct (Nat.eqb (width (tensor o)) 1) eqn:Hone.
  - apply Nat.eqb_eq in Hone. rewrite Hone in Hlen.
    destruct (labels o) as [|l0 [|? ?]]; try done.
    apply outcome_bind_Ok in Ht as (g & _ & Ht).
    apply outcome_bind_Ok in Ht as (lbls & Hlbls & Ht).
    rewrite outcome_pure_step in Hlbls. rewrite outcome_pure_step in Ht.
    rewrite (result_mapM_ok _ (dlabel l0)) in Hlbls by (intros; reflexivity).
    injection Hlbls as <-.
    apply LabelTensor_init_inv in Ht as (-> & -> & Hw).
    unfold first_order_labels. cbn [flat_map]. by rewrite app_nil_r.
  - apply outcome_bind_Ok in Ht as (gs & _ & Ht).
    apply outcome_bind_Ok in Ht as (grads & _ & Ht).
    rewrite outcome_pure_step in Ht.
    by apply LabelTensor_init_inv in Ht as (-> & -> & Hw).
Qed.

(** What [fast_laplacian] returns has the labels [dd<c>] of the
    components. *)
Lemma fast_laplacian_labels (o i : LabelTensor expr) (c d : list string) m t :
  outcome (fast_laplacian o i c d m) = Ok t ->
  labels t = map ddlabel c /\ width (tensor t) = length c.
Proof.
  intros Ht.
  assert (labels t = map ddlabel c /\ length (labels t) = width (tensor t))
    as [Hl Hw]; [|split; [done|by rewrite <- Hw, Hl, length_map]].
  unfold fast_laplacian in Ht. destruct (Nat.eqb (width (tensor o)) 1).
  - apply outcome_bind_Ok in Ht as (x & _ & Ht).
    rewrite outcome_pure_step in Ht.
    by apply LabelTensor_init_inv in Ht as (-> & -> & Hw).
  - apply outcome_bind_Ok in Ht as (x & _ & Ht).
    rewrite outcome_pure_step in Ht.
    by apply LabelTensor_init_inv in Ht as (-> & -> & Hw).
Qed.

(** C10, as the code has it. For every checked operator, an empty list
    passed as [components] or as [d] behaves as the omitted argument: the
    shared validation replaces it by all the labels of the output, or of
    the input, and never refuses it.  [grad] and [laplacian], which
    validate nothing else, then never end with an exception of the module,
    and what they return has the columns of all the labels, [d<c>d<x>] and
    [dd<c>]: no zero-column result on tensors that have labels.  [div] and
    [advection] go on to compare the lengths of the substituted lists, as
    they do for an omitted argument: [div] raises its [ValueError], before
    any differentiation, exactly when the output and the input do not have
    the same number of labels, and [advection] its [RuntimeError] exactly
    when the velocity field does not have as many components as the input
    has labels. *)
Theorem empty_list_is_omitted
    (output_ input_ : tensor_arg) (vf c d : label_arg) (m : string) :
  (_check_values output_ input_ (ArgList []) d
     = _check_values output_ input_ ArgNone d
   /\ _check_values output_ input_ c (ArgList [])
     = _check_values output_ input_ c ArgNone)
  /\ (checked_operators output_ input_ vf (ArgList []) d m
     = checked_operators output_ input_ vf ArgNone d m
   /\ checked_operators output_ input_ vf c (ArgList []) m
     = checked_operators output_ input_ vf c ArgNone m)
  /\ (forall o i,
       _check_values (IsLabelTensor o) (IsLabelTensor i) (ArgList []) (ArgList [])
       = Ok (labels o, labels i))
  /\ (forall o i,
       low_level (outcome (grad (IsLabelTensor o) (IsLabelTensor i)
                             (ArgList []) (ArgList [])))
       /\ low_level (outcome (laplacian (IsLabelTensor o) (IsLabelTensor i)
                                (ArgList []) (ArgList []) m)))
  /\ (forall o i t,
       well_formed o ->
       outcome (grad (IsLabelTensor o) (IsLabelTensor i)
                  (ArgList []) (ArgList [])) = Ok t ->
       labels t = first_order_labels (labels o) (labels i)
       /\ width (tensor t) = length (labels o) * length (labels i))
  /\ (forall o i t,
       outcome (laplacian (IsLabelTensor o) (IsLabelTensor i)
                  (ArgList []) (ArgList []) m) = Ok t ->
       labels t = map ddlabel (labels o)
       /\ width (tensor t) = length (labels o))
  /\ (forall o i,
       (length (labels o) ≠ length (labels i) ->
        raises_before_differentiation
          (div (IsLabelTensor o) (IsLabelTensor i) (ArgList []) (ArgList []))
          div_length_mismatch)
       /\ (length (labels o) = length (labels i) ->
           low_level (outcome (div (IsLabelTensor o) (IsLabelTensor i)
                                 (ArgList []) (ArgList [])))))
  /\ (forall o i l,
       velocity_list vf = Ok l -> all_in l (labels o) = true ->
       (length l ≠ length (labels i) ->
        raises_before_differentiation
          (advection (IsLabelTensor o) (IsLabelTensor i) vf
             (ArgList []) (ArgList []))
          velocity_mismatch)
       /\ (length l = length (labels i) ->
           low_level (outcome (advection (IsLabelTensor o) (IsLabelTensor i) vf
                                 (ArgList []) (ArgList []))))).
Proof.
  assert (forall o i,
            _check_values (IsLabelTensor o) (IsLabelTensor i) (ArgList []) (ArgList [])
            = Ok (labels o, labels i)) as Hcheck.
  { intros o i. unfold _check_values. simpl. by rewrite !all_in_refl. }
  split; [by split|]. split; [by split|]. split; [done|].
  split; [|split; [|split; [|split]]].
  - intros o i. unfold grad, laplacian.
    rewrite !(bind_pure_ok _ _ _ (Hcheck o i)). split.
    + apply low_level_fast_grad.
    + destruct (outcome (fast_laplacian o i (labels o) (labels i) "std"))
        as [t|e] eqn:He; cbn [fst snd]; rewrite He; [done|].
      destruct e as [cl msg|cl msg]; [|done].
      destruct (fast_laplacian_validation o i _ _ "std" _ He) as (_ & Hstd & _);
        [simpl; auto|done].
  - intros o i t Hwf. unfold grad.
    rewrite (bind_pure_ok _ _ _ (Hcheck o i)). cbn [fst snd].
    by apply fast_grad_all_labels.
  - intros o i t. unfold laplacian.
    rewrite (bind_pure_ok _ _ _ (Hcheck o i)). cbn [fst snd].
    apply fast_laplacian_labels.
  - intros o i. unfold div.
    rewrite (bind_pure_ok _ _ _ (Hcheck o i)). cbn [fst snd]. split.
    + intros Hne. apply Nat.eqb_neq in Hne. rewrite Hne. by split.
    + intros Heq. apply Nat.eqb_eq in Heq. rewrite Heq. cbn [negb].
      apply low_level_fast_div.
  - intros o i l Hl Hin. unfold advection.
    rewrite (bind_pure_ok _ _ _ (Hcheck o i)). cbn [fst snd].
    rewrite (bind_pure_ok _ _ _ Hl), Hin. cbn [negb]. split.
    + intros Hne. apply Nat.eqb_neq in Hne. rewrite Hne. by split.
    + intros Heq. apply Nat.eqb_eq in Heq. rewrite Heq. cbn [negb].
      apply low_level_fast_advection.
Qed.

(** C10 on the worked tensors: with both arguments empty, [div] of the
    one-column output with respect to the two variables raises its length
    error, and [grad] of the two-column output has the four columns of all
    the labels. *)
Lemma empty_list_is_omitted_witness :
  raises_before_differentiation
    (div (IsLabelTensor ex_scalar) (IsLabelTensor ex_input)
       (ArgList []) (ArgList []))
    div_length_mismatch
  /\ forall t,
       outcome (grad (IsLabelTensor ex_output) (IsLabelTensor ex_input)
                  (ArgList []) (ArgList [])) = Ok t ->
       labels t = ["dudx"; "dudy"; "dvdx"; "dvdy"] /\ width (tensor t) = 2 * 2.
Proof.
  pose proof (empty_list_is_omitted (IsLabelTensor ex_output)
                (IsLabelTensor ex_input) ArgNone ArgNone ArgNone "std")
    as (_ & _ & _ & _ & Hgrad & _ & Hdiv & _).
  split.
  - apply (proj1 (Hdiv ex_scalar ex_input)). simpl. lia.
  - intros t Ht. apply (Hgrad ex_output ex_input t); [|exact Ht].
    split; [apply (bool_decide_unpack _); vm_compute; exact I|].
    split; [reflexivity|]. repeat constructor.
Defined.

(** C10 as stated fails: an empty request is refused by a validation of the
    module.  With both arguments empty, [div] of the one-column worked
    output with respect to the two variables of the input raises its
    [ValueError], and [advection] with the velocity [u] raises its
    [RuntimeError], as both do when the arguments are omitted. *)
Lemma empty_request_refused_by_length_check :
  div (IsLabelTensor ex_scalar) (IsLabelTensor ex_input) (ArgList []) (ArgList [])
  = mkTraced 0
      (Err (Validation ValueError
              "Divergence requires components and d to be of the same length."))
  /\ ~ low_level
       (outcome (div (IsLabelTensor ex_scalar) (IsLabelTensor ex_input)
                   (ArgList []) (ArgList [])))
  /\ advection (IsLabelTensor ex_output) (IsLabelTensor ex_input) (ArgStr "u")
       (ArgList []) (ArgList [])
     = mkTraced 0
         (Err (Validation RuntimeError
                 "Velocity dimensionality does not match input dimensionality."))
  /\ ~ low_level
       (outcome (advection (IsLabelTensor ex_output) (IsLabelTensor ex_input)
                   (ArgStr "u") (ArgList []) (ArgList []))).
Proof.
  split; [reflexivity|]. split; [simpl; auto|].
  split; [reflexivity|]. simpl. auto.
Qed.

(** ** The method of the checked Laplacian *)

(** The checked Laplacian does the same whatever method it is given. *)
Lemma laplacian_method_irrelevant output_ input_ c d m m' :
  laplacian output_ input_ c d m = laplacian output_ input_ c d m'.
Proof. reflexivity. Qed.

(** C1 fails on the code. The checked Laplacian of the worked two-column
    output with the method ["explode"] raises nothing: it returns the
    tensor of the columns [ddu] and [ddv], with the values of the ["std"]
    method. *)
Theorem laplacian_explode_returns :
  exists t,
    outcome (laplacian (IsLabelTensor ex_output) (IsLabelTensor ex_input)
               ArgNone ArgNone "explode") = Ok t
    /\ labels t = ["ddu"; "ddv"]
    /\ values ex_env t = [[4; 0]; [4; 0]]%Z.
Proof. eexists. split; [reflexivity|]. split; reflexivity. Qed.

(** ** The graph of the engine *)

(** Reverse mode computes the derivative: what a node passes on to an input
    entry has the value of the upstream gradient times the partial
    derivative of the node. *)
Lemma eval_backward env n j g e :
  eval env (backward n j g e) = (eval env g * eval env (diff n j e))%Z.
Proof.
  revert g. induction e as [z|z|n' j'|a IHa b IHb|a IHa b IHb]; intros g; simpl.
  - lia.
  - lia.
  - destruct (Nat.eqb n n' && Nat.eqb j j'); simpl; lia.
  - rewrite IHa, IHb. lia.
  - rewrite IHa, IHb. simpl. lia.
Qed.

(** The derivative of what reverse mode recorded: the product rule on the
    upstream gradient and the partial derivative. *)
Lemma eval_diff_backward env n' j' n j g e :
  eval env (diff n' j' (backward n j g e))
  = (eval env (diff n' j' g) * eval env (diff n j e)
     + eval env g * eval env (diff n' j' (diff n j e)))%Z.
Proof.
  revert g. induction e as [z|z|n0 j0|a IHa b IHb|a IHa b IHb]; intros g; simpl.
  - lia.
  - lia.
  - destruct (Nat.eqb n n0 && Nat.eqb j j0); simpl; lia.
  - rewrite IHa, IHb. lia.
  - rewrite IHa, IHb. simpl. lia.
Qed.

Lemma has_input_tracked e : has_input e = true -> tracked e = true.
Proof.
  induction e as [z|z|n j|a IHa b IHb|a IHa b IHb]; simpl; try done.
  - intros [H|H]%orb_true_iff; apply orb_true_iff; auto.
  - intros [H|H]%orb_true_iff; apply orb_true_iff; auto.
Qed.

(** Whether what a node passes on reaches the input depends on the upstream
    gradient only through whether that one reaches the input. *)
Lemma has_input_backward_seed n j g g' e :
  has_input g = has_input g' ->
  has_input (backward n j g e) = has_input (backward n j g' e).
Proof.
  revert g g'. induction e as [z|z|n' j'|a IHa b IHb|a IHa b IHb];
    intros g g' Hg; simpl; try done.
  - by destruct (Nat.eqb n n' && Nat.eqb j j').
  - by rewrite (IHa g g'), (IHb g g').
  - rewrite (IHa (Mul g b) (Mul g' b)), (IHb (Mul g a) (Mul g' a)); simpl;
      by rewrite ?Hg.
Qed.

(** What reverse mode passes on reaches the input only from a node that
    does. *)
Lemma has_input_backward n j g e :
  has_input (backward n j g e) = true -> has_input e = true.
Proof.
  revert g. induction e as [z|z|n' j'|a IHa b IHb|a IHa b IHb]; intros g; simpl;
    try done.
  - intros [H|H]%orb_true_iff; apply orb_true_iff; eauto.
  - intros [H|H]%orb_true_iff; apply orb_true_iff; eauto.
Qed.

Lemma existsb_mono {A} (P : A -> bool) (l l' : list A) :
  (forall x, In x l -> In x l') -> existsb P l = true -> existsb P l' = true.
Proof.
  intros Hsub H. apply existsb_exists in H as (x & Hx & HP).
  apply existsb_exists. exists x. auto.
Qed.

Lemma uses_input_requires_grad (t : Tensor expr) :
  uses_input t = true -> requires_grad t = true.
Proof.
  unfold uses_input, requires_grad. intros H.
  apply existsb_exists in H as (e & He & Hi).
  apply existsb_exists. exists e. split; [done|]. by apply has_input_tracked.
Qed.

Lemma uses_input_mono (t t' : Tensor expr) :
  (forall e, In e (nodes t) -> In e (nodes t')) ->
  uses_input t = true -> uses_input t' = true.
Proof. intros Hsub. unfold uses_input. by apply existsb_mono. Qed.

Lemma has_input_foldr_Add (l : list expr) :
  has_input (foldr Add (Cst 0) l) = existsb has_input l.
Proof. induction l as [|e l IH]; simpl; [done|]. by rewrite IH. Qed.

Lemma concat_rows_ones_like (t : Tensor expr) :
  concat (rows (ones_like t)) = map (fun _ => Cst 1) (concat (rows t)).
Proof.
  unfold ones_like. simpl. induction (rows t) as [|r rs IH]; simpl; [done|].
  by rewrite IH, map_app.
Qed.

Lemma zip_with_const_l {A B C} (f : A -> B -> C) (a : A) (l : list B) :
  zip_with f (map (fun _ => a) l) l = map (f a) l.
Proof. induction l as [|x l IH]; simpl; [done|]. by rewrite IH. Qed.

(** The vector-Jacobian product with the upstream gradient of ones: the
    entries of the tensor are reached with one, the hidden nodes with
    zero. *)
Lemma vjp_ones n j (t : Tensor expr) :
  vjp n j t (ones_like t)
  = foldr Add (Cst 0)
      (map (backward n j (Cst 1)) (concat (rows t))
       ++ map (backward n j (Cst 0)) (hidden t)).
Proof.
  unfold vjp. by rewrite concat_rows_ones_like, zip_with_const_l.
Qed.

Lemma has_input_vjp_ones n j (t : Tensor expr) :
  has_input (vjp n j t (ones_like t))
  = existsb (fun e => has_input (backward n j (Cst 0) e)) (nodes t).
Proof.
  rewrite vjp_ones, has_input_foldr_Add. unfold nodes.
  rewrite !existsb_app. f_equal.
  - induction (concat (rows t)) as [|e l IH]; simpl; [done|].
    by rewrite IH, (has_input_backward_seed n j (Cst 1) (Cst 0)).
  - induction (hidden t) as [|e l IH]; simpl; [done|]. by rewrite IH.
Qed.

Lemma no_input_ones_like (t : Tensor expr) :
  existsb has_input (nodes (ones_like t)) = false.
Proof.
  unfold nodes. rewrite concat_rows_ones_like. simpl. rewrite app_nil_r.
  by induction (concat (rows t)) as [|e l IH].
Qed.

(** The gradient reaches the input exactly when some node of the graph
    passes on to some input entry what reaches the input. *)
Lemma uses_input_gradient (t inp : Tensor expr) :
  uses_input (gradient t inp (ones_like t)) = true
  <-> exists n j e, n < shape0 inp /\ j < width inp /\ In e (nodes t)
                    /\ has_input (backward n j (Cst 0) e) = true.
Proof.
  unfold uses_input. unfold nodes at 1. unfold gradient at 1 2.
  cbn [rows hidden]. rewrite existsb_app, no_input_ones_like, orb_false_r.
  rewrite existsb_exists. split.
  - intros (x & Hx & Hi). apply in_concat in Hx as (r & Hr & Hx).
    apply in_map_iff in Hr as (n & <- & Hn). apply in_seq in Hn.
    apply in_map_iff in Hx as (j & <- & Hj). apply in_seq in Hj.
    rewrite has_input_vjp_ones in Hi.
    apply existsb_exists in Hi as (e & He & Hi).
    exists n, j, e. repeat split; try done; lia.
  - intros (n & j & e & Hn & Hj & He & Hi).
    exists (vjp n j t (ones_like t)). split.
    + apply in_concat. eexists. split.
      * apply in_map_iff. exists n. split; [reflexivity|]. apply in_seq. lia.
      * apply in_map_iff. exists j. split; [reflexivity|]. apply in_seq. lia.
    + rewrite has_input_vjp_ones. apply existsb_exists. by exists e.
Qed.

Lemma uses_input_gradient_mono (t t' inp : Tensor expr) :
  (forall e, In e (nodes t) -> In e (nodes t')) ->
  uses_input (gradient t inp (ones_like t)) = true ->
  uses_input (gradient t' inp (ones_like t')) = true.
Proof.
  intros Hsub H. apply uses_input_gradient in H as (n & j & e & ? & ? & He & ?).
  apply uses_input_gradient. exists n, j, e. auto.
Qed.

(** An output that the engine can differentiate twice can be differentiated
    once. *)
Lemma twice_differentiable_once (out inp : LabelTensor expr) :
  twice_differentiable out inp -> differentiable out.
Proof.
  unfold twice_differentiable, differentiable. intros H.
  apply uses_input_gradient in H as (n & j & e & _ & _ & He & Hi).
  apply existsb_exists. exists e. split; [done|].
  by apply has_input_backward in Hi.
Qed.

(** The nodes of the gradient are among those of a tensor cut from it. *)
Lemma nodes_gradient_gnodes (t inp : Tensor expr) e :
  In e (nodes (gradient t inp (ones_like t))) -> In e (gnodes t inp).
Proof.
  unfold nodes, gnodes. rewrite !in_app_iff. tauto.
Qed.

(** The engine refuses what it does not track.  The gradient of the output
    that does not require grad fails at the first call of the primitive.
    The gradient of the linear output is computed, and it does not require
    grad: its Laplacian fails at the second call of the primitive, by
    either method. *)
Remark engine_refuses_untracked :
  fast_grad ex_constant ex_input ["u"; "v"] ["x"; "y"]
  = mkTraced 1
      (Err (LowLevel RuntimeError
              "element 0 of tensors does not require grad and does not have a grad_fn"))
  /\ (exists t,
        fast_grad ex_linear ex_input ["u"] ["x"; "y"] = mkTraced 1 (Ok t)
        /\ values ex_env t = [[2; 3]; [2; 3]]%Z
        /\ requires_grad (tensor t) = false)
  /\ ~ twice_differentiable ex_linear ex_input
  /\ fast_laplacian ex_linear ex_input ["u"] ["x"; "y"] "std"
     = mkTraced 2
         (Err (LowLevel RuntimeError
                 "element 0 of tensors does not require grad and does not have a grad_fn"))
  /\ fast_laplacian ex_linear ex_input ["u"] ["x"; "y"] "divgrad"
     = mkTraced 2
         (Err (LowLevel RuntimeError
                 "element 0 of tensors does not require grad and does not have a grad_fn")).
Proof.
  split; [reflexivity|]. split; [eexists; repeat split; reflexivity|].
  split; [by vm_compute|]. split; reflexivity.
Qed.

(** ** Tabulated tensors *)

Lemma tab_ext {A} (h : list A) n w w' (f g : nat -> list A) :
  w = w' -> (forall i, f i = g i) -> tab h n w f = tab h n w' g.
Proof.
  intros -> H. unfold tab. f_equal. apply map_ext. intros i. apply H.
Qed.

Lemma shape0_tab {A} (h : list A) n w (f : nat -> list A) :
  shape0 (tab h n w f) = n.
Proof. unfold shape0, tab. simpl. by rewrite length_map, length_seq. Qed.

Lemma rectangular_tab {A} (h : list A) n w (f : nat -> list A) :
  (forall i, length (f i) = w) -> rectangular (tab h n w f).
Proof.
  intros H. unfold rectangular, tab. simpl.
  apply List.Forall_forall. intros r Hr.
  apply in_map_iff in Hr as (i & <- & _). apply H.
Qed.

Lemma zip_with_app_map {A B} (f g : B -> list A) (l : list B) :
  zip_with app (map f l) (map g l) = map (fun i => f i ++ g i) l.
Proof. induction l as [|x l IH]; simpl; [done|]. by rewrite IH. Qed.

Lemma hcat_from_tab {A H} (h0 : list A) (hh : H -> list A) n w
    (f : nat -> list A) m (g : H -> nat -> list A) (hs : list H) :
  hcat_from (tab h0 n w f) (map (fun h => tab (hh h) n m (g h)) hs)
  = Ok (tab (h0 ++ flat_map hh hs) n (w + length hs * m)
          (fun i => f i ++ flat_map (fun h => g h i) hs)).
Proof.
  revert h0 w f. induction hs as [|h hs IH]; intros h0 w f; simpl.
  - f_equal. rewrite app_nil_r. apply tab_ext; [lia|].
    intros i. by rewrite app_nil_r.
  - unfold hcat2. rewrite !shape0_tab, Nat.eqb_refl. simpl.
    unfold tab at 1 2. simpl. rewrite zip_with_app_map.
    change (mkTensor (w + m) (map (fun i => f i ++ g h i) (seq 0 n))
              (h0 ++ hh h))
      with (tab (h0 ++ hh h) n (w + m) (fun i => f i ++ g h i)).
    rewrite IH. f_equal. rewrite <- app_assoc. apply tab_ext; [lia|].
    intros i. by rewrite <- app_assoc.
Qed.

Lemma torch_cat_tab {A H} (hh : H -> list A) n m (g : H -> nat -> list A)
    (hs : list H) :
  hs ≠ [] ->
  torch_cat (map (fun h => tab (hh h) n m (g h)) hs)
  = Ok (tab (flat_map hh hs) n (length hs * m)
          (fun i => flat_map (fun h => g h i) hs)).
Proof.
  destruct hs as [|h hs]; [done|]. intros _. simpl.
  by rewrite hcat_from_tab.
Qed.

Lemma map_list_prod {A B C} (h : A -> B -> C) (l : list A) (l' : list B) :
  map (fun p => h p.1 p.2) (list_prod l l') = flat_map (fun a => map (h a) l') l.
Proof.
  induction l as [|a l IH]; simpl; [done|].
  by rewrite map_app, map_map, IH.
Qed.

Lemma flat_map_map {A B C} (f : B -> list C) (k : A -> B) (l : list A) :
  flat_map f (map k l) = flat_map (fun a => f (k a)) l.
Proof. induction l as [|a l IH]; simpl; [done|]. by rewrite IH. Qed.

Lemma traced_mapM_map {A B C} (f : B -> Traced C) (k : A -> B) (l : list A) :
  traced_mapM f (map k l) = traced_mapM (fun a => f (k a)) l.
Proof. induction l as [|a l IH]; simpl; [done|]. by rewrite IH. Qed.

Lemma result_mapM_map {A B C} (f : B -> result C) (k : A -> B) (l : list A) :
  result_mapM f (map k l) = result_mapM (fun a => f (k a)) l.
Proof. induction l as [|a l IH]; simpl; [done|]. by rewrite IH. Qed.

(** ** Positions of labels *)

Lemma list_index_lookup (l : list string) i x :
  NoDup l -> l !! i = Some x -> list_index l x = Some i.
Proof.
  revert i. induction l as [|y l IH]; intros i Hnd Hi; [done|].
  apply NoDup_cons in Hnd as [Hy Hnd]. simpl.
  destruct i as [|i]; simpl in Hi.
  - injection Hi as ->. by rewrite decide_True.
  - rewrite decide_False.
    + by rewrite (IH i Hnd Hi).
    + intros ->. apply Hy. by eapply list_elem_of_lookup_2.
Qed.

Lemma list_index_elem (l : list string) x :
  x ∈ l -> exists i, list_index l x = Some i /\ l !! i = Some x.
Proof.
  induction l as [|y l IH]; [by intros ?%elem_of_nil|].
  intros Hx. simpl. destruct (decide (y = x)) as [->|Hne].
  - by exists 0.
  - apply elem_of_cons in Hx as [->|Hx]; [done|].
    destruct (IH Hx) as (i & -> & Hi). by exists (S i).
Qed.

Lemma list_index_keyed {I} (key : I -> string) (items : list I) s :
  NoDup (map key items) -> s ∈ items ->
  exists p, list_index (map key items) (key s) = Some p /\ items !! p = Some s.
Proof.
  induction items as [|a l IH]; [by intros _ ?%elem_of_nil|].
  simpl. intros Hnd Hs. apply NoDup_cons in Hnd as [Ha Hnd].
  destruct (decide (key a = key s)) as [Heq|Hne].
  - exists 0. split; [done|]. simpl.
    apply elem_of_cons in Hs as [->|Hs]; [done|].
    exfalso. apply Ha. rewrite Heq.
    change (map key l) with (key <$> l). by apply list_elem_of_fmap_2.
  - apply elem_of_cons in Hs as [->|Hs]; [done|].
    destruct (IH Hnd Hs) as (p & -> & Hp). by exists (S p).
Qed.

Lemma column_of_elem {A} (t : LabelTensor A) x :
  x ∈ labels t ->
  py_index (labels t) x = Ok (column_of t x)
  /\ column_of t x < length (labels t).
Proof.
  intros Hx. destruct (list_index_elem _ _ Hx) as (i & Hi & Hl).
  unfold py_index, column_of. rewrite Hi. simpl. split; [done|].
  by eapply lookup_lt_Some.
Qed.

(** ** Extraction of columns *)

Lemma lookup_map {A B} (f : A -> B) (l : list A) i :
  map f l !! i = f <$> l !! i.
Proof. change (map f l) with (f <$> l). apply list_lookup_fmap. Qed.

Lemma index_select_keyed {I} h n (items : list I) (val : nat -> I -> expr)
    (idx : list nat) (sub : list I) :
  Forall2 (fun p s => items !! p = Some s) idx sub ->
  index_select (tab h n (length items) (fun i => map (val i) items)) idx
  = Ok (tab (h ++ kents n items val) n (length sub) (fun i => map (val i) sub)).
Proof.
  intros Hf. unfold index_select. simpl.
  assert (forallb (fun i => Nat.ltb i (length items)) idx = true) as ->.
  { apply forallb_forall. intros p Hp. apply Nat.ltb_lt.
    apply list_elem_of_In, list_elem_of_lookup in Hp as [j Hj].
    destruct (Forall2_lookup_l _ _ _ _ _ Hf Hj) as (s & _ & Hs).
    by eapply lookup_lt_Some. }
  assert (mapM (fun r : list expr => mapM (fun i => r !! i) idx)
            (map (fun i => map (val i) items) (seq 0 n))
          = Some (map (fun i => map (val i) sub) (seq 0 n))) as ->.
  { apply mapM_Some_2. induction (seq 0 n) as [|i l IH]; simpl; constructor; [|done].
    apply mapM_Some_2. clear -Hf.
    induction Hf as [|p s idx sub Hp Hf IH]; simpl; constructor; [|done].
    by rewrite lookup_map, Hp. }
  unfold tab. by rewrite (Forall2_length _ _ _ Hf).
Qed.

Lemma extract_keyed {I} h n (items sub : list I) (key : I -> string)
    (val : nat -> I -> expr) :
  NoDup (map key items) -> (forall s, s ∈ sub -> s ∈ items) ->
  extract (ktensor h n items key val) (map key sub)
  = Ok (ktensor (h ++ kents n items val) n sub key val).
Proof.
  intros Hnd Hsub. unfold extract. simpl.
  assert (exists idx, result_mapM (py_index (map key items)) (map key sub) = Ok idx
                      /\ Forall2 (fun p s => items !! p = Some s) idx sub)
    as (idx & -> & Hf).
  { induction sub as [|s sub IH]; simpl; [by exists []|].
    destruct (list_index_keyed key items s Hnd) as (p & Hp & Hl).
    { apply Hsub, list_elem_of_here. }
    destruct IH as (idx & -> & Hf).
    { intros s' Hs'. by apply Hsub, list_elem_of_further. }
    unfold py_index at 1. rewrite Hp. exists (p :: idx). split; [done|].
    by constructor. }
  simpl. by rewrite (index_select_keyed h n items val idx sub Hf).
Qed.

Lemma same_shape_ones_like (t : Tensor expr) : same_shape t (ones_like t) = true.
Proof.
  unfold same_shape, ones_like. simpl. rewrite Nat.eqb_refl. simpl.
  apply bool_decide_eq_true. rewrite map_map. apply map_ext.
  intros r. by rewrite length_map.
Qed.

Lemma bind_Ok {A B} (a : A) (f : A -> result B) : Ok a ≫= f = f a.
Proof. reflexivity. Qed.

(** The primitive returns the gradient of an output whose graph reaches the
    input. *)
Lemma outcome_autograd_ones (o i : Tensor expr) :
  uses_input o = true ->
  outcome (torch_autograd_grad o i (ones_like o))
  = Ok (Some (gradient o i (ones_like o))).
Proof.
  intros Hu. unfold torch_autograd_grad. cbn [outcome].
  by rewrite same_shape_ones_like, (uses_input_requires_grad o Hu), Hu.
Qed.

Lemma scalar_grad_tab (oc inp : LabelTensor expr) (ds : list string) :
  (forall x, x ∈ ds -> x ∈ labels inp) ->
  length (labels inp) <= width (tensor inp) ->
  uses_input (tensor oc) = true ->
  outcome (_scalar_grad oc inp ds)
  = Ok (tab (gnodes (tensor oc) (tensor inp)) (shape0 (tensor inp)) (length ds)
          (fun i => map (fun x => vjp i (column_of inp x) (tensor oc)
                                    (ones_like (tensor oc))) ds)).
Proof.
  intros Hds Hw Hu. unfold _scalar_grad.
  rewrite outcome_bind, outcome_autograd_ones, bind_Ok by done.
  rewrite outcome_bind, outcome_pure_step.
  rewrite (result_mapM_ok _ (column_of inp)); cycle 1.
  { intros x Hx. by apply column_of_elem, Hds. }
  rewrite bind_Ok, outcome_pure_step.
  pose proof (index_select_keyed (nodes (ones_like (tensor oc)))
                (shape0 (tensor inp)) (seq 0 (width (tensor inp)))
                (fun i j => vjp i j (tensor oc) (ones_like (tensor oc)))
                (map (column_of inp) ds) (map (column_of inp) ds)) as Hsel.
  rewrite length_seq in Hsel. unfold gradient. unfold tab at 1 in Hsel.
  rewrite Hsel.
  - f_equal. apply tab_ext; [by rewrite length_map|].
    intros i. by rewrite map_map.
  - clear Hsel. induction ds as [|x ds IH]; simpl; constructor.
    + apply lookup_seq_lt.
      destruct (column_of_elem inp x) as [_ Hlt]; [apply Hds, list_elem_of_here|].
      lia.
    + apply IH. intros y Hy. by apply Hds, list_elem_of_further.
Qed.

(** ** The gradient of a tensor given by its columns *)

Lemma list_prod_singleton {A B} (a : A) (l : list B) :
  list_prod [a] l = map (pair a) l.
Proof. simpl. by rewrite app_nil_r. Qed.

Lemma LabelTensor_init_ok {A} (x : Tensor A) lbls :
  NoDup lbls -> length lbls = width x ->
  LabelTensor_init x lbls = Ok (mkLabelTensor x lbls).
Proof.
  intros Hnd Hl. unfold LabelTensor_init.
  rewrite bool_decide_eq_true_2 by done. by rewrite Hl, Nat.eqb_refl.
Qed.

(** The nodes of a tensor are among those of a column cut from it. *)
Lemma nodes_column {I} h n (items : list I) (val : nat -> I -> expr) (s : I) e :
  In e (nodes (tab h n (length items) (fun i => map (val i) items))) ->
  In e (nodes (tab (h ++ kents n items val) n 1 (fun j => [val j s]))).
Proof.
  unfold nodes, tab, kents. cbn [rows hidden]. rewrite !in_app_iff. tauto.
Qed.

Lemma uses_input_column {I} h n (items : list I) (key : I -> string)
    (val : nat -> I -> expr) (s : I) :
  uses_input (tensor (ktensor h n items key val)) = true ->
  uses_input (tab (h ++ kents n items val) n 1 (fun j => [val j s])) = true.
Proof. apply uses_input_mono. intros e. apply nodes_column. Qed.

Lemma fast_grad_keyed {I} h n' (items sub : list I) (key : I -> string)
    (val : nat -> I -> expr) (inp : LabelTensor expr) (ds : list string) :
  NoDup (map key items) ->
  (forall s, s ∈ sub -> s ∈ items) -> sub ≠ [] ->
  (length items = 1 -> length sub = 1) ->
  (forall x, x ∈ ds -> x ∈ labels inp) ->
  length (labels inp) <= width (tensor inp) ->
  NoDup (map (fun p => dlabel (key p.1) p.2) (list_prod sub ds)) ->
  uses_input (tensor (ktensor h n' items key val)) = true ->
  outcome (fast_grad (ktensor h n' items key val) inp (map key sub) ds)
  = Ok (ktensor (grad_hidden (src_hidden h n' items val) n' val inp sub)
          (shape0 (tensor inp)) (list_prod sub ds)
          (fun p => dlabel (key p.1) p.2)
          (fun i p => dcol (src_hidden h n' items val) n' val inp i p.1 p.2)).
Proof.
  intros Hnd Hsub Hne Hsc Hds Hw Hnd2 Hu. unfold fast_grad, src_hidden.
  change (width (tensor (ktensor h n' items key val))) with (length items).
  destruct (Nat.eqb (length items) 1) eqn:Hlen.
  - apply Nat.eqb_eq in Hlen. specialize (Hsc Hlen).
    destruct items as [|s0 [|? ?]]; try done.
    destruct sub as [|s [|? ?]]; try done.
    assert (s = s0) as ->.
    { specialize (Hsub s (list_elem_of_here _ _)).
      by apply list_elem_of_singleton in Hsub. }
    rewrite list_prod_singleton in Hnd2 |- *. rewrite map_map in Hnd2.
    rewrite outcome_bind, scalar_grad_tab, bind_Ok by auto.
    rewrite outcome_bind, outcome_pure_step.
    rewrite (result_mapM_ok _ (dlabel (key s0))) by (intros; reflexivity).
    rewrite bind_Ok, outcome_pure_step.
    rewrite LabelTensor_init_ok; [| done | by rewrite length_map].
    unfold ktensor, grad_hidden. cbn [flat_map]. rewrite app_nil_r.
    rewrite map_map, length_map. f_equal. f_equal.
    apply tab_ext; [done|]. intros i. by rewrite map_map.
  - apply Nat.eqb_neq in Hlen.
    rewrite outcome_bind, traced_mapM_map.
    rewrite (traced_mapM_ok _
               (fun s => tab (gnodes (tab (h ++ kents n' items val) n' 1
                                        (fun j => [val j s])) (tensor inp))
                           (shape0 (tensor inp)) (length ds)
                           (fun i => map (dcol (h ++ kents n' items val)
                                            n' val inp i s) ds))); cycle 1.
    { intros s Hs. rewrite outcome_bind, outcome_pure_step.
      change [key s] with (map key [s]).
      rewrite (extract_keyed h n' items [s] key val Hnd), bind_Ok.
      - rewrite scalar_grad_tab; auto.
        by apply (uses_input_column h n' items key val s).
      - intros s' ->%list_elem_of_singleton. by apply Hsub. }
    rewrite bind_Ok, outcome_bind, outcome_pure_step.
    rewrite torch_cat_tab, bind_Ok, outcome_pure_step by done.
    assert (flat_map (fun c => map (fun i => dlabel c i) ds) (map key sub)
            = map (fun p => dlabel (key p.1) p.2) (list_prod sub ds)) as ->.
    { by rewrite flat_map_map, (map_list_prod (fun s y => dlabel (key s) y)). }
    rewrite LabelTensor_init_ok;
      [| done | by rewrite length_map, length_prod].
    unfold ktensor, grad_hidden. f_equal. f_equal.
    apply tab_ext; [by rewrite length_prod|].
    intros i.
    by rewrite (map_list_prod (fun s y => dcol (h ++ kents n' items val)
                                           n' val inp i s y)).
Qed.

(** ** Well-formed tensors are given by their columns *)

Lemma list_tabulate {A} `{Inhabited A} (l : list A) :
  l = map (fun i => l !!! i) (seq 0 (length l)).
Proof.
  apply list_eq. intros i. rewrite lookup_map.
  destruct (decide (i < length l)) as [Hlt|Hge].
  - rewrite lookup_seq_lt by done. simpl.
    by apply list_lookup_lookup_total_lt.
  - rewrite lookup_seq_ge by lia. simpl. apply lookup_ge_None. lia.
Qed.

Lemma row_keyed (ls : list string) (r : list expr) :
  NoDup ls -> length r = length ls ->
  r = map (fun x => r !!! default 0 (list_index ls x)) ls.
Proof.
  intros Hnd Hlen. apply list_eq. intros i. rewrite lookup_map.
  destruct (ls !! i) as [x|] eqn:Hx; simpl.
  - rewrite (list_index_lookup ls i x Hnd Hx). simpl.
    apply list_lookup_lookup_total_lt. rewrite Hlen. by eapply lookup_lt_Some.
  - apply lookup_ge_None. rewrite Hlen. by apply lookup_ge_None.
Qed.

Lemma well_formed_keyed (t : LabelTensor expr) :
  well_formed t ->
  t = ktensor (hidden (tensor t)) (shape0 (tensor t)) (labels t) id (entry t).
Proof.
  intros (Hnd & Hlen & Hrect). destruct t as [[w rs h] ls].
  unfold ktensor, tab, shape0, entry, column_of, rectangular in *. simpl in *.
  rewrite map_id. f_equal. subst w. f_equal.
  rewrite (list_tabulate rs) at 1. apply map_ext_in. intros i Hi.
  apply in_seq in Hi. apply row_keyed; [done|].
  rewrite List.Forall_forall in Hrect. apply Hrect.
  apply list_elem_of_In. apply list_elem_of_lookup. exists i.
  apply list_lookup_lookup_total_lt. lia.
Qed.

(** ** The columns of the gradient *)

Lemma py_or_nonempty (a : label_arg) (dflt : list string) :
  dflt ≠ [] -> as_list (py_or a dflt) ≠ [].
Proof.
  intros Hd. destruct a as [|s|[|x l]]; simpl; try done.
  by destruct (decide (s = "")).
Qed.

(** C5, as the code has it. For every call of [grad] on well-formed tensors
    with a vector output that the engine can differentiate with respect to
    the input, that passes the validation and whose derived labels are
    pairwise distinct, with [k] requested components and [m] requested
    derivative variables (after the defaults), the call returns a tensor
    with one row per input point and exactly [k * m] columns, labelled
    [d<comp>d<var>], the components in the outer loop and the derivative
    variables in the inner one. *)
Theorem grad_vector_columns
    (out inp : LabelTensor expr) (c d : label_arg) (comps ds : list string) :
  well_formed out -> well_formed inp -> 2 <= width (tensor out) ->
  differentiable out ->
  _check_values (IsLabelTensor out) (IsLabelTensor inp) c d = Ok (comps, ds) ->
  NoDup (flat_map (fun c => map (fun v => dlabel c v) ds) comps) ->
  exists t,
    outcome (grad (IsLabelTensor out) (IsLabelTensor inp) c d) = Ok t
    /\ labels t = flat_map (fun c => map (fun v => dlabel c v) ds) comps
    /\ length (labels t) = length comps * length ds
    /\ width (tensor t) = length comps * length ds
    /\ rectangular (tensor t)
    /\ shape0 (tensor t) = shape0 (tensor inp).
Proof.
  intros Hout Hinp Hvec Hdiff Hcheck Hnd.
  destruct (check_values_ok _ _ _ _ _ _ Hcheck) as (Hc & Hd & Hcin & Hdin).
  pose proof Hout as (Hndo & Hleno & _). pose proof Hinp as (_ & Hleni & _).
  assert (comps ≠ []) as Hne.
  { rewrite Hc. apply py_or_nonempty. intros Hnil.
    rewrite Hnil in Hleno. simpl in Hleno. lia. }
  unfold grad. rewrite (bind_pure_ok _ _ _ Hcheck). cbn [fst snd].
  assert (fast_grad out inp comps ds
          = fast_grad (ktensor (hidden (tensor out)) (shape0 (tensor out))
                         (labels out) id (entry out))
              inp (map id comps) ds) as ->.
  { by rewrite map_id, <- (well_formed_keyed out Hout). }
  rewrite (fast_grad_keyed _ _ (labels out) comps id (entry out) inp ds).
  - eexists. split; [reflexivity|]. cbn [labels ktensor tensor tab width].
    split; [apply (map_list_prod (fun s y => dlabel s y))|].
    split; [by rewrite length_map, length_prod|].
    split; [by rewrite length_prod|].
    split; [|by rewrite shape0_tab].
    apply rectangular_tab. intros i. by rewrite length_map.
  - by rewrite map_id.
  - by apply all_in_spec.
  - done.
  - intros H1. lia.
  - by apply all_in_spec.
  - lia.
  - by rewrite (map_list_prod (fun s y => dlabel s y)).
  - by rewrite <- (well_formed_keyed out Hout).
Qed.

(** C5 on the worked input: two components and two variables give the four
    columns [dudx], [dudy], [dvdx], [dvdy]. *)
Lemma grad_vector_columns_witness :
  exists t,
    outcome (grad (IsLabelTensor ex_output) (IsLabelTensor ex_input)
               ArgNone ArgNone) = Ok t
    /\ labels t = ["dudx"; "dudy"; "dvdx"; "dvdy"]
    /\ length (labels t) = 2 * 2
    /\ width (tensor t) = 2 * 2
    /\ rectangular (tensor t)
    /\ shape0 (tensor t) = 2.
Proof.
  apply (grad_vector_columns ex_output ex_input ArgNone ArgNone
           ["u"; "v"] ["x"; "y"]).
  - split; [apply (bool_decide_unpack _); vm_compute; exact I|].
    split; [reflexivity|]. repeat constructor.
  - split; [apply (bool_decide_unpack _); vm_compute; exact I|].
    split; [reflexivity|]. repeat constructor.
  - simpl. lia.
  - reflexivity.
  - reflexivity.
  - apply (bool_decide_unpack _). vm_compute. exact I.
Defined.

(** C5 as stated fails: a call of [grad] on the worked tensors that asks
    for the variable [x] twice passes the validation, and so does the call
    on the same tensors under the labels [u], [udx] and [xdy], [y]; in both
    two derived labels coincide, [dudx] and [dudxdy], and the call ends in
    the constructor of the labelled tensor, which refuses them, with no
    tensor of [k * m] columns. *)
Lemma grad_refuses_colliding_labels :
  _check_values (IsLabelTensor ex_output) (IsLabelTensor ex_input)
    ArgNone (ArgList ["x"; "x"]) = Ok (["u"; "v"], ["x"; "x"])
  /\ outcome (grad (IsLabelTensor ex_output) (IsLabelTensor ex_input)
                ArgNone (ArgList ["x"; "x"]))
     = Err (LowLevel ValueError "Labels must be unique")
  /\ _check_values (IsLabelTensor ex_colliding_output)
       (IsLabelTensor ex_colliding_input) ArgNone ArgNone
     = Ok (["u"; "udx"], ["xdy"; "y"])
  /\ outcome (grad (IsLabelTensor ex_colliding_output)
                (IsLabelTensor ex_colliding_input) ArgNone ArgNone)
     = Err (LowLevel ValueError "Labels must be unique").
Proof. repeat split; reflexivity. Qed.

(** ** The Laplacian of one column *)

Lemma dlabel_inj (c : string) : Inj (=) (=) (dlabel c).
Proof.
  intros x y H. unfold dlabel in H.
  by repeat apply (inj (String.app _)) in H.
Qed.

Lemma ddlabel_inj : Inj (=) (=) ddlabel.
Proof. intros x y H. unfold ddlabel in H. by apply (inj (String.app _)) in H. Qed.

Lemma NoDup_map_inj {A B} (f : A -> B) (l : list A) :
  Inj (=) (=) f -> NoDup l -> NoDup (map f l).
Proof. intros Hf H. change (map f l) with (f <$> l). by apply NoDup_fmap_2. Qed.

Lemma list_prod_map_l {A A' B} (f : A -> A') (l : list A) (l' : list B) :
  list_prod (map f l) l' = map (fun p => (f p.1, p.2)) (list_prod l l').
Proof.
  induction l as [|a l IH]; simpl; [done|].
  by rewrite map_app, map_map, IH.
Qed.

Lemma zip_map_pair {A B} (a : A) (l : list B) :
  zip (map (pair a) l) l = map (fun x => ((a, x), x)) l.
Proof. induction l as [|x l IH]; simpl; [done|]. by rewrite IH. Qed.

Lemma zip_map_l {A A' B} (f : A -> A') (l : list A) (k : list B) :
  zip (map f l) k = map (fun p => (f p.1, p.2)) (zip l k).
Proof.
  revert k. induction l as [|a l IH]; intros [|b k]; simpl; try done.
  by rewrite IH.
Qed.

Lemma second_order_labels_prod (c : string) (ds : list string) :
  second_order_labels c ds
  = map (fun p => dlabel (dlabel c p.1) p.2) (list_prod ds ds).
Proof.
  unfold second_order_labels, first_order_labels.
  by rewrite flat_map_map, (map_list_prod (fun x y => dlabel (dlabel c x) y)).
Qed.

Lemma second_labels_keyed {I} (key : I -> string) (s : I) (ds : list string) :
  map (fun q : I * string * string => dlabel (dlabel (key q.1.1) q.1.2) q.2)
    (list_prod (map (pair s) ds) ds)
  = second_order_labels (key s) ds.
Proof.
  by rewrite list_prod_map_l, map_map, second_order_labels_prod.
Qed.

Lemma zip_subset_prod {A B} (l : list A) (k : list B) p :
  p ∈ zip l k -> p ∈ list_prod l k.
Proof.
  destruct p as [a b]. intros H. apply list_elem_of_In, in_prod.
  - apply list_elem_of_In. by eapply elem_of_zip_l.
  - apply list_elem_of_In. by eapply elem_of_zip_r.
Qed.

Lemma uses_input_gradient_once (t inp : Tensor expr) :
  uses_input (gradient t inp (ones_like t)) = true -> uses_input t = true.
Proof.
  intros H. apply uses_input_gradient in H as (n & j & e & _ & _ & He & Hi).
  apply existsb_exists. exists e. split; [done|].
  by apply has_input_backward in Hi.
Qed.

(** The tensor that [fast_grad] returns reaches the input when the gradient
    of one of the columns does. *)
Lemma uses_input_grad_result {I J} hs n' (val : nat -> I -> expr)
    (inp : LabelTensor expr) (sub : list I) n (items : list J) key1 val1 s :
  s ∈ sub ->
  uses_input (gradient (tab hs n' 1 (fun j => [val j s])) (tensor inp)
                (ones_like (tab hs n' 1 (fun j => [val j s])))) = true ->
  uses_input (tensor (ktensor (grad_hidden hs n' val inp sub) n items key1 val1))
  = true.
Proof.
  intros Hs. apply uses_input_mono. intros e He.
  apply nodes_gradient_gnodes in He.
  unfold nodes, ktensor, tab, grad_hidden. cbn [tensor rows hidden].
  apply in_app_iff. right. apply in_flat_map. exists s. split; [|done].
  by apply list_elem_of_In.
Qed.

Lemma Ok_tab_hidden (r : result (Tensor expr)) h n w f :
  r = Ok (tab h n w f) -> r = Ok (tab (hidden_of r) n w f).
Proof. by intros ->. Qed.

Lemma scalar_laplacian_keyed {I} h n' (s0 : I) (key : I -> string)
    (val : nat -> I -> expr) (inp : LabelTensor expr) (ds : list string) :
  (forall x, x ∈ ds -> x ∈ labels inp) ->
  length (labels inp) <= width (tensor inp) ->
  NoDup ds -> ds ≠ [] ->
  NoDup (second_order_labels (key s0) ds) ->
  uses_input (gradient (tab h n' 1 (fun j => [val j s0])) (tensor inp)
                (ones_like (tab h n' 1 (fun j => [val j s0])))) = true ->
  outcome (_scalar_laplacian (ktensor h n' [s0] key val) inp ds)
  = Ok (tab (hidden_of (outcome (_scalar_laplacian (ktensor h n' [s0] key val)
                                   inp ds)))
          (shape0 (tensor inp)) 1
          (fun i => [foldr Add (Cst 0)
                       (map (hess h (lap_hidden h n' val inp s0 ds)
                               n' val inp i s0) ds)])).
Proof.
  intros Hds Hw Hnd Hne Hnd2 Hu2. eapply Ok_tab_hidden.
  pose proof (uses_input_gradient_once _ _ Hu2) as Hu1.
  unfold _scalar_laplacian.
  change (labels (ktensor h n' [s0] key val)) with (map key [s0]).
  set (items1 := list_prod [s0] ds).
  set (key1 := fun p : I * string => dlabel (key p.1) p.2).
  set (val1 := fun i (p : I * string) => dcol h n' val inp i p.1 p.2).
  set (key2 := fun q : I * string * string => dlabel (key1 q.1) q.2).
  set (h1 := grad_hidden h n' val inp [s0]).
  assert (items1 = map (pair s0) ds) as Hitems by apply list_prod_singleton.
  assert (NoDup (map key1 items1)) as Hnd1.
  { rewrite Hitems, map_map. simpl.
    by apply (NoDup_map_inj (dlabel (key s0))); [apply dlabel_inj|]. }
  assert (NoDup (map key2 (list_prod items1 ds))) as Hnd2'.
  { rewrite Hitems. unfold key2, key1.
    by rewrite (second_labels_keyed key s0 ds). }
  assert (items1 ≠ []) as Hne1.
  { rewrite Hitems. by destruct ds. }
  assert (uses_input (tensor (ktensor h1 (shape0 (tensor inp)) items1 key1 val1))
          = true) as Hu3.
  { apply (uses_input_grad_result h n' val inp [s0] _ _ _ _ s0);
      [apply list_elem_of_here|done]. }
  rewrite outcome_bind.
  rewrite (fast_grad_keyed h n' [s0] [s0] key val inp ds
             (NoDup_singleton _) (fun _ H => H) ltac:(done) (fun H => H)
             Hds Hw Hnd1 Hu1).
  change (src_hidden h n' [s0] val) with h. fold h1. fold items1. fold val1.
  fold key1.
  rewrite bind_Ok, outcome_bind.
  change (labels (ktensor h1 (shape0 (tensor inp)) items1 key1 val1))
    with (map key1 items1).
  rewrite (fast_grad_keyed _ _ items1 items1 key1 val1 inp ds
             Hnd1 (fun _ H => H) Hne1 (fun H => H) Hds Hw Hnd2' Hu3).
  rewrite bind_Ok, outcome_bind, outcome_pure_step.
  rewrite zip_map_l, map_map.
  rewrite (map_ext _ key2) by (by intros [a b]).
  rewrite (extract_keyed _ _ _ (zip items1 ds) key2 _ Hnd2');
    [|intros p; apply zip_subset_prod].
  rewrite bind_Ok, outcome_mret. f_equal.
  unfold torch_sum_keepdim, ktensor, tab. cbn [tensor rows hidden].
  rewrite map_map. f_equal. apply map_ext. intros i.
  assert (zip items1 ds = map (fun x => ((s0, x), x)) ds) as ->
    by (rewrite Hitems; apply zip_map_pair).
  by rewrite map_map.
Qed.

(** ** The divergence of the gradient of one column *)

Lemma zip_with_map_diag {A B C D} (op : A -> B -> C) (f : D -> A) (g : D -> B)
    (l : list D) :
  zip_with op (map f l) (map g l) = map (fun i => op (f i) (g i)) l.
Proof. induction l as [|x l IH]; simpl; [done|]. by rewrite IH. Qed.

Lemma tensor_add_tab ha hb n (a b : nat -> expr) :
  tensor_add (tab ha n 1 (fun i => [a i])) (tab hb n 1 (fun i => [b i]))
  = Ok (tab (ha ++ hb) n 1 (fun i => [Add (a i) (b i)])).
Proof.
  unfold tensor_add, same_shape, tab. cbn [width rows hidden].
  rewrite Nat.eqb_refl.
  rewrite bool_decide_eq_true_2 by (by rewrite !map_map).
  cbn [andb]. by rewrite zip_with_map_diag.
Qed.

Lemma sum_from_tab {Q} h0 h n (a : nat -> expr) (qs : list Q) key val :
  exists h',
    sum_from (tab h0 n 1 (fun i => [a i]))
      (map (fun q => ktensor h n [q] key val) qs)
    = Ok (tab h' n 1 (fun i => [foldl (fun acc q => Add acc (val i q)) (a i) qs])).
Proof.
  revert h0 a. induction qs as [|q qs IH]; intros h0 a; [by eexists|].
  cbn [map sum_from].
  change (tensor (ktensor h n [q] key val)) with (tab h n 1 (fun i => [val i q])).
  rewrite tensor_add_tab, bind_Ok.
  destruct (IH (h0 ++ h) (fun i => Add (a i) (val i q))) as [h' ->].
  by eexists.
Qed.

Lemma summation_columns {Q} h n (qs : list Q) key val :
  qs ≠ [] ->
  exists h',
    summation (map (fun q => ktensor h n [q] key val) qs)
      ≫= (fun r => Ok (tensor r))
    = Ok (tab h' n 1 (fun i => [div_sum (val i) qs])).
Proof.
  destruct qs as [|q [|q' qs]]; intros Hne; [done|by eexists|].
  unfold summation. cbn [map].
  change (zeros_like (tensor (ktensor h n [q] key val)))
    with (mkTensor 1 (map (map (fun _ => Cst 0)) (map (fun i => [val i q]) (seq 0 n)))
            []).
  rewrite map_map. cbn [map].
  change (mkTensor 1 (map (fun _ => [Cst 0]) (seq 0 n)) [])
    with (tab [] n 1 (fun _ => [Cst 0])).
  change (ktensor h n [q] key val :: ktensor h n [q'] key val
            :: map (fun q0 => ktensor h n [q0] key val) qs)
    with (map (fun q0 => ktensor h n [q0] key val) (q :: q' :: qs)).
  destruct (sum_from_tab [] h n (fun _ => Cst 0) (q :: q' :: qs) key val)
    as [h' ->].
  rewrite bind_Ok.
  rewrite LabelTensor_init_ok; [by eexists| apply NoDup_singleton | done].
Qed.

Lemma div_sum_map {Q Q'} (v : Q' -> expr) (f : Q -> Q') (l : list Q) :
  div_sum v (map f l) = div_sum (fun x => v (f x)) l.
Proof.
  assert (forall e, foldl (fun acc q => Add acc (v q)) e (map f l)
                    = foldl (fun acc x => Add acc (v (f x))) e l) as Hfold.
  { induction l as [|x l IH]; intros e; [done|]. cbn [map foldl]. apply IH. }
  unfold div_sum. destruct l as [|x [|y l]]; try done.
  apply (Hfold (Cst 0)).
Qed.

Lemma fast_div_keyed {I} h n (items : list (I * string)) (key : I -> string)
    (val : nat -> I * string -> expr) (inp : LabelTensor expr) (c : I)
    (ds : list string) :
  NoDup (map (fun p => dlabel (key p.1) p.2) items) ->
  (forall x, x ∈ ds -> (c, x) ∈ items) -> ds ≠ [] ->
  (length items = 1 -> length ds = 1) ->
  (forall x, x ∈ ds -> x ∈ labels inp) ->
  length (labels inp) <= width (tensor inp) ->
  NoDup (second_order_labels (key c) ds) ->
  uses_input (tensor (ktensor h n items (fun p => dlabel (key p.1) p.2) val))
  = true ->
  outcome (r ← fast_div (ktensor h n items (fun p => dlabel (key p.1) p.2) val)
                 inp (map (fun i => dlabel (key c) i) ds) ds;
           mret (tensor r))
  = Ok (tab (hidden_of
               (outcome
                  (r ← fast_div
                         (ktensor h n items (fun p => dlabel (key p.1) p.2) val)
                         inp (map (fun i => dlabel (key c) i) ds) ds;
                   mret (tensor r))))
          (shape0 (tensor inp)) 1
          (fun i => [div_sum
                       (fun x => dcol (src_hidden h n items val) n val inp i
                                   (c, x) x) ds])).
Proof.
  intros Hnd Hsub Hne Hsc Hds Hw Hnd2 Hu.
  set (keyG := fun p : I * string => dlabel (key p.1) p.2).
  set (sub := map (pair c) ds).
  set (key2 := fun q : I * string * string => dlabel (keyG q.1) q.2).
  set (val2 := fun i (q : I * string * string) =>
                 dcol (src_hidden h n items val) n val inp i q.1 q.2).
  set (hg := grad_hidden (src_hidden h n items val) n val inp sub).
  assert (map (fun x => ((c, x), x)) ds ≠ []) as Hne2 by (by destruct ds).
  destruct (summation_columns
              (hg ++ kents (shape0 (tensor inp)) (list_prod sub ds) val2)
              (shape0 (tensor inp))
              (map (fun x => ((c, x), x)) ds) key2 val2 Hne2) as [h' Hsum].
  apply (Ok_tab_hidden _ h').
  assert (map (fun i => dlabel (key c) i) ds = map keyG sub) as ->.
  { unfold sub. by rewrite map_map. }
  assert (forall s, s ∈ sub -> s ∈ items) as Hsub'.
  { intros s Hs. apply list_elem_of_In, in_map_iff in Hs as (x & <- & Hx).
    by apply Hsub, list_elem_of_In. }
  assert (sub ≠ []) as Hne' by (unfold sub; by destruct ds).
  assert (length items = 1 -> length sub = 1) as Hsc'.
  { intros H. unfold sub. rewrite length_map. auto. }
  assert (NoDup (map key2 (list_prod sub ds))) as Hnd2'.
  { unfold sub, key2, keyG. by rewrite (second_labels_keyed key c ds). }
  unfold fast_div. rewrite !outcome_bind.
  rewrite (fast_grad_keyed h n items sub keyG val inp ds Hnd Hsub' Hne' Hsc'
             Hds Hw Hnd2' Hu).
  fold hg.
  rewrite bind_Ok, outcome_bind, outcome_pure_step.
  assert (zip sub ds = map (fun x => ((c, x), x)) ds) as Hzip
    by apply zip_map_pair.
  rewrite zip_map_l, Hzip, !result_mapM_map.
  cbn [fst snd].
  rewrite (result_mapM_ok _
             (fun x => ktensor (hg ++ kents (shape0 (tensor inp))
                                        (list_prod sub ds) val2)
                         (shape0 (tensor inp)) [((c, x), x)] key2 val2));
    cycle 1.
  { intros x Hx.
    apply (extract_keyed hg _ (list_prod sub ds) [((c, x), x)] key2 val2 Hnd2').
    intros s ->%list_elem_of_singleton. apply zip_subset_prod.
    rewrite Hzip.
    apply list_elem_of_In, in_map_iff. exists x. split; [done|].
    by apply list_elem_of_In. }
  rewrite bind_Ok, outcome_pure_step.
  rewrite <- (map_map (fun x => ((c, x), x))
                (fun q => ktensor (hg ++ kents (shape0 (tensor inp))
                                           (list_prod sub ds) val2)
                            (shape0 (tensor inp)) [q] key2 val2)).
  destruct (summation _) as [r|e]; [|done].
  rewrite bind_Ok in Hsum |- *. rewrite outcome_mret, Hsum.
  f_equal. apply tab_ext; [done|]. intros i. f_equal.
  apply div_sum_map.
Qed.

(** ** The two methods of the Laplacian *)

Lemma eval_foldr_Add env (v : string -> expr) (l : list string) :
  eval env (foldr Add (Cst 0) (map v l))
  = foldr (fun x acc => (eval env (v x) + acc)%Z) 0%Z l.
Proof. induction l as [|x l IH]; [done|]. cbn [map foldr eval]. by rewrite IH. Qed.

Lemma eval_foldl_Add env (v : string -> expr) (l : list string) (e : expr) :
  eval env (foldl (fun acc x => Add acc (v x)) e l)
  = (eval env e + foldr (fun x acc => (eval env (v x) + acc)%Z) 0%Z l)%Z.
Proof.
  revert e. induction l as [|x l IH]; intros e; cbn [foldl foldr].
  - lia.
  - rewrite IH. cbn [eval]. lia.
Qed.

Lemma eval_div_sum env (v : string -> expr) (l : list string) :
  eval env (div_sum v l) = eval env (foldr Add (Cst 0) (map v l)).
Proof.
  rewrite eval_foldr_Add. unfold div_sum.
  destruct l as [|x [|y l]].
  - done.
  - cbn [foldr]. lia.
  - rewrite eval_foldl_Add. cbn [eval]. lia.
Qed.

Lemma fast_laplacian_scalar_method o i c d m m' :
  width (tensor o) = 1 -> fast_laplacian o i c d m = fast_laplacian o i c d m'.
Proof. intros H. unfold fast_laplacian. by rewrite H. Qed.

Lemma uses_input_gradient_column {I} h n (items : list I) (key : I -> string)
    (val : nat -> I -> expr) (inp : LabelTensor expr) (s : I) :
  uses_input (gradient (tensor (ktensor h n items key val)) (tensor inp)
                (ones_like (tensor (ktensor h n items key val)))) = true ->
  uses_input (gradient (tab (h ++ kents n items val) n 1 (fun j => [val j s]))
                (tensor inp)
                (ones_like (tab (h ++ kents n items val) n 1
                              (fun j => [val j s])))) = true.
Proof. apply uses_input_gradient_mono. intros e. apply nodes_column. Qed.

Lemma fast_laplacian_std_keyed {I} h n' (items sub : list I) (key : I -> string)
    (val : nat -> I -> expr) (inp : LabelTensor expr) (ds : list string) :
  NoDup (map key items) ->
  (forall s, s ∈ sub -> s ∈ items) -> sub ≠ [] -> NoDup (map key sub) ->
  (length items = 1 -> length sub = 1) ->
  (forall x, x ∈ ds -> x ∈ labels inp) ->
  length (labels inp) <= width (tensor inp) ->
  NoDup ds -> ds ≠ [] ->
  (forall s, s ∈ sub -> NoDup (second_order_labels (key s) ds)) ->
  uses_input (gradient (tensor (ktensor h n' items key val)) (tensor inp)
                (ones_like (tensor (ktensor h n' items key val)))) = true ->
  exists h',
    outcome (fast_laplacian (ktensor h n' items key val) inp (map key sub) ds "std")
    = Ok (mkLabelTensor
            (tab h' (shape0 (tensor inp)) (length sub * 1)
               (fun i => flat_map
                           (fun s => [foldr Add (Cst 0)
                                        (map (hess (src_hidden h n' items val)
                                                (lap_hidden
                                                   (src_hidden h n' items val)
                                                   n' val inp s ds)
                                                n' val inp i s) ds)]) sub))
            (map ddlabel (map key sub))).
Proof.
  intros Hnd Hsub Hne Hnds Hsc Hds Hw Hndd Hned Hnd2 Hu.
  unfold fast_laplacian, src_hidden.
  change (width (tensor (ktensor h n' items key val))) with (length items).
  assert (NoDup (map ddlabel (map key sub))) as Hndl
    by (by apply (NoDup_map_inj ddlabel); [apply ddlabel_inj|]).
  destruct (Nat.eqb (length items) 1) eqn:Hlen.
  - apply Nat.eqb_eq in Hlen. specialize (Hsc Hlen).
    destruct items as [|s0 [|? ?]]; try done.
    destruct sub as [|s [|? ?]]; try done.
    assert (s = s0) as ->.
    { specialize (Hsub s (list_elem_of_here _ _)).
      by apply list_elem_of_singleton in Hsub. }
    eexists.
    rewrite outcome_bind, scalar_laplacian_keyed, bind_Ok, outcome_pure_step;
      [|done..|apply Hnd2, list_elem_of_here|done].
    rewrite LabelTensor_init_ok by done. done.
  - cbn [String.eqb Ascii.eqb Bool.eqb]. cbv iota. eexists.
    rewrite outcome_bind, outcome_bind, traced_mapM_map.
    rewrite (traced_mapM_ok _
               (fun s => tab (hidden_of
                                (outcome
                                   (_scalar_laplacian
                                      (ktensor (h ++ kents n' items val) n' [s]
                                         key val) inp ds)))
                           (shape0 (tensor inp)) 1
                           (fun i => [foldr Add (Cst 0)
                                        (map (hess (h ++ kents n' items val)
                                                (lap_hidden
                                                   (h ++ kents n' items val)
                                                   n' val inp s ds)
                                                n' val inp i s) ds)])));
      cycle 1.
    { intros s Hs. rewrite outcome_bind, outcome_pure_step.
      change [key s] with (map key [s]).
      rewrite (extract_keyed h n' items [s] key val Hnd), bind_Ok.
      - apply scalar_laplacian_keyed; auto.
        by apply (uses_input_gradient_column h n' items key val inp s).
      - intros s' ->%list_elem_of_singleton. by apply Hsub. }
    rewrite bind_Ok, outcome_pure_step, torch_cat_tab, bind_Ok, outcome_pure_step
      by done.
    rewrite LabelTensor_init_ok; [done|done|].
    cbn [width tab]. rewrite !length_map. lia.
Qed.

Lemma fast_laplacian_divgrad_keyed {I} h n' (items sub : list I) (key : I -> string)
    (val : nat -> I -> expr) (inp : LabelTensor expr) (ds : list string) :
  NoDup (map key items) ->
  (forall s, s ∈ sub -> s ∈ items) -> sub ≠ [] -> NoDup (map key sub) ->
  length items ≠ 1 ->
  (forall x, x ∈ ds -> x ∈ labels inp) ->
  length (labels inp) <= width (tensor inp) ->
  NoDup ds -> ds ≠ [] ->
  NoDup (first_order_labels (map key sub) ds) ->
  (forall s, s ∈ sub -> NoDup (second_order_labels (key s) ds)) ->
  uses_input (gradient (tensor (ktensor h n' items key val)) (tensor inp)
                (ones_like (tensor (ktensor h n' items key val)))) = true ->
  exists h' h1,
    outcome (fast_laplacian (ktensor h n' items key val) inp (map key sub) ds
               "divgrad")
    = Ok (mkLabelTensor
            (tab h' (shape0 (tensor inp)) (length sub * 1)
               (fun i => flat_map
                           (fun s => [div_sum
                                        (hess (src_hidden h n' items val) h1
                                           n' val inp i s) ds]) sub))
            (map ddlabel (map key sub))).
Proof.
  intros Hnd Hsub Hne Hnds Hlen Hds Hw Hndd Hned Hnd1 Hnd2 Hu.
  pose proof (uses_input_gradient_once _ _ Hu) as Hu1.
  unfold fast_laplacian.
  change (width (tensor (ktensor h n' items key val))) with (length items).
  assert (NoDup (map ddlabel (map key sub))) as Hndl
    by (by apply (NoDup_map_inj ddlabel); [apply ddlabel_inj|]).
  apply Nat.eqb_neq in Hlen. rewrite Hlen.
  cbn [String.eqb Ascii.eqb Bool.eqb]. cbv iota.
  assert (NoDup (map (fun p : I * string => dlabel (key p.1) p.2)
                   (list_prod sub ds))) as Hnd1'.
  { rewrite (map_list_prod (fun s y => dlabel (key s) y)).
    unfold first_order_labels in Hnd1. by rewrite flat_map_map in Hnd1. }
  set (hs := src_hidden h n' items val).
  set (hg := grad_hidden hs n' val inp sub).
  set (val1 := fun i (p : I * string) => dcol hs n' val inp i p.1 p.2).
  assert (uses_input
            (tensor (ktensor hg (shape0 (tensor inp)) (list_prod sub ds)
                       (fun p => dlabel (key p.1) p.2) val1)) = true) as Hu2.
  { destruct sub as [|s1 sub']; [done|].
    apply (uses_input_grad_result hs n' val inp (s1 :: sub') _ _ _ _ s1);
      [apply list_elem_of_here|].
    unfold hs, src_hidden. rewrite Hlen.
    by apply (uses_input_gradient_column h n' items key val inp s1). }
  do 2 eexists.
  rewrite !outcome_bind.
  rewrite (fast_grad_keyed h n' items sub key val inp ds Hnd Hsub Hne
             ltac:(intros H; apply Nat.eqb_neq in Hlen; done) Hds Hw Hnd1' Hu1).
  fold hs. fold hg. fold val1.
  rewrite bind_Ok, outcome_bind, traced_mapM_map.
  rewrite (traced_mapM_ok _
             (fun s => tab (hidden_of
                              (outcome
                                 (r ← fast_div
                                        (ktensor hg (shape0 (tensor inp))
                                           (list_prod sub ds)
                                           (fun p => dlabel (key p.1) p.2) val1)
                                        inp (map (fun i => dlabel (key s) i) ds)
                                        ds;
                                  mret (tensor r))))
                         (shape0 (tensor inp)) 1
                         (fun i => [div_sum
                                      (hess hs
                                         (src_hidden hg (shape0 (tensor inp))
                                            (list_prod sub ds) val1)
                                         n' val inp i s) ds])));
    cycle 1.
  { intros s Hs.
    apply (fast_div_keyed hg (shape0 (tensor inp)) (list_prod sub ds) key
             val1 inp s ds); auto.
    - intros x Hx. apply list_elem_of_In, in_prod; by apply list_elem_of_In.
    - rewrite length_prod. intros H. by apply Nat.eq_mul_1 in H as [_ ?]. }
  rewrite bind_Ok, outcome_pure_step, torch_cat_tab, bind_Ok, outcome_pure_step
    by done.
  rewrite LabelTensor_init_ok; [done|done|].
  cbn [width tab]. rewrite !length_map. lia.
Qed.

(** ** Values of the reverse-mode primitive *)

Lemma concat_singletons {A B} (f : A -> B) (l : list A) :
  concat (map (fun x => [f x]) l) = map f l.
Proof. induction l as [|x l IH]; simpl; [done|]. by rewrite IH. Qed.

Lemma eval_foldr_Add_gen {A} env (v : A -> expr) (l : list A) :
  eval env (foldr Add (Cst 0) (map v l)) = Zsum (fun x => eval env (v x)) l.
Proof.
  unfold Zsum. induction l as [|x l IH]; [done|].
  cbn [map foldr eval]. by rewrite IH.
Qed.

Lemma Zsum_ext {A} (f g : A -> Z) (l : list A) :
  (forall x, f x = g x) -> Zsum f l = Zsum g l.
Proof.
  intros H. unfold Zsum. induction l as [|x l IH]; [done|].
  cbn [foldr]. by rewrite H, IH.
Qed.

Lemma Zsum_zero {A} (l : list A) : Zsum (fun _ => 0%Z) l = 0%Z.
Proof. unfold Zsum. induction l as [|x l IH]; [done|]. cbn [foldr]. lia. Qed.

(** The value of a sum of nodes of which the last ones are worth zero. *)
Lemma eval_foldr_Add_app {A B} env (v : A -> expr) (z : B -> expr)
    (l : list A) (k : list B) :
  (forall y, eval env (z y) = 0%Z) ->
  eval env (foldr Add (Cst 0) (map v l ++ map z k))
  = Zsum (fun x => eval env (v x)) l.
Proof.
  intros Hz. unfold Zsum. induction l as [|x l IH]; cbn [map app foldr eval].
  - induction k as [|y k IHk]; [done|]. cbn [map foldr eval].
    rewrite Hz, IHk. lia.
  - by rewrite IH.
Qed.

Lemma diff_foldr_Add i k (l : list expr) :
  diff i k (foldr Add (Cst 0) l) = foldr Add (Cst 0) (map (diff i k) l).
Proof. induction l as [|e l IH]; [done|]. cbn [foldr map diff]. by rewrite IH. Qed.

(** The value of an entry of the gradient of a column: the sum, over the
    rows of the column, of the partial derivatives of its entries.  The
    hidden nodes add nothing to it. *)
Lemma eval_dcol {I} env h n' (val : nat -> I -> expr) inp i s y :
  eval env (dcol h n' val inp i s y)
  = Zsum (fun j => eval env (diff i (column_of inp y) (val j s))) (seq 0 n').
Proof.
  unfold dcol. rewrite vjp_ones. unfold tab. cbn [rows hidden].
  rewrite concat_singletons, map_map.
  rewrite (eval_foldr_Add_app env
             (fun j => backward i (column_of inp y) (Cst 1) (val j s))
             (backward i (column_of inp y) (Cst 0))).
  - apply Zsum_ext. intros j. rewrite eval_backward. cbn [eval]. lia.
  - intros e. rewrite eval_backward. cbn [eval]. lia.
Qed.

(** The same for the derivative of such an entry. *)
Lemma eval_diff_dcol {I} env h n' (val : nat -> I -> expr) inp i k j s y :
  eval env (diff i k (dcol h n' val inp j s y))
  = Zsum (fun j' => eval env (diff i k (diff j (column_of inp y) (val j' s))))
      (seq 0 n').
Proof.
  unfold dcol. rewrite vjp_ones. unfold tab. cbn [rows hidden].
  rewrite concat_singletons, map_map, diff_foldr_Add, map_app, !map_map.
  rewrite (eval_foldr_Add_app env
             (fun j' => diff i k (backward j (column_of inp y) (Cst 1) (val j' s)))
             (fun e => diff i k (backward j (column_of inp y) (Cst 0) e))).
  - apply Zsum_ext. intros j'. rewrite eval_diff_backward. cbn [eval diff]. lia.
  - intros e. rewrite eval_diff_backward. cbn [eval diff]. lia.
Qed.

(** The value of a second derivative as the engine computes it, whatever
    the hidden nodes of the columns. *)
Lemma eval_hess_keyed {I} env h h' n' (val : nat -> I -> expr) inp i s x :
  eval env (hess h h' n' val inp i s x)
  = Zsum (fun j =>
            Zsum (fun j' => eval env (diff i (column_of inp x)
                                        (diff j (column_of inp x) (val j' s))))
              (seq 0 n'))
      (seq 0 (shape0 (tensor inp))).
Proof.
  unfold hess. rewrite eval_dcol. apply Zsum_ext. intros j.
  cbn [fst snd]. apply eval_diff_dcol.
Qed.

Lemma eval_hess env h h' (out inp : LabelTensor expr) i c x :
  eval env (hess h h' (shape0 (tensor out)) (entry out) inp i c x)
  = hessian env out inp i c x.
Proof. apply eval_hess_keyed. Qed.

Lemma values_ktensor {I} env h n (items : list I) key val :
  values env (ktensor h n items key val)
  = map (fun i => map (fun p => eval env (val i p)) items) (seq 0 n).
Proof.
  unfold values, ktensor, tab. cbn [tensor rows]. rewrite map_map.
  apply map_ext. intros i. by rewrite map_map.
Qed.

Lemma values_flat_map_ext env h h' n w (f g : nat -> string -> expr)
    (sub : list string) lbls lbls' :
  (forall i s, eval env (f i s) = eval env (g i s)) ->
  values env (mkLabelTensor (tab h n w (fun i => flat_map (fun s => [f i s]) sub)) lbls)
  = values env (mkLabelTensor (tab h' n w (fun i => flat_map (fun s => [g i s]) sub)) lbls').
Proof.
  intros H. unfold values, tab. cbn [tensor rows]. rewrite !map_map.
  apply map_ext. intros i.
  induction sub as [|s sub IH]; [done|]. cbn [flat_map app map].
  by rewrite H, IH.
Qed.

(** ** The two methods of the Laplacian agree *)

Lemma eval_sum_hess env h h' n' (val : nat -> string -> expr) inp i s
    (ds : list string) :
  eval env (foldr Add (Cst 0) (map (hess h h' n' val inp i s) ds))
  = Zsum (fun x =>
            Zsum (fun j =>
                    Zsum (fun j' => eval env (diff i (column_of inp x)
                                                (diff j (column_of inp x)
                                                   (val j' s))))
                      (seq 0 n'))
              (seq 0 (shape0 (tensor inp)))) ds.
Proof.
  rewrite eval_foldr_Add_gen. apply Zsum_ext. intros x. apply eval_hess_keyed.
Qed.

(** The two methods agree for any set of distinct derivative variables of
    the input, not only for all of them. *)
Lemma fast_laplacian_methods_agree
    (out inp : LabelTensor expr) (comps ds : list string) :
  well_formed out -> well_formed inp -> twice_differentiable out inp ->
  comps ≠ [] -> NoDup comps -> (forall c, c ∈ comps -> c ∈ labels out) ->
  ds ≠ [] -> NoDup ds -> (forall x, x ∈ ds -> x ∈ labels inp) ->
  NoDup (first_order_labels comps ds) ->
  (forall c, c ∈ comps -> NoDup (second_order_labels c ds)) ->
  exists t_std t_dg,
    outcome (fast_laplacian out inp comps ds "std") = Ok t_std
    /\ outcome (fast_laplacian out inp comps ds "divgrad") = Ok t_dg
    /\ labels t_std = map ddlabel comps
    /\ labels t_dg = map ddlabel comps
    /\ forall env, values env t_std = values env t_dg.
Proof.
  intros Hout Hinp Htw Hne Hndc Hsub Hned Hndd Hds Hnd1 Hnd2.
  pose proof Hout as (Hndo & Hleno & _). pose proof Hinp as (_ & Hleni & _).
  assert (forall m, fast_laplacian out inp comps ds m
                    = fast_laplacian
                        (ktensor (hidden (tensor out)) (shape0 (tensor out))
                           (labels out) id (entry out))
                        inp (map id comps) ds m) as Hfl.
  { intros m. by rewrite map_id, <- (well_formed_keyed out Hout). }
  assert (NoDup (map id (labels out))) as Hndo' by (by rewrite map_id).
  assert (NoDup (map id comps)) as Hndc' by (by rewrite map_id).
  assert (length (labels inp) <= width (tensor inp)) as Hw by lia.
  unfold twice_differentiable in Htw.
  rewrite (well_formed_keyed out Hout) in Htw.
  destruct (fast_laplacian_std_keyed (hidden (tensor out)) (shape0 (tensor out))
              (labels out) comps id (entry out) inp ds) as [h1 Hstd]; auto.
  { intros Hone. destruct (labels out) as [|u [|? ?]] eqn:Hl; try done.
    destruct comps as [|a [|b comps]]; try done.
    pose proof (Hsub a (list_elem_of_here _ _)) as Ha.
    pose proof (Hsub b (list_elem_of_further _ _ _ (list_elem_of_here _ _))) as Hb.
    apply list_elem_of_singleton in Ha, Hb. subst.
    apply NoDup_cons in Hndc as [Hn _]. exfalso. apply Hn, list_elem_of_here. }
  destruct (decide (length (labels out) = 1)) as [Hone|Hvec].
  - rewrite (fast_laplacian_scalar_method out inp comps ds "divgrad" "std")
      by lia.
    rewrite !Hfl, Hstd.
    do 2 eexists. rewrite map_id. repeat split; reflexivity.
  - destruct (fast_laplacian_divgrad_keyed (hidden (tensor out))
                (shape0 (tensor out)) (labels out) comps id (entry out) inp ds)
      as (h2 & h3 & Hdg); auto.
    { by rewrite map_id. }
    rewrite !Hfl, Hstd, Hdg.
    do 2 eexists. rewrite map_id.
    split; [reflexivity|]. split; [reflexivity|].
    split; [reflexivity|]. split; [reflexivity|].
    intros env. apply values_flat_map_ext. intros i s.
    rewrite eval_div_sum, !eval_sum_hess. done.
Qed.

(** C6, as the code has it. For every well-formed output and input, with
    [d] all the labels of the input, an output that the engine can
    differentiate twice with respect to the input, distinct requested
    components among the labels of the output, and pairwise distinct labels
    derived on the way, the Laplacian by the method ["std"] and the one by
    the method ["divgrad"] are both computed, carry the same labels
    [dd<component>] and have the same value in every entry, whatever the
    values of the input. *)
Theorem laplacian_std_equals_divgrad
    (out inp : LabelTensor expr) (comps : list string) :
  well_formed out -> well_formed inp -> twice_differentiable out inp ->
  labels inp ≠ [] ->
  comps ≠ [] -> NoDup comps -> (forall c, c ∈ comps -> c ∈ labels out) ->
  NoDup (first_order_labels comps (labels inp)) ->
  (forall c, c ∈ comps -> NoDup (second_order_labels c (labels inp))) ->
  exists t_std t_dg,
    outcome (fast_laplacian out inp comps (labels inp) "std") = Ok t_std
    /\ outcome (fast_laplacian out inp comps (labels inp) "divgrad") = Ok t_dg
    /\ labels t_std = map ddlabel comps
    /\ labels t_dg = map ddlabel comps
    /\ forall env, values env t_std = values env t_dg.
Proof.
  intros Hout Hinp Htw Hnei Hne Hndc Hsub Hnd1 Hnd2.
  apply fast_laplacian_methods_agree; auto.
  by destruct Hinp as (? & _).
Qed.

(** C6 on the worked input: the Laplacians of [u] and [v] with respect to
    [x] and [y]. *)
Lemma laplacian_std_equals_divgrad_witness :
  exists t_std t_dg,
    outcome (fast_laplacian ex_output ex_input ["u"; "v"] ["x"; "y"] "std") = Ok t_std
    /\ outcome (fast_laplacian ex_output ex_input ["u"; "v"] ["x"; "y"] "divgrad")
       = Ok t_dg
    /\ labels t_std = ["ddu"; "ddv"]
    /\ labels t_dg = ["ddu"; "ddv"]
    /\ forall env, values env t_std = values env t_dg.
Proof.
  apply (laplacian_std_equals_divgrad ex_output ex_input ["u"; "v"]).
  - split; [apply (bool_decide_unpack _); vm_compute; exact I|].
    split; [reflexivity|]. repeat constructor.
  - split; [apply (bool_decide_unpack _); vm_compute; exact I|].
    split; [reflexivity|]. repeat constructor.
  - reflexivity.
  - discriminate.
  - discriminate.
  - apply (bool_decide_unpack _). vm_compute. exact I.
  - intros c Hc. exact Hc.
  - apply (bool_decide_unpack _). vm_compute. exact I.
  - intros c Hc.
    apply elem_of_cons in Hc as [->|Hc];
      [|apply list_elem_of_singleton in Hc as ->];
      apply (bool_decide_unpack _); vm_compute; exact I.
Defined.

(** C6 as stated fails: the worked tensors under the labels [u], [udx] and
    [xdy], [y] are well-formed, the engine can differentiate the output
    twice, and [d] is all the labels of the input; the labels [d<u>d<xdy>]
    and [d<udx>d<y>] of the full gradient coincide.  The method ["std"],
    which never puts the gradients of two components in one tensor,
    returns the Laplacian; the method ["divgrad"] stops at the constructor
    of the labelled tensor of the full gradient. *)
Remark derived_labels_may_collide :
  well_formed ex_colliding_output /\ well_formed ex_colliding_input
  /\ twice_differentiable ex_colliding_output ex_colliding_input
  /\ ~ NoDup (first_order_labels ["u"; "udx"] (labels ex_colliding_input))
  /\ (exists t,
        outcome (fast_laplacian ex_colliding_output ex_colliding_input
                   ["u"; "udx"] (labels ex_colliding_input) "std") = Ok t
        /\ labels t = ["ddu"; "ddudx"]
        /\ values ex_env t = [[4; 0]; [4; 0]]%Z)
  /\ outcome (fast_laplacian ex_colliding_output ex_colliding_input
                ["u"; "udx"] (labels ex_colliding_input) "divgrad")
     = Err (LowLevel ValueError "Labels must be unique").
Proof.
  split; [|split; [|split; [|split; [|split]]]].
  - split; [apply (bool_decide_unpack _); vm_compute; exact I|].
    split; [reflexivity|]. repeat constructor.
  - split; [apply (bool_decide_unpack _); vm_compute; exact I|].
    split; [reflexivity|]. repeat constructor.
  - reflexivity.
  - intros H. apply (bool_decide_pack _) in H. by vm_compute in H.
  - eexists. split; [reflexivity|]. split; reflexivity.
  - reflexivity.
Qed.

(** ** The retained points *)

Lemma retain_mask_length {F} `{FloatOps F} (residuals : list F) :
  length (retain_mask residuals) = length residuals.
Proof. unfold retain_mask. by rewrite length_map. Qed.

Lemma select_rows_length {A} (rs : list A) (mask : list bool) :
  length (select_rows rs mask) <= length rs.
Proof.
  revert mask. induction rs as [|r rs IH]; intros [|b mask]; simpl; try lia.
  specialize (IH mask). destruct b; simpl; lia.
Qed.

Lemma select_rows_any {A} (rs : list A) (mask : list bool) :
  length mask = length rs ->
  existsb id mask = negb (Nat.eqb (length (select_rows rs mask)) 0).
Proof.
  revert mask. induction rs as [|r rs IH]; intros [|b mask] H; simpl in *;
    try done.
  destruct b; simpl; [done|]. apply IH. lia.
Qed.

(** The mask selects exactly the points whose residual is strictly greater
    than the mean that the engine computes, in their order. *)
Lemma select_rows_above_mean {A F} `{FloatOps F} (rs : list A)
    (residuals : list F) :
  select_rows rs (retain_mask residuals) = above_mean rs residuals.
Proof.
  unfold retain_mask, above_mean. generalize (f_mean residuals) as m. intros m.
  revert rs. induction residuals as [|r residuals IH]; intros [|p rs]; simpl;
    try done.
  destruct (f_gt r m) eqn:Hr; simpl; by rewrite IH.
Qed.

Lemma sample_prepared {E F G} `{FloatOps F} (self : R3Refinement F)
    (pts : LabelTensor F) (name : string) (solver : Solver E F G) (g : G)
    (cond : Condition E) (dom : Domain F G) (size : nat) (residuals : list F) :
  initial_population_size self !! name = Some size ->
  conditions (problem solver) !! name = Some cond ->
  domains (problem solver) !! domain cond = Some dom ->
  point_residuals self pts name solver = Ok residuals ->
  sample self pts name solver g
  = if existsb id (retain_mask residuals) then
      match (p ← getitem_mask pts (retain_mask residuals);
             set_labels p (labels pts)) with
      | Err e => (Err e, g)
      | Ok p =>
          match domain_sample dom
                  (Z.of_nat size - Z.of_nat (shape0 (tensor p)))%Z "random" g with
          | (Err e, g') => (Err e, g')
          | (Ok samples, g') => (LabelTensor_cat [p; samples], g')
          end
      end
    else domain_sample dom (Z.of_nat size) "random" g.
Proof.
  intros Hsize Hcond Hdom Hres. unfold sample, py_lookup.
  by rewrite Hres, bind_Ok, Hcond, bind_Ok, Hdom, bind_Ok, Hsize, bind_Ok.
Qed.

Lemma retained_points {A} (pts : LabelTensor A) (mask : list bool) :
  well_formed pts -> length mask = shape0 (tensor pts) ->
  (p ← getitem_mask pts mask; set_labels p (labels pts))
  = Ok (mkLabelTensor
          (mkTensor (width (tensor pts)) (select_rows (rows (tensor pts)) mask)
             (hidden (tensor pts) ++ concat (rows (tensor pts))))
          (labels pts)).
Proof.
  intros (Hnd & Hlen & _) Hmask. unfold getitem_mask.
  rewrite Hmask, Nat.eqb_refl, bind_Ok. unfold set_labels.
  by rewrite LabelTensor_init_ok.
Qed.

(** ** Claims on the refinement *)

(** C2. In a refinement cycle on a condition whose initial population size
    is recorded, [sample] returns a population of exactly the recorded
    size: with [k > 0] retained points, these [k] points followed by the
    [size - k] points of one draw from the domain; with no retained point,
    the [size] points of one draw.  The current population is no larger
    than the recorded size (it has that size after the recording and after
    every cycle), the solver gives one residual per point, and the domain
    draws as many points as it is asked for, with the labels of the
    population. *)
Theorem sample_keeps_population_size {E F G} `{FloatOps F}
    (self : R3Refinement F) (pts : LabelTensor F) (name : string)
    (solver : Solver E F G) (g : G)
    (cond : Condition E) (dom : Domain F G) (size : nat) (residuals : list F) :
  initial_population_size self !! name = Some size ->
  conditions (problem solver) !! name = Some cond ->
  domains (problem solver) !! domain cond = Some dom ->
  point_residuals self pts name solver = Ok residuals ->
  length residuals = shape0 (tensor pts) ->
  well_formed pts ->
  shape0 (tensor pts) <= size ->
  (forall n g0, (0 <= n)%Z ->
     exists s g1, domain_sample dom n "random" g0 = (Ok s, g1)
                  /\ shape0 (tensor s) = Z.to_nat n
                  /\ labels s = labels pts
                  /\ width (tensor s) = width (tensor pts)) ->
  let retained := select_rows (rows (tensor pts)) (retain_mask residuals) in
  let k := length retained in
  exists new fresh g',
    sample self pts name solver g = (Ok new, g')
    /\ shape0 (tensor new) = size
    /\ ((0 < k
         /\ domain_sample dom (Z.of_nat size - Z.of_nat k)%Z "random" g
            = (Ok fresh, g')
         /\ shape0 (tensor fresh) = size - k
         /\ rows (tensor new) = retained ++ rows (tensor fresh))
        \/ (k = 0
            /\ domain_sample dom (Z.of_nat size) "random" g = (Ok fresh, g')
            /\ shape0 (tensor fresh) = size
            /\ new = fresh)).
Proof.
  intros Hsize Hcond Hdom Hres Hlen Hwf Hle Hdraw retained k.
  rewrite (sample_prepared self pts name solver g cond dom size residuals)
    by done.
  assert (length (retain_mask residuals) = shape0 (tensor pts)) as Hmask
    by (by rewrite retain_mask_length).
  rewrite (select_rows_any (rows (tensor pts))) by done.
  fold retained. fold k.
  assert (k <= shape0 (tensor pts)) as Hk by apply select_rows_length.
  destruct (Nat.eqb k 0) eqn:Hk0; cbn [negb].
  - apply Nat.eqb_eq in Hk0.
    destruct (Hdraw (Z.of_nat size) g) as (s & g1 & Hs & Hn & _); [lia|].
    rewrite Nat2Z.id in Hn.
    exists s, s, g1. split; [done|]. split; [done|]. by right.
  - apply Nat.eqb_neq in Hk0.
    rewrite (retained_points pts _ Hwf Hmask).
    unfold shape0 at 1. cbn [tensor rows]. fold retained. fold k.
    destruct (Hdraw (Z.of_nat size - Z.of_nat k)%Z g) as (s & g1 & Hs & Hn & Hl & Hw);
      [lia|].
    rewrite Hs. unfold LabelTensor_cat, vcat_from, vcat2. cbn [labels tensor width rows].
    rewrite bool_decide_eq_true_2 by done. rewrite Hw, Nat.eqb_refl. cbn [andb].
    rewrite bind_Ok.
    eexists _, s, g1. split; [reflexivity|].
    unfold shape0 in *. cbn [tensor rows].
    split; [rewrite length_app; fold k; lia|].
    left. split; [lia|]. split; [done|]. split; [lia|done].
Qed.

(** C2 on the worked refinement: five points, two of them retained. *)
Lemma sample_keeps_population_size_witness :
  exists new fresh g',
    sample ex_callback ex_points "D" ex_solver 100 = (Ok new, g')
    /\ shape0 (tensor new) = 5
    /\ ((0 < 2
         /\ domain_sample ex_domain (5 - 2)%Z "random" 100 = (Ok fresh, g')
         /\ shape0 (tensor fresh) = 5 - 2
         /\ rows (tensor new)
            = map (map f32_of_Z) [[7; 1]; [9; 3]]%Z ++ rows (tensor fresh))
        \/ (2 = 0
            /\ domain_sample ex_domain 5%Z "random" 100 = (Ok fresh, g')
            /\ shape0 (tensor fresh) = 5
            /\ new = fresh)).
Proof.
  refine (sample_keeps_population_size ex_callback ex_points "D" ex_solver 100
            (mkCondition tt "omega") ex_domain 5
            (map f32_of_Z [2; 5; 0; 7; 1]%Z)
            eq_refl eq_refl eq_refl eq_refl eq_refl _ _ _).
  - split; [apply (bool_decide_unpack _); vm_compute; exact I|].
    split; [reflexivity|]. repeat constructor.
  - unfold shape0. simpl. lia.
  - intros n g0 Hn. eexists _, _. split; [reflexivity|].
    unfold shape0. cbn [tensor rows labels width].
    rewrite length_map, length_seq. done.
Defined.

(** C3. In a refinement cycle with at least one retained point, the retained
    points are exactly the points whose residual is strictly greater than
    the mean residual of the population, in their original order; the new
    population carries the labels of the input population and consists of
    the retained points first, followed by the freshly drawn points.  The
    residuals are floating-point numbers, and the mean and the comparison
    are those of the engine, whatever its precision and the order in which
    it adds: the mean is the number that [residuals.mean()] returns. *)
Theorem sample_retains_above_mean {E F G} `{FloatOps F}
    (self : R3Refinement F) (pts : LabelTensor F) (name : string)
    (solver : Solver E F G) (g g' : G)
    (cond : Condition E) (dom : Domain F G) (size : nat) (residuals : list F)
    (fresh : LabelTensor F) :
  initial_population_size self !! name = Some size ->
  conditions (problem solver) !! name = Some cond ->
  domains (problem solver) !! domain cond = Some dom ->
  point_residuals self pts name solver = Ok residuals ->
  length residuals = shape0 (tensor pts) ->
  well_formed pts ->
  existsb id (retain_mask residuals) = true ->
  let retained := above_mean (rows (tensor pts)) residuals in
  domain_sample dom (Z.of_nat size - Z.of_nat (length retained))%Z "random" g
  = (Ok fresh, g') ->
  labels fresh = labels pts -> width (tensor fresh) = width (tensor pts) ->
  exists new,
    sample self pts name solver g = (Ok new, g')
    /\ labels new = labels pts
    /\ rows (tensor new) = retained ++ rows (tensor fresh)
    /\ retained ≠ [].
Proof.
  intros Hsize Hcond Hdom Hres Hlen Hwf Hany retained Hs Hl Hw.
  rewrite (sample_prepared self pts name solver g cond dom size residuals)
    by done.
  assert (length (retain_mask residuals) = shape0 (tensor pts)) as Hmask
    by (by rewrite retain_mask_length).
  rewrite Hany, (retained_points pts _ Hwf Hmask).
  unfold shape0 at 1. cbn [tensor rows].
  rewrite select_rows_above_mean. fold retained. rewrite Hs.
  unfold LabelTensor_cat, vcat_from, vcat2. cbn [labels tensor width rows].
  rewrite bool_decide_eq_true_2 by done. rewrite Hw, Nat.eqb_refl. cbn [andb].
  rewrite bind_Ok. eexists. split; [reflexivity|]. cbn [labels tensor rows].
  repeat split; try done.
  rewrite (select_rows_any (rows (tensor pts))) in Hany by done.
  rewrite select_rows_above_mean in Hany. fold retained in Hany.
  intros Hnil. by rewrite Hnil in Hany.
Qed.

(** C3 on the worked refinement, in single precision: the residuals are
    2, 5, 0, 7 and 1, their mean is 3, and the second and the fourth points
    are retained. *)
Lemma sample_retains_above_mean_witness :
  exists new,
    sample ex_callback ex_points "D" ex_solver 100 = (Ok new, 103)
    /\ labels new = ["x"; "y"]
    /\ rows (tensor new)
       = map (map f32_of_Z) [[7; 1]; [9; 3]]%Z
         ++ map (map f32_of_Z) [[100; 0]; [101; 0]; [102; 0]]%Z
    /\ map (map f32_of_Z) [[7; 1]; [9; 3]]%Z ≠ [].
Proof.
  refine (sample_retains_above_mean ex_callback ex_points "D" ex_solver 100 103
           (mkCondition tt "omega") ex_domain 5
           (map f32_of_Z [2; 5; 0; 7; 1]%Z)
           (mkLabelTensor
              (mkTensor 2
                 (map (map f32_of_Z) [[100; 0]; [101; 0]; [102; 0]]%Z) [])
              ["x"; "y"])
            eq_refl eq_refl eq_refl eq_refl eq_refl _ eq_refl eq_refl eq_refl
            eq_refl).
  split; [apply (bool_decide_unpack _); vm_compute; exact I|].
  split; [reflexivity|]. repeat constructor.
Defined.

(** The mean is the one that the engine computes.  In single precision the
    residuals 1 + 2^-23, 1 + 2^-23 and 1 have the mean 1 + 2^-23, the
    nearest number to a third of their sum: no residual is strictly greater
    than it, no point is retained, and the whole population is drawn
    anew. *)
Remark sample_rounded_mean :
  point_residuals ex_close_callback ex_close_points "D" ex_solver
  = Ok [S754_finite false 8388609 (-23); S754_finite false 8388609 (-23);
        S754_finite false 8388608 (-23)]
  /\ f_mean [S754_finite false 8388609 (-23); S754_finite false 8388609 (-23);
             S754_finite false 8388608 (-23)]
     = S754_finite false 8388609 (-23)
  /\ above_mean (rows (tensor ex_close_points))
       [S754_finite false 8388609 (-23); S754_finite false 8388609 (-23);
        S754_finite false 8388608 (-23)] = []
  /\ sample ex_close_callback ex_close_points "D" ex_solver 100
     = domain_sample ex_domain 3 "random" 100.
Proof. repeat split; reflexivity. Qed.

(** ** Claims on the construction of the callback *)

(** C4, as the code has it. The construction of the callback fails when
    [residual_loss] is not a class, in particular when it is a loss object,
    reducing or not, and when it is a class that derives neither from
    [LossInterface] nor from [_Loss].  A class that derives from one of
    them is called with [reduction="none"], and the construction succeeds
    with the object that this call returns as the loss of the callback;
    nothing else is asked of the class or of the object. *)
Theorem R3Refinement_init_loss {F}
    (sample_every : Z) (residual_loss : py_object F) (cond : cond_arg) :
  (forall f, residual_loss = InstanceObj f ->
     exists e, R3Refinement_init sample_every residual_loss cond = Err e)
  /\ (residual_loss = OtherObj ->
     exists e, R3Refinement_init sample_every residual_loss cond = Err e)
  /\ (forall c, residual_loss = ClassObj c ->
     issubclass c ["LossInterface"; "_Loss"] = false ->
     exists e, R3Refinement_init sample_every residual_loss cond = Err e)
  /\ (forall self, R3Refinement_init sample_every residual_loss cond = Ok self ->
     exists c, residual_loss = ClassObj c
               /\ issubclass c ["LossInterface"; "_Loss"] = true
               /\ construct c "none" = Ok (loss_fn self)
               /\ initial_population_size self = ∅)
  /\ (forall c fn, residual_loss = ClassObj c ->
     issubclass c ["LossInterface"; "_Loss"] = true ->
     construct c "none" = Ok fn -> cond ≠ CondOther ->
     exists self, R3Refinement_init sample_every residual_loss cond = Ok self
                  /\ loss_fn self = fn).
Proof.
  unfold R3Refinement_init.
  split; [|split; [|split; [|split]]].
  - intros f ->.
    destruct (RefinementInterface_init _ _) as [base|e0]; by eexists.
  - intros ->.
    destruct (RefinementInterface_init _ _) as [base|e0]; by eexists.
  - intros c -> Hsub.
    destruct (RefinementInterface_init _ _) as [base|e0]; [|by eexists].
    rewrite bind_Ok. unfold check_consistency. rewrite Hsub. by eexists.
  - intros self.
    destruct (RefinementInterface_init _ _) as [base|e0]; [|done].
    rewrite bind_Ok. destruct residual_loss as [c|f|]; [|done..].
    unfold check_consistency.
    destruct (issubclass c _) eqn:Hsub; [|done]. rewrite bind_Ok.
    destruct (construct c "none") as [fn|e1] eqn:Hfn; [|done].
    rewrite bind_Ok. intros [= <-]. by exists c.
  - intros c fn -> Hsub Hfn Hcond.
    destruct (RefinementInterface_init _ _) as [base|e0] eqn:Hbase.
    + rewrite bind_Ok. unfold check_consistency.
      rewrite Hsub, bind_Ok, Hfn, bind_Ok. by eexists.
    + by destruct cond.
Qed.

(** C4 on the worked classes: a loss object is refused, a class outside the
    loss hierarchy is refused, and [L1Loss] is accepted and called with
    [reduction="none"]. *)
Lemma R3Refinement_init_loss_witness :
  (exists e, R3Refinement_init 5 (InstanceObj (mkLossFn "mean" (L1_forward "mean")))
               CondNone = Err e)
  /\ (exists e, R3Refinement_init 5 (ClassObj NotALoss) CondNone = Err e)
  /\ (exists self, R3Refinement_init 5 (ClassObj L1Loss) CondNone = Ok self
                   /\ loss_fn self = mkLossFn "none" (L1_forward "none")).
Proof.
  split; [|split].
  - exact (proj1 (R3Refinement_init_loss 5
                    (InstanceObj (mkLossFn "mean" (L1_forward "mean"))) CondNone)
             _ eq_refl).
  - exact (proj1 (proj2 (proj2 (R3Refinement_init_loss 5
                    (ClassObj NotALoss) CondNone))) _ eq_refl eq_refl).
  - refine (proj2 (proj2 (proj2 (proj2 (R3Refinement_init_loss 5
                    (ClassObj L1Loss) CondNone)))) _ _ eq_refl eq_refl eq_refl _).
    discriminate.
Defined.

(** C4 as stated fails: the class [AlwaysMeanLoss] derives from [_Loss] and
    its objects reduce whatever [reduction] says; the callback is
    constructed with it, and its loss returns a single number on a target
    with two residuals. *)
Lemma R3Refinement_init_accepts_reducing_loss :
  exists self,
    R3Refinement_init 5 (ClassObj AlwaysMeanLoss) CondNone = Ok self
    /\ reduces_on (loss_fn self) (mkTensor 1 [[f32_of_Z 1]; [f32_of_Z 3]] []).
Proof.
  eexists. split; [reflexivity|]. eexists. reflexivity.
Qed.

(* ===================================================================== *)
(** * Part III: further properties of the operators and of the refinement *)
(* ===================================================================== *)

(** ** The values of the gradient *)

(** X1. For an output that the engine can differentiate with respect to
    the input, every column [d<c>d<x>] of the gradient holds the derivative
    of the column [c] of the output alone with respect to the variable [x]:
    the other components of a vector output do not enter it. *)
Theorem fast_grad_values
    (out inp : LabelTensor expr) (comps ds : list string) :
  well_formed out -> well_formed inp -> differentiable out ->
  comps ≠ [] -> NoDup comps -> (forall c, c ∈ comps -> c ∈ labels out) ->
  (forall x, x ∈ ds -> x ∈ labels inp) ->
  NoDup (first_order_labels comps ds) ->
  exists t,
    outcome (fast_grad out inp comps ds) = Ok t
    /\ labels t = first_order_labels comps ds
    /\ forall env,
         values env t
         = map (fun i => map (fun p => jac env out inp i p.1 p.2)
                           (list_prod comps ds))
             (seq 0 (shape0 (tensor inp))).
Proof.
  intros Hout Hinp Hdiff Hne Hndc Hsub Hds Hnd1.
  pose proof Hout as (Hndo & Hleno & _). pose proof Hinp as (_ & Hleni & _).
  assert (fast_grad out inp comps ds
          = fast_grad (ktensor (hidden (tensor out)) (shape0 (tensor out))
                         (labels out) id (entry out))
              inp (map id comps) ds) as ->.
  { by rewrite map_id, <- (well_formed_keyed out Hout). }
  rewrite (fast_grad_keyed _ _ (labels out) comps id (entry out) inp ds).
  - eexists. split; [reflexivity|]. split.
    + apply (map_list_prod (fun s y => dlabel s y)).
    + intros env. rewrite values_ktensor. apply map_ext. intros i.
      apply map_ext. intros p. apply eval_dcol.
  - by rewrite map_id.
  - done.
  - done.
  - intros H1. destruct (labels out) as [|u [|? ?]]; try done.
    destruct comps as [|a [|b comps]]; try done.
    pose proof (Hsub a (list_elem_of_here _ _)) as Ha.
    pose proof (Hsub b (list_elem_of_further _ _ _ (list_elem_of_here _ _))) as Hb.
    apply list_elem_of_singleton in Ha, Hb. subst.
    apply NoDup_cons in Hndc as [Hn _]. exfalso. apply Hn, list_elem_of_here.
  - done.
  - lia.
  - unfold first_order_labels in Hnd1.
    by rewrite (map_list_prod (fun s y => dlabel s y)).
  - by rewrite <- (well_formed_keyed out Hout).
Qed.

Lemma fast_grad_values_witness :
  exists t,
    outcome (fast_grad ex_output ex_input ["v"; "u"] ["y"]) = Ok t
    /\ labels t = ["dvdy"; "dudy"]
    /\ forall env,
         values env t
         = map (fun i => map (fun p => jac env ex_output ex_input i p.1 p.2)
                           [("v", "y"); ("u", "y")])
             [0; 1].
Proof.
  apply (fast_grad_values ex_output ex_input ["v"; "u"] ["y"]).
  - split; [apply (bool_decide_unpack _); vm_compute; exact I|].
    split; [reflexivity|]. repeat constructor.
  - split; [apply (bool_decide_unpack _); vm_compute; exact I|].
    split; [reflexivity|]. repeat constructor.
  - reflexivity.
  - discriminate.
  - apply (bool_decide_unpack _). vm_compute. exact I.
  - intros c Hc. apply (bool_decide_unpack _).
    apply elem_of_cons in Hc as [->|Hc];
      [|apply list_elem_of_singleton in Hc as ->]; vm_compute; exact I.
  - intros x Hx. apply list_elem_of_singleton in Hx as ->.
    apply (bool_decide_unpack _). vm_compute. exact I.
  - apply (bool_decide_unpack _). vm_compute. exact I.
Defined.

(** ** The values of the divergence *)

Lemma eval_div_sum_gen {A} env (v : A -> expr) (l : list A) :
  eval env (div_sum v l) = Zsum (fun q => eval env (v q)) l.
Proof.
  assert (forall e, eval env (foldl (fun acc q => Add acc (v q)) e l)
                    = (eval env e + Zsum (fun q => eval env (v q)) l)%Z) as Hfold.
  { unfold Zsum. induction l as [|x l' IH]; intros e; cbn [foldl foldr]; [lia|].
    rewrite IH. cbn [eval]. lia. }
  unfold div_sum. destruct l as [|x [|y l']].
  - done.
  - unfold Zsum. cbn [foldr]. lia.
  - rewrite Hfold. cbn [eval]. lia.
Qed.

Lemma fast_div_pairs {I} h n' (items sub : list I) (key : I -> string)
    (val : nat -> I -> expr) (inp : LabelTensor expr) (ds : list string) :
  NoDup (map key items) ->
  (forall s, s ∈ sub -> s ∈ items) -> zip sub ds ≠ [] ->
  (length items = 1 -> length sub = 1) ->
  (forall x, x ∈ ds -> x ∈ labels inp) ->
  length (labels inp) <= width (tensor inp) ->
  NoDup (map (fun p => dlabel (key p.1) p.2) (list_prod sub ds)) ->
  uses_input (tensor (ktensor h n' items key val)) = true ->
  exists t h',
    outcome (fast_div (ktensor h n' items key val) inp (map key sub) ds) = Ok t
    /\ tensor t
       = tab h' (shape0 (tensor inp)) 1
           (fun i => [div_sum (fun p => dcol (src_hidden h n' items val)
                                          n' val inp i p.1 p.2) (zip sub ds)]).
Proof.
  intros Hnd Hsub Hne Hsc Hds Hw Hnd1 Hu.
  set (key1 := fun p : I * string => dlabel (key p.1) p.2).
  set (val1 := fun i (p : I * string) =>
                 dcol (src_hidden h n' items val) n' val inp i p.1 p.2).
  set (hg := grad_hidden (src_hidden h n' items val) n' val inp sub).
  assert (sub ≠ []) as Hne' by (by destruct sub).
  unfold fast_div. rewrite outcome_bind.
  rewrite (fast_grad_keyed h n' items sub key val inp ds Hnd Hsub Hne' Hsc Hds
             Hw Hnd1 Hu).
  fold hg.
  rewrite bind_Ok, outcome_bind, outcome_pure_step.
  rewrite zip_map_l, result_mapM_map.
  rewrite (result_mapM_ok _
             (fun p => ktensor (hg ++ kents (shape0 (tensor inp))
                                        (list_prod sub ds) val1)
                         (shape0 (tensor inp)) [p] key1 val1)); cycle 1.
  { intros p Hp.
    apply (extract_keyed hg _ (list_prod sub ds) [p] key1 val1 Hnd1).
    intros s ->%list_elem_of_singleton. by apply zip_subset_prod. }
  rewrite bind_Ok, outcome_pure_step.
  destruct (summation_columns
              (hg ++ kents (shape0 (tensor inp)) (list_prod sub ds) val1)
              (shape0 (tensor inp)) (zip sub ds) key1 val1 Hne) as [h' Hsum].
  destruct (summation _) as [r|e]; [|done].
  rewrite bind_Ok in Hsum. exists r, h'. split; [done|]. by injection Hsum.
Qed.

(** X2. For an output that the engine can differentiate with respect to
    the input, the divergence pairs the components with the variables by
    position and returns, in one column, the sum of the derivatives of each
    component with respect to its own variable; [fast_div] compares no
    lengths, and what one list has beyond the length of the other is left
    out of the sum. *)
Theorem fast_div_values
    (out inp : LabelTensor expr) (comps ds : list string) :
  well_formed out -> well_formed inp -> differentiable out ->
  zip comps ds ≠ [] -> NoDup comps -> (forall c, c ∈ comps -> c ∈ labels out) ->
  (forall x, x ∈ ds -> x ∈ labels inp) ->
  NoDup (first_order_labels comps ds) ->
  exists t,
    outcome (fast_div out inp comps ds) = Ok t
    /\ width (tensor t) = 1
    /\ forall env,
         values env t
         = map (fun i => [Zsum (fun p => jac env out inp i p.1 p.2)
                            (zip comps ds)])
             (seq 0 (shape0 (tensor inp))).
Proof.
  intros Hout Hinp Hdiff Hne Hndc Hsub Hds Hnd1.
  pose proof Hout as (Hndo & Hleno & _). pose proof Hinp as (_ & Hleni & _).
  assert (fast_div out inp comps ds
          = fast_div (ktensor (hidden (tensor out)) (shape0 (tensor out))
                        (labels out) id (entry out))
              inp (map id comps) ds) as ->.
  { by rewrite map_id, <- (well_formed_keyed out Hout). }
  destruct (fast_div_pairs (hidden (tensor out)) (shape0 (tensor out))
              (labels out) comps id (entry out)
              inp ds) as (t & h' & Ht & Htab); try done.
  - by rewrite map_id.
  - intros H1. destruct (labels out) as [|u [|? ?]]; try done.
    destruct comps as [|a [|b comps]]; try done.
    pose proof (Hsub a (list_elem_of_here _ _)) as Ha.
    pose proof (Hsub b (list_elem_of_further _ _ _ (list_elem_of_here _ _))) as Hb.
    apply list_elem_of_singleton in Ha, Hb. subst.
    apply NoDup_cons in Hndc as [Hn _]. exfalso. apply Hn, list_elem_of_here.
  - lia.
  - unfold first_order_labels in Hnd1.
    by rewrite (map_list_prod (fun s y => dlabel s y)).
  - by rewrite <- (well_formed_keyed out Hout).
  - exists t. split; [done|]. split; [by rewrite Htab|].
    intros env. unfold values. rewrite Htab. unfold tab. cbn [rows].
    rewrite map_map. apply map_ext. intros i. cbn [map]. f_equal.
    rewrite eval_div_sum_gen. apply Zsum_ext. intros p. apply eval_dcol.
Qed.

Lemma fast_div_values_witness :
  exists t,
    outcome (fast_div ex_output ex_input ["u"; "v"] ["x"; "y"]) = Ok t
    /\ width (tensor t) = 1
    /\ forall env,
         values env t
         = map (fun i => [Zsum (fun p => jac env ex_output ex_input i p.1 p.2)
                            [("u", "x"); ("v", "y")]])
             [0; 1].
Proof.
  apply (fast_div_values ex_output ex_input ["u"; "v"] ["x"; "y"]).
  - split; [apply (bool_decide_unpack _); vm_compute; exact I|].
    split; [reflexivity|]. repeat constructor.
  - split; [apply (bool_decide_unpack _); vm_compute; exact I|].
    split; [reflexivity|]. repeat constructor.
  - reflexivity.
  - discriminate.
  - apply (bool_decide_unpack _). vm_compute. exact I.
  - intros c Hc. exact Hc.
  - intros x Hx. exact Hx.
  - apply (bool_decide_unpack _). vm_compute. exact I.
Defined.

(** ** The values of the Laplacian *)

Lemma map_flat_map_singleton {A B C} (f : A -> B) (g : B -> C) (l : list A) :
  map g (flat_map (fun s => [f s]) l) = map (fun s => g (f s)) l.
Proof. induction l as [|x l IH]; [done|]. cbn [flat_map app map]. by rewrite IH. Qed.

(** X3. For an output that the engine can differentiate twice with respect
    to the input, the checked Laplacian returns, for every requested
    component, the sum over the requested variables of the second
    derivatives with respect to the same variable twice: no mixed derivative
    enters.  This is so whatever method it is given. *)
Theorem laplacian_values
    (out inp : LabelTensor expr) (c d : label_arg) (m : string)
    (comps ds : list string) :
  well_formed out -> well_formed inp -> twice_differentiable out inp ->
  _check_values (IsLabelTensor out) (IsLabelTensor inp) c d = Ok (comps, ds) ->
  comps ≠ [] -> NoDup comps -> ds ≠ [] -> NoDup ds ->
  (forall s, s ∈ comps -> NoDup (second_order_labels s ds)) ->
  exists t,
    outcome (laplacian (IsLabelTensor out) (IsLabelTensor inp) c d m) = Ok t
    /\ labels t = map ddlabel comps
    /\ forall env,
         values env t
         = map (fun i => map (fun s => Zsum (fun x => hessian env out inp i s x) ds)
                           comps)
             (seq 0 (shape0 (tensor inp))).
Proof.
  intros Hout Hinp Htw Hcheck Hne Hndc Hned Hndd Hnd2.
  destruct (check_values_ok _ _ _ _ _ _ Hcheck) as (_ & _ & Hcin & Hdin).
  pose proof Hout as (Hndo & Hleno & _). pose proof Hinp as (_ & Hleni & _).
  unfold laplacian. rewrite (bind_pure_ok _ _ _ Hcheck). cbn [fst snd].
  assert (fast_laplacian out inp comps ds "std"
          = fast_laplacian (ktensor (hidden (tensor out)) (shape0 (tensor out))
                              (labels out) id (entry out))
              inp (map id comps) ds "std") as ->.
  { by rewrite map_id, <- (well_formed_keyed out Hout). }
  unfold twice_differentiable in Htw.
  rewrite (well_formed_keyed out Hout) in Htw.
  destruct (fast_laplacian_std_keyed (hidden (tensor out)) (shape0 (tensor out))
              (labels out) comps id (entry out) inp ds) as [h' ->].
  - by rewrite map_id.
  - by apply all_in_spec.
  - done.
  - by rewrite map_id.
  - intros H1. destruct (labels out) as [|u [|? ?]]; try done.
    destruct comps as [|a [|b comps]]; try done.
    pose proof (proj1 (all_in_spec _ _) Hcin a (list_elem_of_here _ _)) as Ha.
    pose proof (proj1 (all_in_spec _ _) Hcin b
                  (list_elem_of_further _ _ _ (list_elem_of_here _ _))) as Hb.
    apply list_elem_of_singleton in Ha, Hb. subst.
    apply NoDup_cons in Hndc as [Hn _]. exfalso. apply Hn, list_elem_of_here.
  - by apply all_in_spec.
  - lia.
  - done.
  - done.
  - done.
  - done.
  - eexists. split; [reflexivity|]. split; [by rewrite map_id|].
    intros env. unfold values, tab. cbn [tensor rows]. rewrite map_map.
    apply map_ext. intros i.
    rewrite map_flat_map_singleton. apply map_ext. intros s.
    rewrite eval_foldr_Add_gen. apply Zsum_ext. intros x. apply eval_hess.
Qed.

Lemma laplacian_values_witness :
  exists t,
    outcome (laplacian (IsLabelTensor ex_output) (IsLabelTensor ex_input)
               (ArgStr "u") ArgNone "divgrad") = Ok t
    /\ labels t = ["ddu"]
    /\ forall env,
         values env t
         = map (fun i => map (fun s => Zsum (fun x => hessian env ex_output ex_input i s x)
                                         ["x"; "y"]) ["u"])
             [0; 1].
Proof.
  apply (laplacian_values ex_output ex_input (ArgStr "u") ArgNone "divgrad"
           ["u"] ["x"; "y"]).
  - split; [apply (bool_decide_unpack _); vm_compute; exact I|].
    split; [reflexivity|]. repeat constructor.
  - split; [apply (bool_decide_unpack _); vm_compute; exact I|].
    split; [reflexivity|]. repeat constructor.
  - reflexivity.
  - reflexivity.
  - discriminate.
  - apply (bool_decide_unpack _). vm_compute. exact I.
  - discriminate.
  - apply (bool_decide_unpack _). vm_compute. exact I.
  - intros s Hs. apply list_elem_of_singleton in Hs as ->.
    apply (bool_decide_unpack _). vm_compute. exact I.
Defined.

(** X5. For an output that the engine can differentiate twice with respect
    to the input, the two methods of [fast_laplacian] agree for every set of
    distinct derivative variables of the input, a part of its labels as well
    as all of them. *)
Theorem laplacian_methods_agree_on_subset
    (out inp : LabelTensor expr) (comps ds : list string) :
  well_formed out -> well_formed inp -> twice_differentiable out inp ->
  comps ≠ [] -> NoDup comps -> (forall c, c ∈ comps -> c ∈ labels out) ->
  ds ≠ [] -> NoDup ds -> (forall x, x ∈ ds -> x ∈ labels inp) ->
  NoDup (first_order_labels comps ds) ->
  (forall c, c ∈ comps -> NoDup (second_order_labels c ds)) ->
  exists t_std t_dg,
    outcome (fast_laplacian out inp comps ds "std") = Ok t_std
    /\ outcome (fast_laplacian out inp comps ds "divgrad") = Ok t_dg
    /\ labels t_std = labels t_dg
    /\ forall env, values env t_std = values env t_dg.
Proof.
  intros Hout Hinp Htw Hne Hndc Hsub Hned Hndd Hds Hnd1 Hnd2.
  destruct (fast_laplacian_methods_agree out inp comps ds)
    as (t1 & t2 & H1 & H2 & Hl1 & Hl2 & Hv); try done.
  exists t1, t2. by rewrite Hl1, Hl2.
Qed.

Lemma laplacian_methods_agree_on_subset_witness :
  exists t_std t_dg,
    outcome (fast_laplacian ex_output ex_input ["u"; "v"] ["y"] "std") = Ok t_std
    /\ outcome (fast_laplacian ex_output ex_input ["u"; "v"] ["y"] "divgrad")
       = Ok t_dg
    /\ labels t_std = labels t_dg
    /\ forall env, values env t_std = values env t_dg.
Proof.
  apply (laplacian_methods_agree_on_subset ex_output ex_input ["u"; "v"] ["y"]).
  - split; [apply (bool_decide_unpack _); vm_compute; exact I|].
    split; [reflexivity|]. repeat constructor.
  - split; [apply (bool_decide_unpack _); vm_compute; exact I|].
    split; [reflexivity|]. repeat constructor.
  - reflexivity.
  - discriminate.
  - apply (bool_decide_unpack _). vm_compute. exact I.
  - intros c Hc. exact Hc.
  - discriminate.
  - apply (bool_decide_unpack _). vm_compute. exact I.
  - intros x Hx. apply list_elem_of_singleton in Hx as ->.
    apply (bool_decide_unpack _). vm_compute. exact I.
  - apply (bool_decide_unpack _). vm_compute. exact I.
  - intros c Hc.
    apply elem_of_cons in Hc as [->|Hc];
      [|apply list_elem_of_singleton in Hc as ->];
      apply (bool_decide_unpack _); vm_compute; exact I.
Defined.

(** ** The validation, completely *)

Lemma as_list_py_or (a : label_arg) (dflt : list string) :
  as_list (py_or a dflt) = or_all (requested a) dflt.
Proof.
  destruct a as [|s|[|x l]]; simpl; try done.
  by destruct (decide (s = "")).
Qed.

Lemma or_all_in (req all : list string) :
  (forall x, x ∈ req -> x ∈ all) <-> all_in (or_all req all) all = true.
Proof.
  destruct req as [|y req]; cbn [or_all].
  - split; [intros _; apply all_in_refl|]. by intros _ x ?%elem_of_nil.
  - symmetry. apply all_in_spec.
Qed.

(** X9. On labelled tensors the validation succeeds exactly when every
    requested component is a label of the output and every requested
    derivative variable is a label of the input; it then returns, for each
    argument, the requested labels in the order of the request (a string
    counting as one label), or all the labels when none is requested. *)
Theorem check_values_complete (o i : LabelTensor expr) (c d : label_arg) :
  ((forall x, x ∈ requested c -> x ∈ labels o)
   /\ (forall x, x ∈ requested d -> x ∈ labels i)
   <-> exists r, _check_values (IsLabelTensor o) (IsLabelTensor i) c d = Ok r)
  /\ (forall r, _check_values (IsLabelTensor o) (IsLabelTensor i) c d = Ok r ->
        r = (or_all (requested c) (labels o), or_all (requested d) (labels i))).
Proof.
  split; [split|].
  - intros [Hc Hd]. eexists. unfold _check_values.
    rewrite !as_list_py_or.
    apply or_all_in in Hc, Hd. by rewrite Hc, Hd.
  - intros [[comps ds] Hr].
    destruct (check_values_ok _ _ _ _ _ _ Hr) as (-> & -> & Hc & Hd).
    rewrite as_list_py_or in Hc, Hd. by split; apply or_all_in.
  - intros [comps ds] Hr.
    destruct (check_values_ok _ _ _ _ _ _ Hr) as (-> & -> & _ & _).
    by rewrite !as_list_py_or.
Qed.

(** X10. In every checked operator a non-empty string given as [components] or
    as [d] is the list of that one label, and a string given as
    [velocity_field] is too; the empty string given as [components] or as
    [d] is no label but the omitted argument. *)
Theorem string_is_one_label
    (output_ input_ : tensor_arg) (vf c d : label_arg) (m s : string) :
  (s ≠ "" ->
     checked_operators output_ input_ vf (ArgStr s) d m
     = checked_operators output_ input_ vf (ArgList [s]) d m
     /\ checked_operators output_ input_ vf c (ArgStr s) m
        = checked_operators output_ input_ vf c (ArgList [s]) m)
  /\ advection output_ input_ (ArgStr s) c d
     = advection output_ input_ (ArgList [s]) c d
  /\ checked_operators output_ input_ vf (ArgStr "") d m
     = checked_operators output_ input_ vf ArgNone d m
  /\ checked_operators output_ input_ vf c (ArgStr "") m
     = checked_operators output_ input_ vf c ArgNone m.
Proof.
  split; [|done]. intros Hs.
  assert (forall dflt, py_or (ArgStr s) dflt = inl s) as Hor.
  { intros dflt. simpl. by rewrite decide_False. }
  unfold checked_operators, grad, div, laplacian, advection, _check_values.
  split; destruct input_ as [inp|?]; destruct output_ as [out|?]; try done;
    by rewrite !Hor.
Qed.

Lemma string_is_one_label_witness :
  checked_operators (IsLabelTensor ex_output) (IsLabelTensor ex_input)
    (ArgStr "u") (ArgStr "u") ArgNone "std"
  = checked_operators (IsLabelTensor ex_output) (IsLabelTensor ex_input)
      (ArgStr "u") (ArgList ["u"]) ArgNone "std".
Proof.
  apply (proj1 (string_is_one_label (IsLabelTensor ex_output)
                  (IsLabelTensor ex_input) (ArgStr "u") ArgNone ArgNone "std" "u")).
  discriminate.
Defined.

(** ** Checked and fast variants *)

Lemma all_in_intro (l lbls : list string) :
  (forall x, x ∈ l -> x ∈ lbls) -> all_in l lbls = true.
Proof. apply all_in_spec. Qed.

Lemma check_values_lists (o i : LabelTensor expr) (c d : list string) :
  c ≠ [] -> d ≠ [] ->
  (forall x, x ∈ c -> x ∈ labels o) -> (forall x, x ∈ d -> x ∈ labels i) ->
  _check_values (IsLabelTensor o) (IsLabelTensor i) (ArgList c) (ArgList d)
  = Ok (c, d).
Proof.
  intros Hc Hd Hco Hdi. unfold _check_values.
  destruct c as [|c0 c]; [done|]. destruct d as [|d0 d]; [done|]. simpl py_or.
  cbn [as_list]. by rewrite (all_in_intro _ _ Hco), (all_in_intro _ _ Hdi).
Qed.

(** X11. On labelled tensors and non-empty lists of labels that the tensors
    have, every checked operator is its fast variant: the same result and
    the same calls of the reverse-mode primitive.  [div] and [advection]
    are so when their lengths match, and [laplacian] is [fast_laplacian]
    with the method ["std"]. *)
Theorem checked_is_fast_when_valid
    (o i : LabelTensor expr) (v c d : list string) (m : string) :
  c ≠ [] -> d ≠ [] ->
  (forall x, x ∈ c -> x ∈ labels o) -> (forall x, x ∈ d -> x ∈ labels i) ->
  grad (IsLabelTensor o) (IsLabelTensor i) (ArgList c) (ArgList d)
  = fast_grad o i c d
  /\ laplacian (IsLabelTensor o) (IsLabelTensor i) (ArgList c) (ArgList d) m
     = fast_laplacian o i c d "std"
  /\ (length c = length d ->
      div (IsLabelTensor o) (IsLabelTensor i) (ArgList c) (ArgList d)
      = fast_div o i c d)
  /\ ((forall x, x ∈ v -> x ∈ labels o) -> length v = length d ->
      advection (IsLabelTensor o) (IsLabelTensor i) (ArgList v) (ArgList c)
        (ArgList d)
      = fast_advection o i v c d).
Proof.
  intros Hc Hd Hco Hdi.
  pose proof (check_values_lists o i c d Hc Hd Hco Hdi) as Hcheck.
  unfold grad, laplacian, div, advection.
  rewrite !(bind_pure_ok _ _ _ Hcheck). cbn [fst snd].
  split; [done|]. split; [done|]. split.
  - intros Hlen. by rewrite Hlen, Nat.eqb_refl.
  - intros Hv Hlen. cbn [velocity_list].
    rewrite (bind_pure_ok _ _ v eq_refl), (all_in_intro _ _ Hv).
    by rewrite Hlen, Nat.eqb_refl.
Qed.

Lemma checked_is_fast_when_valid_witness :
  grad (IsLabelTensor ex_output) (IsLabelTensor ex_input)
    (ArgList ["v"]) (ArgList ["y"; "x"])
  = fast_grad ex_output ex_input ["v"] ["y"; "x"].
Proof.
  apply (checked_is_fast_when_valid ex_output ex_input [] ["v"] ["y"; "x"] "std").
  - discriminate.
  - discriminate.
  - intros x Hx. apply list_elem_of_singleton in Hx as ->.
    apply (bool_decide_unpack _). vm_compute. exact I.
  - intros x Hx. apply (bool_decide_unpack _).
    apply elem_of_cons in Hx as [->|Hx];
      [|apply list_elem_of_singleton in Hx as ->]; vm_compute; exact I.
Defined.

(** ** The velocity field of the advection *)

(** X12. After the shared validation, [advection] refuses a velocity field with
    a label that the output does not have, before any differentiation and
    before it compares any length; a velocity field that is [None] fails
    in the interpreter, also before any differentiation. *)
Theorem advection_velocity_checked_first
    (o i : LabelTensor expr) (vf c d : label_arg) (comps ds : list string) :
  _check_values (IsLabelTensor o) (IsLabelTensor i) c d = Ok (comps, ds) ->
  (forall v x, velocity_list vf = Ok v -> x ∈ v -> x ∉ labels o ->
     raises_before_differentiation
       (advection (IsLabelTensor o) (IsLabelTensor i) vf c d) velocity_missing)
  /\ (vf = ArgNone ->
      exists msg,
        raises_before_differentiation
          (advection (IsLabelTensor o) (IsLabelTensor i) vf c d)
          (LowLevel TypeError msg)).
Proof.
  intros Hcheck. unfold advection. rewrite (bind_pure_ok _ _ _ Hcheck). split.
  - intros v x Hv Hx Hn.
    rewrite (bind_pure_ok _ _ _ Hv), (all_in_false _ _ x Hx Hn). by split.
  - intros ->. eexists. by split.
Qed.

Lemma advection_velocity_checked_first_witness :
  raises_before_differentiation
    (advection (IsLabelTensor ex_output) (IsLabelTensor ex_input)
       (ArgList ["u"; "w"; "v"]) ArgNone ArgNone)
    velocity_missing.
Proof.
  apply (proj1 (advection_velocity_checked_first ex_output ex_input
                  (ArgList ["u"; "w"; "v"]) ArgNone ArgNone
                  ["u"; "v"] ["x"; "y"] eq_refl)
           ["u"; "w"; "v"] "w" eq_refl).
  - apply list_elem_of_further, list_elem_of_here.
  - intros H. apply (bool_decide_pack _) in H. by vm_compute in H.
Defined.

(** ** The errors of [sample] *)

(** X13. [sample] looks the condition, its domain and the recorded size up by
    name; a name that is missing raises [KeyError] with that name, and the
    random generator is left as it was: no point has been drawn. *)
Theorem sample_missing_keys {E F G} `{FloatOps F}
    (self : R3Refinement F) (pts : LabelTensor F) (name : string)
    (solver : Solver E F G) (g : G) :
  (conditions (problem solver) !! name = None ->
     sample self pts name solver g = (Err (LowLevel KeyError name), g))
  /\ (forall cond rs,
        conditions (problem solver) !! name = Some cond ->
        point_residuals self pts name solver = Ok rs ->
        domains (problem solver) !! domain cond = None ->
        sample self pts name solver g = (Err (LowLevel KeyError (domain cond)), g))
  /\ (forall cond rs dom,
        conditions (problem solver) !! name = Some cond ->
        point_residuals self pts name solver = Ok rs ->
        domains (problem solver) !! domain cond = Some dom ->
        initial_population_size self !! name = None ->
        sample self pts name solver g = (Err (LowLevel KeyError name), g)).
Proof.
  split; [|split].
  - intros Hc. unfold sample, point_residuals, py_lookup. by rewrite Hc.
  - intros cond rs Hc Hres Hd. unfold sample, py_lookup.
    by rewrite Hres, bind_Ok, Hc, bind_Ok, Hd.
  - intros cond rs dom Hc Hres Hd Hs. unfold sample, py_lookup.
    by rewrite Hres, bind_Ok, Hc, bind_Ok, Hd, bind_Ok, Hs.
Qed.

Lemma sample_missing_keys_witness :
  sample ex_callback ex_points "boundary" ex_solver 100
  = (Err (LowLevel KeyError "boundary"), 100).
Proof.
  apply (proj1 (sample_missing_keys ex_callback ex_points "boundary" ex_solver 100)).
  reflexivity.
Defined.

(** X14. A loss that reduces, which the constructor does not refuse, makes
    [sample] fail when it averages over the axes after the first: the
    reduced output has none.  The exception is an [IndexError] of the
    engine, and no point has been drawn. *)
Theorem sample_with_reducing_loss {E F G} `{FloatOps F}
    (self : R3Refinement F) (pts : LabelTensor F) (name : string)
    (solver : Solver E F G) (g : G) (cond : Condition E) (target : Tensor F) :
  conditions (problem solver) !! name = Some cond ->
  compute_residual solver pts (equation cond) = Ok target ->
  reduces_on (loss_fn self) target ->
  exists msg, sample self pts name solver g = (Err (LowLevel IndexError msg), g).
Proof.
  intros Hc Ht [q Hq]. eexists. unfold sample, point_residuals, py_lookup.
  by rewrite Hc, bind_Ok, Ht, bind_Ok, Hq.
Qed.

Lemma sample_with_reducing_loss_witness :
  exists msg,
    sample (mkR3Refinement 5 None (mkLossFn "none" (L1_forward "mean"))
              {[ "D" := 5%nat ]})
      ex_points "D" ex_solver 100
    = (Err (LowLevel IndexError msg), 100).
Proof.
  apply (sample_with_reducing_loss
           (mkR3Refinement 5 None (mkLossFn "none" (L1_forward "mean"))
              {[ "D" := 5%nat ]})
           ex_points "D" ex_solver 100 (mkCondition tt "omega")
           (mkTensor 1
              (map (fun x => [f32_sub (f32_of_Z x) (f32_of_Z 2)]) [0; 7; 2; 9; 3]%Z)
              [])).
  - reflexivity.
  - reflexivity.
  - eexists. reflexivity.
Defined.

Lemma check_values_complete_witness :
  _check_values (IsLabelTensor ex_output) (IsLabelTensor ex_input)
    (ArgStr "v") ArgNone
  = Ok (["v"], ["x"; "y"]).
Proof.
  destruct (proj2 (proj1 (check_values_complete ex_output ex_input
                            (ArgStr "v") ArgNone)) (ex_intro _ _ eq_refl))
    as [Hc Hd].
  destruct (proj1 (proj1 (check_values_complete ex_output ex_input
                            (ArgStr "v") ArgNone)) (conj Hc Hd)) as [r Hr].
  rewrite Hr. f_equal.
  exact (proj2 (check_values_complete ex_output ex_input (ArgStr "v") ArgNone) r Hr).
Defined.

(** ** The number of calls of the reverse-mode primitive *)

Lemma calls_bind {A B} (m : Traced A) (f : A -> Traced B) :
  calls (m ≫= f)
  = calls m + match outcome m with Ok a => calls (f a) | Err _ => 0 end.
Proof.
  unfold mbind, traced_bind. destruct (outcome m); cbn [calls]; lia.
Qed.

Lemma calls_pure_step {A} (r : result A) : calls (pure_step r) = 0.
Proof. reflexivity. Qed.

Lemma calls_scalar_grad o i d : calls (_scalar_grad o i d) = 1.
Proof.
  unfold _scalar_grad. rewrite calls_bind.
  change (calls (torch_autograd_grad _ _ _)) with 1.
  destruct (outcome (torch_autograd_grad _ _ _)) as [g|e]; [|done].
  rewrite calls_bind, calls_pure_step, outcome_pure_step.
  by destruct (result_mapM _ d).
Qed.

Lemma traced_mapM_calls_le {A B} (f : A -> Traced B) (l : list A) n :
  (forall x, calls (f x) <= n) -> calls (traced_mapM f l) <= length l * n.
Proof.
  intros H. induction l as [|x l IH]; [done|]. cbn [traced_mapM].
  change (length (x :: l) * n) with (n + length l * n).
  rewrite calls_bind. specialize (H x).
  destruct (outcome (f x)) as [y|e]; [|lia].
  rewrite calls_bind.
  destruct (outcome (traced_mapM f l)); [change (calls (mret _)) with 0|]; lia.
Qed.

Lemma traced_mapM_calls_ok {A B} (f : A -> Traced B) (l : list A) n ys :
  (forall x y, outcome (f x) = Ok y -> calls (f x) = n) ->
  outcome (traced_mapM f l) = Ok ys -> calls (traced_mapM f l) = length l * n.
Proof.
  intros H. revert ys. induction l as [|x l IH]; intros ys Hys; [done|].
  cbn [traced_mapM] in *. rewrite outcome_bind in Hys.
  change (length (x :: l) * n) with (n + length l * n).
  rewrite calls_bind. destruct (outcome (f x)) as [y|e] eqn:Hy; [|done].
  rewrite (H x y Hy). rewrite bind_Ok, outcome_bind in Hys.
  rewrite calls_bind.
  destruct (outcome (traced_mapM f l)) as [ys'|e] eqn:Hl; [|done].
  rewrite (IH ys' eq_refl). change (calls (mret _)) with 0. lia.
Qed.

Lemma fast_grad_calls_aux (o i : LabelTensor expr) (c d : list string) :
  (width (tensor o) = 1 -> calls (fast_grad o i c d) = 1)
  /\ (width (tensor o) ≠ 1 ->
      calls (fast_grad o i c d) <= length c
      /\ forall t, outcome (fast_grad o i c d) = Ok t ->
                   calls (fast_grad o i c d) = length c).
Proof.
  unfold fast_grad. split.
  - intros ->. cbn [Nat.eqb].
    rewrite calls_bind, calls_scalar_grad.
    destruct (outcome (_scalar_grad o i d)) as [g|e]; [|done].
    rewrite calls_bind, calls_pure_step, outcome_pure_step.
    by destruct (result_mapM _ d).
  - intros Hw. apply Nat.eqb_neq in Hw. rewrite Hw.
    set (f := fun c0 => oc ← pure_step (extract o [c0]); _scalar_grad oc i d).
    assert (forall x, calls (f x) <= 1) as Hle.
    { intros x. unfold f. rewrite calls_bind, calls_pure_step, outcome_pure_step.
      destruct (extract o [x]); [by rewrite calls_scalar_grad|lia]. }
    assert (forall x y, outcome (f x) = Ok y -> calls (f x) = 1) as Hok.
    { intros x y. unfold f.
      rewrite outcome_bind, calls_bind, calls_pure_step, outcome_pure_step.
      destruct (extract o [x]); [by rewrite calls_scalar_grad|done]. }
    split.
    + rewrite calls_bind. pose proof (traced_mapM_calls_le f c 1 Hle) as Hc.
      destruct (outcome (traced_mapM f c)) as [gs|e]; [|lia].
      rewrite calls_bind, calls_pure_step, outcome_pure_step.
      destruct (torch_cat gs); cbn [calls pure_step]; lia.
    + intros t. rewrite outcome_bind, calls_bind.
      destruct (outcome (traced_mapM f c)) as [gs|e] eqn:Hgs; [|done].
      intros _. rewrite (traced_mapM_calls_ok f c 1 gs Hok Hgs).
      rewrite calls_bind, calls_pure_step, outcome_pure_step.
      destruct (torch_cat gs); cbn [calls pure_step]; lia.
Qed.

(** X7. [fast_grad] calls the reverse-mode primitive exactly once on an output
    with one column, however many derivative variables are requested, and
    at most once per requested component on any other output: exactly
    once per component when it returns. *)
Theorem fast_grad_calls (o i : LabelTensor expr) (c d : list string) :
  (width (tensor o) = 1 -> calls (fast_grad o i c d) = 1)
  /\ (width (tensor o) ≠ 1 ->
      calls (fast_grad o i c d) <= length c
      /\ forall t, outcome (fast_grad o i c d) = Ok t ->
                   calls (fast_grad o i c d) = length c).
Proof. exact (fast_grad_calls_aux o i c d). Qed.

Lemma fast_grad_calls_witness :
  calls (fast_grad ex_scalar ex_input ["u"] ["x"; "y"]) = 1
  /\ calls (fast_grad ex_output ex_input ["u"; "v"] ["x"; "y"]) = 2.
Proof.
  split.
  - by apply (proj1 (fast_grad_calls ex_scalar ex_input ["u"] ["x"; "y"])).
  - eapply (proj2 (fast_grad_calls ex_output ex_input ["u"; "v"] ["x"; "y"])).
    + simpl. lia.
    + reflexivity.
Defined.

Lemma traced_mapM_calls_all {A B} (f : A -> Traced B) (l : list A) n :
  (forall x, x ∈ l -> calls (f x) = n /\ exists y, outcome (f x) = Ok y) ->
  calls (traced_mapM f l) = length l * n.
Proof.
  induction l as [|x l IH]; intros H; [done|]. cbn [traced_mapM].
  change (length (x :: l) * n) with (n + length l * n).
  destruct (H x (list_elem_of_here _ _)) as (Hn & y & Hy).
  rewrite calls_bind, Hn, Hy, calls_bind, IH.
  - destruct (outcome (traced_mapM f l)); [change (calls (mret _)) with 0|]; lia.
  - intros z Hz. by apply H, list_elem_of_further.
Qed.

Lemma fast_grad_keyed_calls {I} h n' (items sub : list I) (key : I -> string)
    (val : nat -> I -> expr) (inp : LabelTensor expr) (ds : list string) :
  NoDup (map key items) ->
  (forall s, s ∈ sub -> s ∈ items) -> sub ≠ [] ->
  (length items = 1 -> length sub = 1) ->
  (forall x, x ∈ ds -> x ∈ labels inp) ->
  length (labels inp) <= width (tensor inp) ->
  NoDup (map (fun p => dlabel (key p.1) p.2) (list_prod sub ds)) ->
  uses_input (tensor (ktensor h n' items key val)) = true ->
  calls (fast_grad (ktensor h n' items key val) inp (map key sub) ds) = length sub.
Proof.
  intros Hnd Hsub Hne Hsc Hds Hw Hnd2 Hu.
  pose proof (fast_grad_keyed h n' items sub key val inp ds Hnd Hsub Hne Hsc Hds
                Hw Hnd2 Hu) as Hok.
  destruct (fast_grad_calls_aux (ktensor h n' items key val) inp (map key sub) ds)
    as [H1 Hv].
  change (width (tensor (ktensor h n' items key val))) with (length items) in *.
  destruct (decide (length items = 1)) as [Hone|Hmany].
  - by rewrite (H1 Hone), (Hsc Hone).
  - destruct (Hv Hmany) as [_ Heq]. rewrite (Heq _ Hok). apply length_map.
Qed.

Lemma scalar_laplacian_keyed_calls {I} h n' (s0 : I) (key : I -> string)
    (val : nat -> I -> expr) (inp : LabelTensor expr) (ds : list string) :
  (forall x, x ∈ ds -> x ∈ labels inp) ->
  length (labels inp) <= width (tensor inp) ->
  NoDup ds -> ds ≠ [] ->
  NoDup (second_order_labels (key s0) ds) ->
  uses_input (gradient (tab h n' 1 (fun j => [val j s0])) (tensor inp)
                (ones_like (tab h n' 1 (fun j => [val j s0])))) = true ->
  calls (_scalar_laplacian (ktensor h n' [s0] key val) inp ds) = 1 + length ds.
Proof.
  intros Hds Hw Hnd Hne Hnd2 Hu2.
  pose proof (uses_input_gradient_once _ _ Hu2) as Hu1.
  unfold _scalar_laplacian.
  change (labels (ktensor h n' [s0] key val)) with (map key [s0]).
  set (items1 := list_prod [s0] ds).
  set (key1 := fun p : I * string => dlabel (key p.1) p.2).
  set (val1 := fun i (p : I * string) => dcol h n' val inp i p.1 p.2).
  set (key2 := fun q : I * string * string => dlabel (key1 q.1) q.2).
  set (h1 := grad_hidden h n' val inp [s0]).
  assert (items1 = map (pair s0) ds) as Hitems by apply list_prod_singleton.
  assert (NoDup (map key1 items1)) as Hnd1.
  { rewrite Hitems, map_map. simpl.
    by apply (NoDup_map_inj (dlabel (key s0))); [apply dlabel_inj|]. }
  assert (NoDup (map key2 (list_prod items1 ds))) as Hnd2'.
  { rewrite Hitems. unfold key2, key1.
    by rewrite (second_labels_keyed key s0 ds). }
  assert (items1 ≠ []) as Hne1.
  { rewrite Hitems. by destruct ds. }
  assert (uses_input (tensor (ktensor h1 (shape0 (tensor inp)) items1 key1 val1))
          = true) as Hu3.
  { apply (uses_input_grad_result h n' val inp [s0] _ _ _ _ s0);
      [apply list_elem_of_here|done]. }
  rewrite calls_bind.
  rewrite (fast_grad_keyed_calls h n' [s0] [s0] key val inp ds
             (NoDup_singleton _) (fun _ H => H) ltac:(done) (fun H => H)
             Hds Hw Hnd1 Hu1).
  rewrite (fast_grad_keyed h n' [s0] [s0] key val inp ds
             (NoDup_singleton _) (fun _ H => H) ltac:(done) (fun H => H)
             Hds Hw Hnd1 Hu1).
  change (src_hidden h n' [s0] val) with h. fold h1. fold items1. fold val1.
  fold key1.
  rewrite calls_bind.
  change (labels (ktensor h1 (shape0 (tensor inp)) items1 key1 val1))
    with (map key1 items1).
  rewrite (fast_grad_keyed_calls _ _ items1 items1 key1 val1 inp ds
             Hnd1 (fun _ H => H) Hne1 (fun H => H) Hds Hw Hnd2' Hu3).
  rewrite (fast_grad_keyed _ _ items1 items1 key1 val1 inp ds
             Hnd1 (fun _ H => H) Hne1 (fun H => H) Hds Hw Hnd2' Hu3).
  rewrite calls_bind, calls_pure_step, outcome_pure_step.
  rewrite Hitems at 1. rewrite length_map. cbn [length].
  destruct (extract _ _); [change (calls (mret _)) with 0|]; lia.
Qed.

Lemma fast_div_keyed_calls {I} h n (items : list (I * string)) (key : I -> string)
    (val : nat -> I * string -> expr) (inp : LabelTensor expr) (c : I)
    (ds : list string) :
  NoDup (map (fun p => dlabel (key p.1) p.2) items) ->
  (forall x, x ∈ ds -> (c, x) ∈ items) -> ds ≠ [] ->
  (length items = 1 -> length ds = 1) ->
  (forall x, x ∈ ds -> x ∈ labels inp) ->
  length (labels inp) <= width (tensor inp) ->
  NoDup (second_order_labels (key c) ds) ->
  uses_input (tensor (ktensor h n items (fun p => dlabel (key p.1) p.2) val))
  = true ->
  calls (r ← fast_div (ktensor h n items (fun p => dlabel (key p.1) p.2) val)
               inp (map (fun i => dlabel (key c) i) ds) ds;
         mret (tensor r))
  = length ds.
Proof.
  intros Hnd Hsub Hne Hsc Hds Hw Hnd2 Hu.
  set (keyG := fun p : I * string => dlabel (key p.1) p.2).
  set (sub := map (pair c) ds).
  set (key2 := fun q : I * string * string => dlabel (keyG q.1) q.2).
  assert (map (fun i => dlabel (key c) i) ds = map keyG sub) as ->.
  { unfold sub. by rewrite map_map. }
  assert (forall s, s ∈ sub -> s ∈ items) as Hsub'.
  { intros s Hs. apply list_elem_of_In, in_map_iff in Hs as (x & <- & Hx).
    by apply Hsub, list_elem_of_In. }
  assert (sub ≠ []) as Hne' by (unfold sub; by destruct ds).
  assert (length items = 1 -> length sub = 1) as Hsc'.
  { intros H. unfold sub. rewrite length_map. auto. }
  assert (NoDup (map key2 (list_prod sub ds))) as Hnd2'.
  { unfold sub, key2, keyG. by rewrite (second_labels_keyed key c ds). }
  unfold fast_div. rewrite calls_bind, calls_bind.
  rewrite (fast_grad_keyed_calls h n items sub keyG val inp ds
             Hnd Hsub' Hne' Hsc' Hds Hw Hnd2' Hu).
  rewrite (fast_grad_keyed h n items sub keyG val inp ds
             Hnd Hsub' Hne' Hsc' Hds Hw Hnd2' Hu).
  rewrite calls_bind, calls_pure_step, outcome_pure_step.
  unfold sub. rewrite length_map.
  match goal with |- context [outcome ?m] => destruct (outcome m) end;
    [change (calls (mret _)) with 0|];
    destruct (result_mapM _ _); cbn [calls pure_step]; lia.
Qed.

(** X6. On the inputs on which they agree, the two methods of [fast_laplacian]
    cost the same: for an output that the engine can differentiate twice,
    each makes one call of the reverse-mode primitive per component for the
    gradient and one per component and derivative variable for the second
    derivatives. *)
Theorem laplacian_methods_same_calls
    (out inp : LabelTensor expr) (comps ds : list string) :
  well_formed out -> well_formed inp -> twice_differentiable out inp ->
  comps ≠ [] -> NoDup comps -> (forall c, c ∈ comps -> c ∈ labels out) ->
  ds ≠ [] -> NoDup ds -> (forall x, x ∈ ds -> x ∈ labels inp) ->
  NoDup (first_order_labels comps ds) ->
  (forall c, c ∈ comps -> NoDup (second_order_labels c ds)) ->
  calls (fast_laplacian out inp comps ds "std")
  = length comps * (1 + length ds)
  /\ calls (fast_laplacian out inp comps ds "divgrad")
     = length comps * (1 + length ds).
Proof.
  intros Hout Hinp Htw Hne Hndc Hsub Hned Hndd Hds Hnd1 Hnd2.
  pose proof Hout as (Hndo & Hleno & _). pose proof Hinp as (_ & Hleni & _).
  assert (length (labels inp) <= width (tensor inp)) as Hw by lia.
  assert (forall m, fast_laplacian out inp comps ds m
                    = fast_laplacian
                        (ktensor (hidden (tensor out)) (shape0 (tensor out))
                           (labels out) id (entry out))
                        inp (map id comps) ds m) as Hfl.
  { intros m. by rewrite map_id, <- (well_formed_keyed out Hout). }
  assert (NoDup (map id (labels out))) as Hndo' by (by rewrite map_id).
  unfold twice_differentiable in Htw.
  rewrite (well_formed_keyed out Hout) in Htw.
  pose proof (uses_input_gradient_once _ _ Htw) as Hu1.
  set (h := hidden (tensor out)) in *.
  set (n' := shape0 (tensor out)) in *.
  set (K := ktensor h n' (labels out) id (entry out)) in *.
  assert (forall s, s ∈ comps ->
            calls (oc ← pure_step (extract K [id s]); _scalar_laplacian oc inp ds)
            = 1 + length ds
            /\ exists y, outcome (oc ← pure_step (extract K [id s]);
                                  _scalar_laplacian oc inp ds) = Ok y) as Hstd.
  { intros s Hs. change [id s] with (map id [s]).
    rewrite calls_bind, outcome_bind, calls_pure_step, outcome_pure_step.
    unfold K. rewrite (extract_keyed h _ (labels out) [s] id (entry out) Hndo');
      [|intros s' ->%list_elem_of_singleton; by apply Hsub].
    rewrite bind_Ok.
    pose proof (uses_input_gradient_column h n' (labels out) id (entry out) inp s
                  Htw) as Hcol.
    split.
    - by rewrite scalar_laplacian_keyed_calls by auto.
    - eexists. by apply scalar_laplacian_keyed; auto. }
  destruct (decide (length (labels out) = 1)) as [Hone|Hvec].
  - assert (exists u, labels out = [u] /\ comps = [u]) as (u & Hlo & ->).
    { destruct (labels out) as [|u [|? ?]] eqn:Hl; try done.
      destruct comps as [|a [|b comps]]; try done.
      - pose proof (Hsub a (list_elem_of_here _ _)) as Ha.
        apply list_elem_of_singleton in Ha. subst. by exists u.
      - pose proof (Hsub a (list_elem_of_here _ _)) as Ha.
        pose proof (Hsub b (list_elem_of_further _ _ _ (list_elem_of_here _ _)))
          as Hb.
        apply list_elem_of_singleton in Ha, Hb. subst.
        apply NoDup_cons in Hndc as [Hn _]. exfalso. apply Hn, list_elem_of_here. }
    rewrite (fast_laplacian_scalar_method out inp [u] ds "divgrad" "std") by lia.
    assert (calls (fast_laplacian out inp [u] ds "std") = 1 * (1 + length ds));
      [|by split].
    rewrite Hfl. unfold fast_laplacian.
    change (width (tensor K)) with (length (labels out)). rewrite Hone.
    cbn [Nat.eqb]. subst K. rewrite Hlo in Htw |- *. rewrite calls_bind.
    rewrite scalar_laplacian_keyed_calls, scalar_laplacian_keyed;
      auto; try (apply Hnd2, list_elem_of_here).
  - apply Nat.eqb_neq in Hvec. split.
    + rewrite Hfl. unfold fast_laplacian.
      change (width (tensor K)) with (length (labels out)). rewrite Hvec.
      cbn [String.eqb Ascii.eqb Bool.eqb]. cbv iota.
      rewrite calls_bind, calls_bind, traced_mapM_map.
      rewrite (traced_mapM_calls_all _ comps (1 + length ds) Hstd).
      repeat match goal with
             | |- context [outcome ?m] => destruct (outcome m)
             end; cbn [calls pure_step]; lia.
    + rewrite Hfl. unfold fast_laplacian.
      change (width (tensor K)) with (length (labels out)). rewrite Hvec.
      cbn [String.eqb Ascii.eqb Bool.eqb]. cbv iota.
      assert (NoDup (map (fun p : string * string => dlabel (id p.1) p.2)
                       (list_prod comps ds))) as Hnd1'.
      { by rewrite (map_list_prod (fun s y => dlabel (id s) y)). }
      apply Nat.eqb_neq in Hvec. unfold K.
      set (hs := src_hidden h n' (labels out) (entry out)).
      set (hg := grad_hidden hs n' (entry out) inp comps).
      set (val1 := fun i (p : string * string) =>
                     dcol hs n' (entry out) inp i p.1 p.2).
      assert (uses_input
                (tensor (ktensor hg (shape0 (tensor inp)) (list_prod comps ds)
                           (fun p => dlabel (id p.1) p.2) val1)) = true) as Hu2.
      { destruct comps as [|s1 comps']; [done|].
        apply (uses_input_grad_result hs n' (entry out) inp (s1 :: comps')
                 _ _ _ _ s1); [apply list_elem_of_here|].
        unfold hs, src_hidden.
        apply Nat.eqb_neq in Hvec. rewrite Hvec.
        by apply (uses_input_gradient_column h n' (labels out) id (entry out)
                    inp s1). }
      rewrite calls_bind, calls_bind.
      rewrite (fast_grad_keyed_calls h _ (labels out) comps id (entry out) inp ds
                 Hndo' Hsub Hne ltac:(done) Hds Hw Hnd1' Hu1).
      rewrite (fast_grad_keyed h _ (labels out) comps id (entry out) inp ds
                 Hndo' Hsub Hne ltac:(done) Hds Hw Hnd1' Hu1).
      fold hs. fold hg. fold val1.
      rewrite calls_bind, traced_mapM_map.
      rewrite (traced_mapM_calls_all _ comps (length ds)); cycle 1.
      { intros s Hs. split.
        - apply (fast_div_keyed_calls hg (shape0 (tensor inp))
                   (list_prod comps ds) id val1 inp s ds); auto.
          + intros x Hx. apply list_elem_of_In, in_prod; by apply list_elem_of_In.
          + rewrite length_prod. intros H. by apply Nat.eq_mul_1 in H as [_ ?].
        - eexists.
          apply (fast_div_keyed hg (shape0 (tensor inp)) (list_prod comps ds) id
                   val1 inp s ds); auto.
          + intros x Hx. apply list_elem_of_In, in_prod; by apply list_elem_of_In.
          + rewrite length_prod. intros H. by apply Nat.eq_mul_1 in H as [_ ?]. }
      repeat match goal with
             | |- context [outcome ?m] => destruct (outcome m)
             end; cbn [calls pure_step]; lia.
Qed.

Lemma laplacian_methods_same_calls_witness :
  calls (fast_laplacian ex_output ex_input ["u"; "v"] ["x"; "y"] "std") = 2 * (1 + 2)
  /\ calls (fast_laplacian ex_output ex_input ["u"; "v"] ["x"; "y"] "divgrad")
     = 2 * (1 + 2).
Proof.
  apply (laplacian_methods_same_calls ex_output ex_input ["u"; "v"] ["x"; "y"]).
  - split; [apply (bool_decide_unpack _); vm_compute; exact I|].
    split; [reflexivity|]. repeat constructor.
  - split; [apply (bool_decide_unpack _); vm_compute; exact I|].
    split; [reflexivity|]. repeat constructor.
  - reflexivity.
  - discriminate.
  - apply (bool_decide_unpack _). vm_compute. exact I.
  - intros c Hc. exact Hc.
  - discriminate.
  - apply (bool_decide_unpack _). vm_compute. exact I.
  - intros x Hx. exact Hx.
  - apply (bool_decide_unpack _). vm_compute. exact I.
  - intros c Hc.
    apply elem_of_cons in Hc as [->|Hc];
      [|apply list_elem_of_singleton in Hc as ->];
      apply (bool_decide_unpack _); vm_compute; exact I.
Defined.

(** ** The values of the advection *)

Lemma chunks_concat {A} w (rs : list (list A)) :
  Forall (fun r => length r = w) rs -> chunks (length rs) w (concat rs) = rs.
Proof.
  induction 1 as [|r rs Hr _ IH]; [done|]. cbn [length chunks concat].
  rewrite take_app_length' by done. rewrite drop_app_length' by done.
  by rewrite IH.
Qed.

Lemma length_concat_uniform {A} w (rs : list (list A)) :
  Forall (fun r => length r = w) rs -> length (concat rs) = length rs * w.
Proof.
  induction 1 as [|r rs Hr _ IH]; [done|]. cbn [concat length].
  rewrite length_app, IH, Hr. lia.
Qed.

Lemma zip_with_maps {A B C D E} (op : C -> D -> E) (a : A -> C) (b : B -> D)
    (l : list A) (k : list B) :
  zip_with op (map a l) (map b k) = map (fun p => op (a p.1) (b p.2)) (zip l k).
Proof.
  revert k. induction l as [|x l IH]; intros [|y k]; simpl; try done.
  by rewrite IH.
Qed.

Lemma map_lookup_total_seq {A B} `{Inhabited A} (h : A -> B) (l : list A) :
  map (fun j => h (l !!! j)) (seq 0 (length l)) = map h l.
Proof.
  rewrite <- (map_map (fun j => l !!! j) h). f_equal. symmetry.
  apply list_tabulate.
Qed.

Lemma transpose_block_maps {A B} (G : A -> B -> expr) (cs : list A) (xs : list B)
    `{Inhabited B} :
  transpose_block (length xs) (map (fun c => map (G c) xs) cs)
  = map (fun x => map (fun c => G c x) cs) xs.
Proof.
  unfold transpose_block. rewrite <- (map_lookup_total_seq _ xs).
  apply map_ext_in. intros j Hj. apply in_seq in Hj. rewrite map_map.
  apply map_ext. intros c.
  change (map (G c) xs) with (G c <$> xs).
  by rewrite (list_lookup_total_fmap (G c) xs j) by lia.
Qed.

Lemma foldl_zip_with_rows {A Q} (G : Q -> A -> expr) (a : A -> expr)
    (cs : list A) (qs : list Q) :
  foldl (zip_with Add) (map a cs) (map (fun p => map (G p) cs) qs)
  = map (fun c => foldl (fun acc p => Add acc (G p c)) (a c) qs) cs.
Proof.
  revert a. induction qs as [|q qs IH]; intros a; [done|].
  cbn [map foldl]. by rewrite zip_with_map_diag, IH.
Qed.

Lemma replicate_map {A B} (b : B) (l : list A) :
  replicate (length l) b = map (fun _ => b) l.
Proof. induction l as [|x l IH]; [done|]. cbn. by rewrite IH. Qed.

Lemma eval_foldl_Add_gen {A} env (v : A -> expr) (l : list A) (e : expr) :
  eval env (foldl (fun acc q => Add acc (v q)) e l)
  = (eval env e + Zsum (fun q => eval env (v q)) l)%Z.
Proof.
  unfold Zsum. revert e. induction l as [|x l' IH]; intros e;
    cbn [foldl foldr]; [lia|].
  rewrite IH. cbn [eval]. lia.
Qed.

Lemma advlabel_inj : Inj (=) (=) advlabel.
Proof. intros x y H. unfold advlabel in H. by apply (inj (String.app _)) in H. Qed.

(** X4. For an output that the engine can differentiate with respect to
    the input, the advection returns, for every requested component, the
    sum over the paired velocity components and derivative variables of the
    velocity times the derivative of the component with respect to the
    variable, in the column [adv_<component>].  The output and the input
    have the same number of points. *)
Theorem fast_advection_values
    (out inp : LabelTensor expr) (v comps ds : list string) :
  well_formed out -> well_formed inp -> differentiable out ->
  shape0 (tensor out) = shape0 (tensor inp) ->
  comps ≠ [] -> NoDup comps -> (forall c, c ∈ comps -> c ∈ labels out) ->
  (forall x, x ∈ ds -> x ∈ labels inp) ->
  (forall w, w ∈ v -> w ∈ labels out) -> length v = length ds ->
  NoDup (first_order_labels comps ds) ->
  exists t,
    outcome (fast_advection out inp v comps ds) = Ok t
    /\ labels t = map advlabel comps
    /\ forall env,
         values env t
         = map (fun i =>
                  map (fun c =>
                         Zsum (fun p => (jac env out inp i c p.1
                                         * eval env (entry out i p.2))%Z)
                           (zip ds v))
                    comps)
             (seq 0 (shape0 (tensor inp))).
Proof.
  intros Hout Hinp Hdiff Hrows Hne Hndc Hsub Hds Hv Hlen Hnd1.
  pose proof Hout as (Hndo & Hleno & _). pose proof Hinp as (_ & Hleni & _).
  assert (NoDup (map id (labels out))) as Hndo' by (by rewrite map_id).
  unfold differentiable in Hdiff. rewrite (well_formed_keyed out Hout) in Hdiff.
  rewrite <- Hrows.
  set (n := shape0 (tensor out)) in *.
  set (h := hidden (tensor out)) in *.
  set (hs := src_hidden h n (labels out) (entry out)).
  set (hv := h ++ kents n (labels out) (entry out)).
  set (hg := grad_hidden hs n (entry out) inp comps).
  set (D := fun i c x => dcol hs n (entry out) inp i c x).
  assert (fast_advection out inp v comps ds
          = fast_advection (ktensor h n (labels out) id (entry out))
              inp (map id v) (map id comps) ds) as ->.
  { unfold n, h. by rewrite !map_id, <- (well_formed_keyed out Hout). }
  unfold fast_advection.
  rewrite outcome_bind, outcome_pure_step.
  rewrite (extract_keyed h _ (labels out) v id (entry out) Hndo' Hv), bind_Ok.
  fold hv.
  rewrite outcome_bind.
  rewrite (fast_grad_keyed h _ (labels out) comps id (entry out) inp ds);
    try done; cycle 1.
  { intros H1. destruct (labels out) as [|u [|? ?]]; try done.
    destruct comps as [|a [|b comps]]; try done.
    pose proof (Hsub a (list_elem_of_here _ _)) as Ha.
    pose proof (Hsub b (list_elem_of_further _ _ _ (list_elem_of_here _ _))) as Hb.
    apply list_elem_of_singleton in Ha, Hb. subst.
    apply NoDup_cons in Hndc as [Hn _]. exfalso. apply Hn, list_elem_of_here. }
  { lia. }
  { unfold first_order_labels in Hnd1.
    by rewrite (map_list_prod (fun s y => dlabel s y)). }
  fold hs. fold hg.
  rewrite bind_Ok, outcome_bind, outcome_pure_step. rewrite <- Hrows.
  change (shape0 (tensor (ktensor h n (labels out) id (entry out))))
    with (shape0 (tab h n (length (labels out))
                    (fun i => map (entry out i) (labels out)))).
  rewrite shape0_tab, !length_map.
  assert (reshape3 (tensor (ktensor hg n (list_prod comps ds)
                              (fun p => dlabel (id p.1) p.2)
                              (fun i p => dcol hs n (entry out) inp i p.1 p.2)))
            n (length comps) (length ds)
          = Ok (map (fun i => map (fun c => map (D i c) ds) comps) (seq 0 n))) as ->.
  { unfold reshape3, ktensor, tab. cbn [tensor rows].
    assert (map (fun i => map (fun p : string * string =>
                                 dcol hs n (entry out) inp i p.1 p.2)
                            (list_prod comps ds)) (seq 0 n)
            = map (fun i => concat (map (fun c => map (D i c) ds) comps)) (seq 0 n))
      as ->.
    { apply map_ext. intros i.
      by rewrite (map_list_prod (fun c x => D i c x)), flat_map_concat_map. }
    set (rs := map (fun i => concat (map (fun c => map (D i c) ds) comps)) (seq 0 n)).
    assert (Forall (fun r => length r = length comps * length ds) rs) as Hrs.
    { apply List.Forall_forall. intros r Hr. unfold rs in Hr.
      apply in_map_iff in Hr as (i & <- & _).
      rewrite <- flat_map_concat_map.
      rewrite flat_map_constant_length with (c := length ds); [lia|].
      intros c _. apply length_map. }
    assert (length rs = n) as Hlrs by (unfold rs; by rewrite length_map, length_seq).
    assert (length (concat rs) = n * length comps * length ds) as ->.
    { rewrite (length_concat_uniform _ rs Hrs), Hlrs. lia. }
    rewrite Nat.eqb_refl. f_equal.
    rewrite <- Hlrs at 1. rewrite (chunks_concat _ rs Hrs). unfold rs.
    rewrite map_map. apply map_ext. intros i.
    rewrite <- (length_map (fun c => map (D i c) ds) comps) at 1.
    apply chunks_concat. apply List.Forall_forall. intros r Hr.
    apply in_map_iff in Hr as (c & <- & _). apply length_map. }
  rewrite bind_Ok, outcome_bind, outcome_pure_step.
  rewrite !(map_map (fun i => map (fun c => map (D i c) ds) comps)
              (transpose_block (length ds))).
  rewrite !(map_ext (fun i => transpose_block (length ds)
                                (map (fun c => map (D i c) ds) comps))
              (fun i => map (fun x => map (fun c => D i c x) comps) ds))
    by (intros i; exact (transpose_block_maps (D i) comps ds)).
  rewrite !length_map, length_seq.
  change (shape0 (tensor (ktensor hv n v id (entry out))))
    with (shape0 (tab hv n (length v) (fun i => map (entry out i) v))).
  rewrite shape0_tab, Nat.eqb_refl.
  change (rows (tensor (ktensor hv n v id (entry out))))
    with (map (fun i => map (entry out i) v) (seq 0 n)).
  rewrite zip_with_map_diag, result_mapM_map.
  rewrite (result_mapM_ok _
             (fun i => map (fun p => map (fun c => Mul (D i c p.1) (entry out i p.2)) comps)
                         (zip ds v))); cycle 1.
  { intros i _. unfold broadcast_mul. rewrite !length_map, Hlen, Nat.eqb_refl.
    f_equal. rewrite zip_with_maps. apply map_ext. intros p. by rewrite map_map. }
  rewrite bind_Ok, outcome_pure_step, map_map.
  rewrite LabelTensor_init_ok; cycle 1.
  { apply (NoDup_map_inj advlabel); [apply advlabel_inj|by rewrite map_id]. }
  { cbn [width]. by rewrite !length_map. }
  eexists. split; [reflexivity|]. split; [cbn [labels]; by rewrite map_id|].
  intros env. unfold values. cbn [tensor rows]. rewrite map_map.
  apply map_ext. intros i. unfold sum_rows.
  rewrite replicate_map, foldl_zip_with_rows, map_map.
  apply map_ext. intros c. rewrite eval_foldl_Add_gen. cbn [eval].
  rewrite Z.add_0_l. apply Zsum_ext. intros p. cbn [eval].
  unfold D. by rewrite eval_dcol.
Qed.

Lemma fast_advection_values_witness :
  exists t,
    outcome (fast_advection ex_output ex_input ["u"; "v"] ["v"] ["x"; "y"]) = Ok t
    /\ labels t = ["adv_v"]
    /\ forall env,
         values env t
         = map (fun i =>
                  map (fun c =>
                         Zsum (fun p => (jac env ex_output ex_input i c p.1
                                         * eval env (entry ex_output i p.2))%Z)
                           [("x", "u"); ("y", "v")])
                    ["v"])
             [0; 1].
Proof.
  apply (fast_advection_values ex_output ex_input ["u"; "v"] ["v"] ["x"; "y"]).
  - split; [apply (bool_decide_unpack _); vm_compute; exact I|].
    split; [reflexivity|]. repeat constructor.
  - split; [apply (bool_decide_unpack _); vm_compute; exact I|].
    split; [reflexivity|]. repeat constructor.
  - reflexivity.
  - reflexivity.
  - discriminate.
  - apply (bool_decide_unpack _). vm_compute. exact I.
  - intros c Hc. apply list_elem_of_singleton in Hc as ->.
    apply (bool_decide_unpack _). vm_compute. exact I.
  - intros x Hx. exact Hx.
  - intros w Hw. exact Hw.
  - reflexivity.
  - apply (bool_decide_unpack _). vm_compute. exact I.
Defined.

(** ** A derivative variable that the input does not have *)






